(** * Cryptodog multi-party encryption ([js/etc/multiParty.js])

    A shallow embedding of the multi-party message protocol and the
    properties of its specification.

    Layout of the development:
    - [JS]: the 32-bit integer operators and array writes of the host language;
    - [WA]: CryptoJS word arrays and the [Uint8Array] conversions of the source;
    - [JSObject]: the plain object [encrypted.text], with its prototype;
    - [Protocol]: key agreement, [encrypt] and [decrypt], parametric in the
      primitive libraries the source calls into;
    - [Ref]: small executable instances of the primitives, used to run the
      protocol on concrete inputs. *)

From Stdlib Require Import ZArith Lia List Bool.
From Stdlib Require Import Strings.Ascii Strings.String Strings.Byte.
From Stdlib Require Import Sorting.Sorted Sorting.Permutation Structures.OrdersEx.
From stdpp Require Import base option list gmap strings sorting.

#[local] Open Scope Z_scope.

(** ** The host language: 32-bit integer operators and arrays *)

Module JS.

(** [ToInt32] of ECMA-262: reduce modulo 2^32, then read as two's complement. *)
Definition ToInt32 (z : Z) : Z :=
  let int32bit := z mod 2 ^ 32 in
  if 2 ^ 31 <=? int32bit then int32bit - 2 ^ 32 else int32bit.

(** [x << n]: the shift count is taken modulo 32. *)
Definition shl (x n : Z) : Z := ToInt32 (Z.shiftl (ToInt32 x) (n mod 32)).

(** [x >> n]: sign-propagating right shift. *)
Definition sar (x n : Z) : Z := Z.shiftr (ToInt32 x) (n mod 32).

(** [x | y] and [x & y]. *)
Definition bitor (x y : Z) : Z := Z.lor (ToInt32 x) (ToInt32 y).
Definition bitand (x y : Z) : Z := Z.land (ToInt32 x) (ToInt32 y).

(** [(i / 4) | 0] on a non-negative index. *)
Definition div4 (i : nat) : nat := Nat.div i 4.

(** Reading [a[k]] where the result is consumed by a bitwise operator: a
    missing element is [undefined], which the operator coerces to 0. *)
Definition aget (a : list Z) (k : nat) : Z := nth k a 0.

(** Writing [a[k] = v]: in range the element is replaced, out of range the
    array is extended up to index [k] (the holes in between read as 0 under
    the bitwise operators, see [aget]). *)
Definition aset (a : list Z) (k : nat) (v : Z) : list Z :=
  if (k <? length a)%nat then <[k := v]> a
  else a ++ repeat 0 (k - length a)%nat ++ [v].

(** Storing a number into a [Uint8Array] element keeps it modulo 256. *)
Definition ToUint8 (z : Z) : byte :=
  match Byte.of_N (Z.to_N (z mod 256)) with
  | Some b => b
  | None => x00
  end.

(** Reading a [Uint8Array] element as a number. *)
Definition ofByte (b : byte) : Z := Z.of_N (Byte.to_N b).

End JS.

(** ** CryptoJS word arrays and the source's conversions *)

Module WA.

(** [CryptoJS.lib.WordArray]: 32-bit words, big-endian, of which the first
    [sigBytes] bytes are significant. *)
Record WordArray := mk { words : list Z; sigBytes : nat }.

(** [CryptoJS.lib.WordArray.create(words, sigBytes)]; without the second
    argument every byte of [words] is significant. *)
Definition create (ws : list Z) (n : option nat) : WordArray :=
  match n with
  | Some k => mk ws k
  | None => mk ws (length ws * 4)%nat
  end.

(** Byte [i] of a word array, as every CryptoJS routine reads it:
    [(words[i >>> 2] >>> (24 - (i % 4) * 8)) & 0xff]. *)
Definition byteAt (ws : list Z) (i : nat) : byte :=
  JS.ToUint8 (Z.land (Z.shiftr (JS.ToInt32 (JS.aget ws (i / 4)%nat))
                               (24 - Z.of_nat (i mod 4) * 8)) 255).

(** The significant bytes of a word array. *)
Definition bytes (w : WordArray) : list byte :=
  map (byteAt (words w)) (seq 0 (sigBytes w)).

(** [Uint8Array.prototype.toWordArray] (source lines 229-235). *)
Fixpoint toWordArray_loop (this : list byte) (i : nat) (wa : list Z) : list Z :=
  match this with
  | [] => wa
  | b :: rest =>
      let k := JS.div4 i in
      toWordArray_loop rest (S i)
        (JS.aset wa k (JS.bitor (JS.aget wa k) (JS.shl (JS.ofByte b) (24 - 8 * Z.of_nat i))))
  end.

Definition toWordArray (this : list byte) : WordArray :=
  create (toWordArray_loop this 0 []) (Some (length this)).

(** [Uint8Array.fromWordArray] (source lines 237-250): four bytes per word,
    for every word of the array, whatever [sigBytes] says. *)
Definition fromWordArray (wordArray : WordArray) : list byte :=
  flat_map (fun word =>
    [ JS.ToUint8 (JS.sar word 24);
      JS.ToUint8 (JS.bitand (JS.sar word 16) 255);
      JS.ToUint8 (JS.bitand (JS.sar word 8) 255);
      JS.ToUint8 (JS.bitand word 255) ]) (words wordArray).

(** Closed form of the word list [toWordArray] builds: four bytes per word,
    most significant first, the last word filled up with zero bits. *)
Definition word4 (b0 b1 b2 b3 : byte) : Z :=
  JS.ToInt32 (JS.ofByte b0 * 2 ^ 24 + JS.ofByte b1 * 2 ^ 16
              + JS.ofByte b2 * 2 ^ 8 + JS.ofByte b3).

Fixpoint pack (bs : list byte) : list Z :=
  match bs with
  | [] => []
  | [b0] => [word4 b0 x00 x00 x00]
  | [b0; b1] => [word4 b0 b1 x00 x00]
  | [b0; b1; b2] => [word4 b0 b1 b2 x00]
  | b0 :: b1 :: b2 :: b3 :: rest => word4 b0 b1 b2 b3 :: pack rest
  end.

End WA.


(** ** The primitive libraries

    The protocol calls into NaCl (curve scalar multiplication), CryptoJS
    (SHA-512, HMAC-SHA512, AES in counter mode, Base64 and UTF-8 codecs), the
    host's string collation and a secure random source.  None of them is part
    of the sources: they are taken as parameters, at the interface the
    specification gives them (functions on byte strings). *)

Class Primitives := {
  (** [nacl.scalarMult(n, p)] and [nacl.scalarMult.base(n)] *)
  scalarMult : list byte -> list byte -> list byte;
  scalarMult_base : list byte -> list byte;
  (** 512-bit hash *)
  sha512 : list byte -> list byte;
  (** [hmac_sha512 message key] *)
  hmac_sha512 : list byte -> list byte -> list byte;
  (** counter-mode cipher without padding: [data], [key], 16-byte counter block *)
  aes_ctr_encrypt : list byte -> list byte -> list byte -> list byte;
  aes_ctr_decrypt : list byte -> list byte -> list byte -> list byte;
  (** transport encoding *)
  base64_encode : list byte -> string;
  base64_decode : string -> list byte;
  (** text encoding; decoding fails on an invalid byte sequence *)
  utf8_encode : string -> list byte;
  utf8_decode : list byte -> option string;
  (** [a.localeCompare(b)]: negative, zero or positive *)
  localeCompare : string -> string -> Z
}.

(** Modelled from the spec: CryptoJS, which the source calls and does not
    contain.  Every routine reads the significant bytes of its arguments and
    returns a word array packed as [toWordArray] packs one (big-endian, four
    bytes per word, zero bits after the last byte). *)
Module CryptoJS.
Section Facade.
Context `{P : Primitives}.

(** [CryptoJS.SHA512(m)] *)
Definition SHA512 (m : WA.WordArray) : WA.WordArray :=
  WA.toWordArray (sha512 (WA.bytes m)).

(** [CryptoJS.HmacSHA512(m, key)] *)
Definition HmacSHA512 (m key : WA.WordArray) : WA.WordArray :=
  WA.toWordArray (hmac_sha512 (WA.bytes m) (WA.bytes key)).

(** [CryptoJS.enc.Base64.stringify(w)], also [w.toString(CryptoJS.enc.Base64)] *)
Definition Base64_stringify (w : WA.WordArray) : string := base64_encode (WA.bytes w).

(** [CryptoJS.enc.Base64.parse(s)] *)
Definition Base64_parse (s : string) : WA.WordArray := WA.toWordArray (base64_decode s).

(** [CryptoJS.enc.Utf8.parse(s)] *)
Definition Utf8_parse (s : string) : WA.WordArray := WA.toWordArray (utf8_encode s).

(** [w.toString(CryptoJS.enc.Utf8)]; [None] when it throws (malformed data). *)
Definition Utf8_stringify (w : WA.WordArray) : option string := utf8_decode (WA.bytes w).

(** [a.concat(b)]: the bytes of [b] appended to those of [a]. *)
Definition concat (a b : WA.WordArray) : WA.WordArray :=
  WA.toWordArray (WA.bytes a ++ WA.bytes b).

(** [a.clone()] *)
Definition clone (a : WA.WordArray) : WA.WordArray := a.

(** [CryptoJS.AES.encrypt(msg, key, {mode: CTR, iv, padding: NoPadding})]:
    the ciphertext of the returned cipher parameters. *)
Definition AES_encrypt (msg key iv : WA.WordArray) : WA.WordArray :=
  WA.toWordArray (aes_ctr_encrypt (WA.bytes msg) (WA.bytes key) (WA.bytes iv)).

(** [CryptoJS.AES.decrypt(msg, key, {mode: CTR, iv, padding: NoPadding})] on a
    Base64 ciphertext. *)
Definition AES_decrypt (msg : string) (key iv : WA.WordArray) : WA.WordArray :=
  WA.toWordArray (aes_ctr_decrypt (base64_decode msg) (WA.bytes key) (WA.bytes iv)).

(** [CryptoJS.lib.WordArray.random(n)]: the random source is a tape of the
    outputs it yields on its successive calls; a call asking for [n] bytes
    takes the next output, which has [n] bytes.  An exhausted tape is an
    unavailable source. *)
Definition random (n : nat) (tape : list (list byte)) : option (WA.WordArray * list (list byte)) :=
  match tape with
  | d :: tape' => if (length d =? n)%nat then Some (WA.toWordArray d, tape') else None
  | [] => None
  end.

End Facade.
End CryptoJS.

(** [OTR.HLP.compare(a, b)]: constant-time equality of two strings (not part
    of the sources). *)
Definition HLP_compare (a b : string) : bool := String.eqb a b.

(** ** Sorting *)

(** [array.sort(compareFn)]: a stable sort; [a] goes before [b] when
    [compareFn(a, b) < 0]. *)
Fixpoint sort_insert {A} (compareFn : A -> A -> Z) (x : A) (sorted : list A) : list A :=
  match sorted with
  | [] => [x]
  | y :: rest =>
      if compareFn x y <? 0 then x :: y :: rest
      else y :: sort_insert compareFn x rest
  end.

Definition Array_sort {A} (compareFn : A -> A -> Z) (l : list A) : list A :=
  fold_left (fun sorted x => sort_insert compareFn x sorted) l [].

(** The default order of [array.sort()] on strings: by code units. *)
Definition codeUnitCompare (a b : string) : Z :=
  match String_as_OT.compare a b with
  | Lt => -1
  | Eq => 0
  | Gt => 1
  end.

(** ** Data of the protocol *)

(** A shared secret: [{ message, hmac }], two word arrays. *)
Module Secret.
Record t := mk { message : WA.WordArray; hmac : WA.WordArray }.
End Secret.

(** A public key: [{ raw, encoded }]. *)
Module PublicKey.
Record t := mk { raw : list byte; encoded : string }.
End PublicKey.

(** A buddy: its nickname and, once its public key is known, the shared
    secret [mpSecretKey]. *)
Record Buddy := { nickname : string; mpSecretKey : option Secret.t }.

(** One entry of [encrypted.text]: [{ message, iv, hmac }], all Base64; [hmac]
    is assigned after the two other fields. *)
Module Entry.
Record t := mk { message : string; iv : string; hmac : option string }.
End Entry.

(** ** Plain objects used as maps

    [encrypted.text] is a plain object (source line 48) whose properties are
    entries.  It is read with [object[name]] (lines 81-94, 105-148), tested
    with [name in object] (line 113), listed with [Object.keys] (line 115) and
    written with [object[name] = entry] (line 71).  The first two go through
    the prototype chain; the last one runs the setter of
    [Object.prototype.__proto__] when the name is [__proto__]. *)
Module JSObject.

(** [own]: the own properties.  [proto]: the prototype, [None] for
    [Object.prototype] (an object literal, a parsed message), [Some entry]
    after an assignment under [__proto__] has replaced it by the entry
    assigned; the prototype of an entry is [Object.prototype]. *)
Record t := mk { own : gmap string Entry.t; proto : option Entry.t }.

(** [{}] *)
Definition empty : t := mk ∅ None.

(** The property names of [Object.prototype] (ECMA-262, with its annex B). *)
Definition Object_prototype : list string :=
  ["constructor"; "__defineGetter__"; "__defineSetter__"; "hasOwnProperty";
   "__lookupGetter__"; "__lookupSetter__"; "isPrototypeOf"; "propertyIsEnumerable";
   "toString"; "valueOf"; "__proto__"; "toLocaleString"].

(** What [object[name]] evaluates to. *)
Inductive Value :=
  | AnEntry (e : Entry.t)  (* an entry: own, or the prototype read as [__proto__] *)
  | AString (s : string)   (* a field of the prototype, when that is an entry *)
  | AnObject               (* [Object.prototype] or one of its functions *)
  | Undefined.

(** [entry[name]] for an own property of an entry. *)
Definition field (e : Entry.t) (name : string) : option string :=
  if String.eqb name "message" then Some (Entry.message e)
  else if String.eqb name "iv" then Some (Entry.iv e)
  else if String.eqb name "hmac" then Entry.hmac e
  else None.

(** [object[name]]: own properties first, then those of the prototype, then
    those of [Object.prototype], whose accessor [__proto__] answers with the
    prototype of [object]. *)
Definition get (object : t) (name : string) : Value :=
  match own object !! name with
  | Some e => AnEntry e
  | None =>
      match from_option (fun e => field e name) None (proto object) with
      | Some s => AString s
      | None =>
          if String.eqb name "__proto__" then
            match proto object with
            | Some e => AnEntry e
            | None => AnObject
            end
          else if existsb (String.eqb name) Object_prototype then AnObject
          else Undefined
      end
  end.

(** The truth value of [object[name]] in a condition. *)
Definition ToBoolean (v : Value) : bool :=
  match v with
  | AnEntry _ => true
  | AString s => negb (String.eqb s "")
  | AnObject => true
  | Undefined => false
  end.

(** [name in object] *)
Definition has (object : t) (name : string) : bool :=
  bool_decide (is_Some (own object !! name))
  || bool_decide (is_Some (from_option (fun e => field e name) None (proto object)))
  || existsb (String.eqb name) Object_prototype.

(** [object[name] = entry]: an own property is overwritten; without one, the
    name [__proto__] reaches the setter of [Object.prototype], which makes
    [entry] the prototype and adds no property; any other name becomes an own
    property. *)
Definition set (object : t) (name : string) (entry : Entry.t) : t :=
  match own object !! name with
  | Some _ => mk (<[name := entry]> (own object)) (proto object)
  | None =>
      if String.eqb name "__proto__" then mk (own object) (Some entry)
      else mk (<[name := entry]> (own object)) (proto object)
  end.

(** [object[name].hmac = h], for [object[name]] an entry. *)
Definition set_hmac (object : t) (name : string) (h : string) : t :=
  let assign e := Entry.mk (Entry.message e) (Entry.iv e) (Some h) in
  match own object !! name with
  | Some _ => mk (alter assign name (own object)) (proto object)
  | None =>
      if String.eqb name "__proto__" then mk (own object) (assign <$> proto object)
      else object
  end.

End JSObject.

(** The message: [{ type, text, tag }].  [text] holds the own properties of
    the object [message.text] and [proto] its prototype; [mk] builds a message
    whose [text] has the prototype of an object literal. *)
Module Envelope.
Record t := make { type : string; text : gmap string Entry.t; proto : option Entry.t;
                   tag : string }.

Definition mk (type : string) (text : gmap string Entry.t) (tag : string) : t :=
  make type text None tag.

(** [message.text] *)
Definition encrypted (message : t) : JSObject.t := JSObject.mk (text message) (proto message).
End Envelope.

(** The state [encrypt] runs in: the registry [usedIVs] (source line 4) and the
    tape of the random source. *)
Record State := { usedIVs : list string; entropy : list (list byte) }.

(** What [decrypt] throws.  The source throws strings naming the sender; the
    constructors are the error names of the specification, in the order of
    the source's [throw] statements.  [TypeError] is the host's own exception
    on reading a property of [undefined]. *)
Inductive DecryptError :=
  | NotAddressedToMe
  | MissingSenderKey
  | AuthenticationFailure
  | ReplayDetected
  | InvalidPlaintextSize
  | TagFailure
  | TypeError.

(** What [decrypt] returns: the object [{ plaintext, missingRecipients }]
    (source line 161) or a bare string (source line 158). *)
Inductive DecryptReturn :=
  | RetObject (plaintext : string) (missingRecipients : list string)
  | RetString (s : string).

Inductive Outcome :=
  | Return (v : DecryptReturn)
  | Throw (e : DecryptError).

(** The string the source throws for each error, [sender] being
    [sender.nickname]. *)
Definition thrown (e : DecryptError) (sender : string) : string :=
  match e with
  | NotAddressedToMe => "Message from " ++ sender ++ " is not encrypted for me"
  | MissingSenderKey => "Missing public key for " ++ sender
  | AuthenticationFailure => "HMAC failure for message from " ++ sender
  | ReplayDetected => "IV reuse in message from " ++ sender ++ "; possible replay attack"
  | InvalidPlaintextSize => "Invalid plaintext size for message from " ++ sender
  | TagFailure => "Tag failure for message from " ++ sender
  | TypeError => "TypeError"
  end%string.

(** The plaintext that reaches the caller of [decrypt], if any. *)
Definition released (o : Outcome) : option string :=
  match o with
  | Return (RetObject plaintext _) => Some plaintext
  | Return (RetString s) => Some s
  | Throw _ => None
  end.

(** ** The protocol (source lines 11-224) *)

Section Multiparty.
Context `{P : Primitives}.
Import CryptoJS.

Definition publicKeyFromPrivate (privateKey : list byte) : PublicKey.t :=
  let publicKey := scalarMult_base privateKey in
  {| PublicKey.raw := publicKey;
     PublicKey.encoded := Base64_stringify (WA.toWordArray publicKey) |}.

Definition parsePublicKey (encodedPublicKey : string) : list byte :=
  WA.fromWordArray (Base64_parse encodedPublicKey).

(** [words.slice(from, to)] *)
Definition slice {A} (from to : nat) (l : list A) : list A := take (to - from) (drop from l).

Definition sharedSecret (myPrivateKey theirPublicKey : list byte) : Secret.t :=
  let secret := SHA512 (WA.toWordArray (scalarMult myPrivateKey theirPublicKey)) in
  {| Secret.message := WA.create (slice 0 8 (WA.words secret)) None;
     Secret.hmac := WA.create (slice 8 16 (WA.words secret)) None |}.

Definition correctIvLength (iv : string) : WA.WordArray :=
  let ivAsWordArray := Base64_parse iv in
  let ivAsArray := WA.words ivAsWordArray in
  let ivAsArray := ivAsArray ++ [0] in
  WA.create ivAsArray None.

Definition encryptAES (msg c : WA.WordArray) (iv : string) : string :=
  Base64_stringify (AES_encrypt msg c (correctIvLength iv)).

Definition decryptAES (msg : string) (c : WA.WordArray) (iv : string) : WA.WordArray :=
  AES_decrypt msg c (correctIvLength iv).

Definition HMAC (msg key : WA.WordArray) : string :=
  Base64_stringify (HmacSHA512 msg key).

Definition createMessageTag (message : WA.WordArray) : string :=
  Base64_stringify (Nat.iter 8 SHA512 message).

(** [usedIVs.indexOf(iv) >= 0], [usedIVs.includes(iv)] *)
Definition includes (usedIVs : list string) (iv : string) : bool :=
  existsb (String.eqb iv) usedIVs.

(** Source lines 65-69: draw 12 random bytes until their encoding is not in
    the registry. *)
Fixpoint generateIV (usedIVs : list string) (tape : list (list byte))
  : option (string * list (list byte)) :=
  match tape with
  | [] => None
  | d :: tape' =>
      if (length d =? 12)%nat then
        let iv := Base64_stringify (WA.toWordArray d) in
        if includes usedIVs iv then generateIV usedIVs tape' else Some (iv, tape')
      else None
  end.

(** Source lines 51-57: the recipients that have a shared secret, sorted by
    nickname with [localeCompare].  An element keeps what the loops read of a
    recipient: its nickname and its secret. *)
Definition withSecret (r : Buddy) : option (string * Secret.t) :=
  match mpSecretKey r with
  | Some key => Some (nickname r, key)
  | None => None
  end.

Definition encrypt_sortedRecipients (recipients : list Buddy) : list (string * Secret.t) :=
  Array_sort (fun a b => localeCompare (fst a) (fst b)) (omap withSecret recipients).

(** Source lines 61-83: one entry per recipient, and the HMAC input.  Lines
    81-82 read back the entry that line 71 has just assigned, as an own
    property or as the prototype. *)
Fixpoint encrypt_entries (plaintext : WA.WordArray) (sortedRecipients : list (string * Secret.t))
    (st : State) (text : JSObject.t) (hmacInput : WA.WordArray)
  : option (State * JSObject.t * WA.WordArray) :=
  match sortedRecipients with
  | [] => Some (st, text, hmacInput)
  | (name, key) :: rest =>
      match generateIV (usedIVs st) (entropy st) with
      | None => None
      | Some (iv, tape) =>
          let st := {| usedIVs := usedIVs st ++ [iv]; entropy := tape |} in
          let entry := Entry.mk (encryptAES plaintext (Secret.message key) iv) iv None in
          let text := JSObject.set text name entry in
          let hmacInput := concat hmacInput (Base64_parse (Entry.message entry)) in
          let hmacInput := concat hmacInput (Base64_parse (Entry.iv entry)) in
          encrypt_entries plaintext rest st text hmacInput
      end
  end.

(** Source lines 86-95: the HMAC of every entry, and the tag input. *)
Fixpoint encrypt_hmacs (hmacInput : WA.WordArray) (sortedRecipients : list (string * Secret.t))
    (text : JSObject.t) (tag : WA.WordArray)
  : JSObject.t * WA.WordArray :=
  match sortedRecipients with
  | [] => (text, tag)
  | (name, key) :: rest =>
      let h := HMAC hmacInput (Secret.hmac key) in
      let text := JSObject.set_hmac text name h in
      encrypt_hmacs hmacInput rest text (concat tag (Base64_parse h))
  end.

Definition encrypt (plaintext : string) (recipients : list Buddy) (st : State)
  : option (Envelope.t * State) :=
  match random 64 (entropy st) with
  | None => None
  | Some (padding, tape) =>
      let plaintext := concat (Utf8_parse plaintext) padding in
      let sortedRecipients := encrypt_sortedRecipients recipients in
      match encrypt_entries plaintext sortedRecipients
              {| usedIVs := usedIVs st; entropy := tape |} JSObject.empty (WA.create [] None) with
      | None => None
      | Some (st, text, hmacInput) =>
          let '(text, tag) := encrypt_hmacs hmacInput sortedRecipients text (clone plaintext) in
          Some (Envelope.make "message" (JSObject.own text) (JSObject.proto text)
                  (createMessageTag tag), st)
      end
  end.

(** Source line 115: [Object.keys(encrypted).sort()], each key with its entry;
    the keys are the own properties. *)
Definition decrypt_sortedRecipients (encrypted : gmap string Entry.t) : list (string * Entry.t) :=
  Array_sort (fun a b => codeUnitCompare (fst a) (fst b)) (map_to_list encrypted).

(** Source lines 118-122. *)
Definition decrypt_hmacInput (sortedRecipients : list (string * Entry.t)) : WA.WordArray :=
  fold_left (fun hmacInput r =>
               concat (concat hmacInput (Base64_parse (Entry.message (snd r))))
                      (Base64_parse (Entry.iv (snd r))))
            sortedRecipients (WA.create [] None).

(** Source lines 146-149; an entry without [hmac] makes [Base64.parse] throw. *)
Fixpoint decrypt_messageTag (sortedRecipients : list (string * Entry.t))
    (messageTag : WA.WordArray) : option WA.WordArray :=
  match sortedRecipients with
  | [] => Some messageTag
  | r :: rest =>
      match Entry.hmac (snd r) with
      | None => None
      | Some h => decrypt_messageTag rest (concat messageTag (Base64_parse h))
      end
  end.

(** Source line 113. *)
Definition decrypt_missingRecipients (possibleRecipients : list string)
    (sender : Buddy) (encrypted : JSObject.t) : list string :=
  List.filter (fun r => negb (String.eqb r (nickname sender))
                        && negb (JSObject.has encrypted r))
              possibleRecipients.

(** [decrypt(message, sender)]; [myName] is [Cryptodog.me.nickname],
    [buddies] is [Object.keys(Cryptodog.buddies)], and the registry is passed
    in and out.  When [encrypted[myName]] is truthy without being an entry, an
    inherited member, its [hmac] is [undefined] and line 123 ends in a
    [TypeError]. *)
Definition decrypt (myName : string) (buddies : list string)
    (message : Envelope.t) (sender : Buddy) (usedIVs : list string)
  : Outcome * list string :=
  let encrypted := Envelope.encrypted message in
  if negb (JSObject.ToBoolean (JSObject.get encrypted myName))
  then (Throw NotAddressedToMe, usedIVs)
  else
  match mpSecretKey sender with
  | None => (Throw MissingSenderKey, usedIVs)
  | Some key =>
      let possibleRecipients := buddies in
      let missingRecipients := decrypt_missingRecipients possibleRecipients sender encrypted in
      let sortedRecipients := decrypt_sortedRecipients (JSObject.own encrypted) in
      let hmacInput := decrypt_hmacInput sortedRecipients in
      match JSObject.get encrypted myName with
      | JSObject.AnEntry mine =>
      match Entry.hmac mine with
      | None => (Throw TypeError, usedIVs)
      | Some mine_hmac =>
      if negb (HLP_compare mine_hmac (HMAC hmacInput (Secret.hmac key)))
      then (Throw AuthenticationFailure, usedIVs)
      else if includes usedIVs (Entry.iv mine)
      then (Throw ReplayDetected, usedIVs)
      else
        let usedIVs := usedIVs ++ [Entry.iv mine] in
        let plaintext := decryptAES (Entry.message mine) (Secret.message key) (Entry.iv mine) in
        if (WA.sigBytes plaintext <? 64)%nat
        then (Throw InvalidPlaintextSize, usedIVs)
        else
          match decrypt_messageTag sortedRecipients (clone plaintext) with
          | None => (Throw TypeError, usedIVs)
          | Some messageTag =>
          if negb (String.eqb (createMessageTag messageTag) (Envelope.tag message))
          then (Throw TagFailure, usedIVs)
          else
            let plaintext := WA.create (WA.words plaintext) (Some (WA.sigBytes plaintext - 64)%nat) in
            match Utf8_stringify plaintext with
            | None => (Return (RetString ""), usedIVs)
            | Some plaintext => (Return (RetObject plaintext missingRecipients), usedIVs)
            end
          end
      end
      | _ => (Throw TypeError, usedIVs)
      end
  end.

End Multiparty.

(** ** Views used by the statements

    What the two loops of [encrypt] leave in [encrypted.text], and the byte
    strings that go into the MACs and into the tag. *)

Section Views.
Context `{P : Primitives}.

(** The entry of a recipient after the first loop, under IV [iv]. *)
Definition draftEntry (plaintext : WA.WordArray) (r : string * Secret.t) (iv : string)
  : string * Entry.t :=
  (fst r, Entry.mk (encryptAES plaintext (Secret.message (snd r)) iv) iv None).

(** The same entry after the second loop. *)
Definition sealedEntry (plaintext hmacInput : WA.WordArray) (r : string * Secret.t)
    (iv : string) : string * Entry.t :=
  (fst r, Entry.mk (encryptAES plaintext (Secret.message (snd r)) iv) iv
            (Some (HMAC hmacInput (Secret.hmac (snd r))))).

(** [encrypted.text[name] = entry], for an entry given with its name. *)
Definition setEntry (text : JSObject.t) (e : string * Entry.t) : JSObject.t :=
  JSObject.set text (fst e) (snd e).

(** What it does to the own properties when the name is not [__proto__]. *)
Definition putEntry (text : gmap string Entry.t) (e : string * Entry.t) : gmap string Entry.t :=
  <[fst e := snd e]> text.

(** The bytes an entry contributes to the MAC input: ciphertext, then IV. *)
Definition entryBytes (e : string * Entry.t) : list byte :=
  base64_decode (Entry.message (snd e)) ++ base64_decode (Entry.iv (snd e)).

(** The bytes an entry contributes to the tag input: its MAC. *)
Definition macBytes (e : string * Entry.t) : list byte :=
  match Entry.hmac (snd e) with
  | Some h => base64_decode h
  | None => []
  end.

(** The bytes that [decrypt] feeds to the MAC (source lines 118-122) and, after
    the plaintext, to the tag (lines 146-149), out of the entries it is given. *)
Definition decrypt_entryBytes (encrypted : gmap string Entry.t) : list byte :=
  flat_map entryBytes (decrypt_sortedRecipients encrypted).

Definition decrypt_macBytes (encrypted : gmap string Entry.t) : list byte :=
  flat_map macBytes (decrypt_sortedRecipients encrypted).

(** One character of a string replaced by a different one. *)
Definition charReplaced (s s' : string) : Prop :=
  exists before c c' after,
    c' <> c /\ s = (before ++ String c after)%string /\ s' = (before ++ String c' after)%string.

(** The field of an entry that a modification touches. *)
Inductive Field := Ciphertext | IV | MAC.

(** [e'] is [e] with the given field, a Base64 string, replaced by a different
    string, the two other fields untouched. *)
Definition modified (f : Field) (e e' : Entry.t) : Prop :=
  match f with
  | Ciphertext =>
      Entry.message e' <> Entry.message e
      /\ Entry.iv e' = Entry.iv e /\ Entry.hmac e' = Entry.hmac e
  | IV =>
      Entry.iv e' <> Entry.iv e
      /\ Entry.message e' = Entry.message e /\ Entry.hmac e' = Entry.hmac e
  | MAC =>
      (exists h h', Entry.hmac e = Some h /\ Entry.hmac e' = Some h' /\ h' <> h)
      /\ Entry.message e' = Entry.message e /\ Entry.iv e' = Entry.iv e
  end.

(** [f] tells the inputs [a] and [a'] apart: they are no collision of [f]. *)
Definition collisionFree {A B} (f : A -> B) (a a' : A) : Prop :=
  a' <> a -> f a' <> f a.

(** An envelope as [encrypt] leaves it when no recipient is named
    [__proto__]: for the padded plaintext [body], the sorted recipients [rs]
    and their IVs [ivs], every recipient has its sealed entry as an own
    property of [text], whose prototype is still the one of an object literal,
    every MAC covers the ciphertexts and IVs of all entries in order, and the
    tag covers [body] and all the MACs in order. *)
Definition sealed (body : list byte) (rs : list (string * Secret.t)) (ivs : list string)
    (env : Envelope.t) : Prop :=
  exists plaintext hmacInput tagInput,
    let es := zip_with (sealedEntry plaintext hmacInput) rs ivs in
    WA.bytes plaintext = body /\
    length ivs = length rs /\
    Envelope.text env = list_to_map es /\
    Envelope.proto env = None /\
    WA.bytes hmacInput = flat_map entryBytes es /\
    Envelope.tag env = createMessageTag tagInput /\
    WA.bytes tagInput = body ++ flat_map macBytes es.

End Views.

(** The order of code units, as a relation on keys. *)
Definition cuLe (a b : string) : Prop := ~ String_as_OT.lt b a.

(** ** Executable instances of the primitives

    Small stand-ins with the shape of the real primitives, to run the protocol
    on concrete inputs: a byte-wise additive stream cipher, a digest that pads
    or cuts to 64 bytes, the Base64 transport encoding, an ASCII text codec
    and a collation that ranks letters before their case. *)

Module Ref.

Definition addByte (k b : byte) : byte := JS.ToUint8 (JS.ofByte b + JS.ofByte k).
Definition subByte (k b : byte) : byte := JS.ToUint8 (JS.ofByte b - JS.ofByte k).

(** One key-stream byte out of the key and the counter block. *)
Definition mix (bs : list byte) : byte := fold_right addByte x01 bs.

Definition stream_encrypt (data key counter : list byte) : list byte :=
  map (addByte (mix (key ++ counter))) data.
Definition stream_decrypt (data key counter : list byte) : list byte :=
  map (subByte (mix (key ++ counter))) data.

Definition digest64 (m : list byte) : list byte :=
  take 64 (map (addByte (mix m)) (m ++ repeat x00 64)).

Definition mac64 (m key : list byte) : list byte := digest64 (key ++ m).

Definition pointwise (n p : list byte) : list byte :=
  map (fun np => addByte (fst np) (snd np)) (combine n p).

Definition basePoint : list byte := repeat x09 32.

Definition ascii_only (bs : list byte) : bool :=
  forallb (fun b => (Byte.to_N b <? 128)%N) bs.

Definition decode_ascii (bs : list byte) : option string :=
  if ascii_only bs then Some (string_of_list_byte bs) else None.

Definition lowerAscii (c : ascii) : ascii :=
  let n := nat_of_ascii c in
  if ((65 <=? n) && (n <=? 90))%nat then ascii_of_nat (n + 32) else c.

Fixpoint lower (s : string) : string :=
  match s with
  | EmptyString => EmptyString
  | String c s' => String (lowerAscii c) (lower s')
  end.

(** Letters first, case second (lower case before upper case). *)
Definition collate (a b : string) : Z :=
  match String_as_OT.compare (lower a) (lower b) with
  | Lt => -1
  | Gt => 1
  | Eq => codeUnitCompare b a
  end.

(** Base64 with the standard alphabet and padding. *)
Module Base64.

Definition alphabet : list ascii :=
  list_ascii_of_string "ABCDEFGHIJKLMNOPQRSTUVWXYZabcdefghijklmnopqrstuvwxyz0123456789+/".

Definition paddingChar : ascii := "="%char.

(** The character of a 6-bit value. *)
Definition charOf (n : Z) : ascii := nth (Z.to_nat n) alphabet "A"%char.

Fixpoint indexIn (c : ascii) (l : list ascii) : Z :=
  match l with
  | [] => 0
  | x :: l' => if Ascii.eqb c x then 0 else 1 + indexIn c l'
  end.

(** The 6-bit value of a character (0 when it is not in the alphabet). *)
Definition sextetOf (c : ascii) : Z :=
  let i := indexIn c alphabet in if i <? 64 then i else 0.

(** Three bytes make four 6-bit values; one or two remaining bytes make two
    or three. *)
Fixpoint sextets (bs : list byte) : list Z :=
  match bs with
  | [] => []
  | [a] =>
      let a := JS.ofByte a in [a / 4; (a mod 4) * 16]
  | [a; b] =>
      let a := JS.ofByte a in let b := JS.ofByte b in
      [a / 4; (a mod 4) * 16 + b / 16; (b mod 16) * 4]
  | a :: b :: c :: rest =>
      let a := JS.ofByte a in let b := JS.ofByte b in let c := JS.ofByte c in
      a / 4 :: (a mod 4) * 16 + b / 16 :: (b mod 16) * 4 + c / 64 :: c mod 64
        :: sextets rest
  end.

Definition padding (bs : list byte) : list ascii :=
  repeat paddingChar ((3 - length bs mod 3) mod 3).

Definition encode (bs : list byte) : string :=
  string_of_list_ascii (map charOf (sextets bs) ++ padding bs).

Fixpoint unsextets (ss : list Z) : list byte :=
  match ss with
  | s0 :: s1 :: s2 :: s3 :: rest =>
      JS.ToUint8 (s0 * 4 + s1 / 16) :: JS.ToUint8 ((s1 mod 16) * 16 + s2 / 4)
        :: JS.ToUint8 ((s2 mod 4) * 64 + s3) :: unsextets rest
  | [s0; s1; s2] => [JS.ToUint8 (s0 * 4 + s1 / 16); JS.ToUint8 ((s1 mod 16) * 16 + s2 / 4)]
  | [s0; s1] => [JS.ToUint8 (s0 * 4 + s1 / 16)]
  | _ => []
  end.

(** The characters before the first padding character. *)
Fixpoint beforePadding (cs : list ascii) : list ascii :=
  match cs with
  | [] => []
  | c :: cs' => if Ascii.eqb c paddingChar then [] else c :: beforePadding cs'
  end.

Definition decode (s : string) : list byte :=
  unsextets (map sextetOf (beforePadding (list_ascii_of_string s))).

(** Every 6-bit value is read back from its character, which is not the
    padding character. *)
Definition sextet_ok (n : Z) : bool :=
  (sextetOf (charOf n) =? n) && negb (Ascii.eqb (charOf n) paddingChar).

End Base64.

Definition prims : Primitives := {|
  scalarMult := pointwise;
  scalarMult_base n := pointwise n basePoint;
  sha512 := digest64;
  hmac_sha512 := mac64;
  aes_ctr_encrypt := stream_encrypt;
  aes_ctr_decrypt := stream_decrypt;
  base64_encode := Base64.encode;
  base64_decode := Base64.decode;
  utf8_encode := list_byte_of_string;
  utf8_decode := decode_ascii;
  localeCompare := collate
|}.

(** Two buddies, their keys and secrets. *)
Definition alicePriv : list byte := repeat x11 32.
Definition bobPriv : list byte := repeat x22 32.
Definition myPriv : list byte := repeat x33 32.

Definition buddy (name : string) (priv : list byte) : Buddy :=
  {| nickname := name;
     mpSecretKey := Some (sharedSecret (P := prims) myPriv
                            (PublicKey.raw (publicKeyFromPrivate (P := prims) priv))) |}.

Definition alice : Buddy := buddy "alice" alicePriv.
Definition bob : Buddy := buddy "bob" bobPriv.

(** The sender as a receiver knows it: under its nickname [me], with the
    secret the receiver derives from its own private key. *)
Definition meFor (priv : list byte) : Buddy :=
  {| nickname := "me";
     mpSecretKey := Some (sharedSecret (P := prims) priv
                            (PublicKey.raw (publicKeyFromPrivate (P := prims) myPriv))) |}.

(** A random tape: 64 bytes of padding, then 12-byte IVs. *)
Definition tape : list (list byte) :=
  [repeat x07 64; repeat x41 12; repeat x42 12; repeat x43 12].

Definition st0 : State := {| usedIVs := []; entropy := tape |}.

(** The envelope [encrypt] makes of a run, and the state it leaves. *)
Definition noEnvelope : Envelope.t := Envelope.mk "" ∅ "".

Definition envelopeOf (run : option (Envelope.t * State)) : Envelope.t :=
  match run with
  | Some (env, _) => env
  | None => noEnvelope
  end.

Definition stateOf (run : option (Envelope.t * State)) : State :=
  match run with
  | Some (_, st) => st
  | None => st0
  end.

(** The message [hi] for bob and alice. *)
Definition sent : option (Envelope.t * State) := encrypt (P := prims) "hi" [bob; alice] st0.
Definition envelope : Envelope.t := envelopeOf sent.
Definition sentState : State := stateOf sent.

(** Entries of an envelope, and envelopes with one entry or the tag replaced. *)
Definition noEntry : Entry.t := Entry.mk "" "" None.

Definition entryOf (name : string) (env : Envelope.t) : Entry.t :=
  match Envelope.text env !! name with
  | Some e => e
  | None => noEntry
  end.

Definition withEntry (name : string) (e : Entry.t) (env : Envelope.t) : Envelope.t :=
  Envelope.make (Envelope.type env) (<[name := e]> (Envelope.text env)) (Envelope.proto env)
    (Envelope.tag env).

Definition withTag (tag : string) (env : Envelope.t) : Envelope.t :=
  Envelope.make (Envelope.type env) (Envelope.text env) (Envelope.proto env) tag.

(** The first character of an encoded field replaced by another one of the
    alphabet: the first byte of the field changes. *)
Definition flipFirst (s : string) : string :=
  match s with
  | String c rest => String (if Ascii.eqb c "A" then "B" else "A")%char rest
  | EmptyString => EmptyString
  end.

Definition flipMac (e : Entry.t) : Entry.t :=
  Entry.mk (Entry.message e) (Entry.iv e) (option_map flipFirst (Entry.hmac e)).

(** The last character before the padding replaced by the next one of the
    alphabet.  In an encoded field of 64 bytes that character carries two
    bits of the last byte and four bits that no byte takes: the field decodes
    to the same bytes. *)
Fixpoint bumpLast (s : string) : string :=
  match s with
  | String c rest =>
      match rest with
      | EmptyString => String (Base64.charOf (Base64.sextetOf c + 1)) rest
      | String c' _ =>
          if Ascii.eqb c' Base64.paddingChar
          then String (Base64.charOf (Base64.sextetOf c + 1)) rest
          else String c (bumpLast rest)
      end
  | EmptyString => EmptyString
  end.

Definition reencodeMac (e : Entry.t) : Entry.t :=
  Entry.mk (Entry.message e) (Entry.iv e) (option_map bumpLast (Entry.hmac e)).

Definition flipMessage (e : Entry.t) : Entry.t :=
  Entry.mk (flipFirst (Entry.message e)) (Entry.iv e) (Entry.hmac e).

(** The envelope with one character of alice's MAC modified: the first one,
    which changes the first byte of the MAC, or the last one, which changes
    none. *)
Definition macTampered : Envelope.t :=
  withEntry "alice" (flipMac (entryOf "alice" envelope)) envelope.
Definition macReencoded : Envelope.t :=
  withEntry "alice" (reencodeMac (entryOf "alice" envelope)) envelope.

(** The envelope with the first character of alice's ciphertext modified. *)
Definition ciphertextTampered : Envelope.t :=
  withEntry "alice" (flipMessage (entryOf "alice" envelope)) envelope.

(** A short ciphertext for bob: once under a MAC that does not match, once
    under the MAC a sender holding bob's secret computes. *)
Definition shortDraft : Entry.t := Entry.mk "short" "QUFBQUFBQUFBQUFB" (Some "bogus").

Definition shortForged : Envelope.t :=
  Envelope.mk "message" {[ "bob" := shortDraft ]} "tag".

Definition bobSecret : Secret.t :=
  sharedSecret (P := prims) myPriv (PublicKey.raw (publicKeyFromPrivate (P := prims) bobPriv)).

Definition shortMac : string :=
  HMAC (P := prims) (decrypt_hmacInput (P := prims) [("bob", shortDraft)])
       (Secret.hmac bobSecret).

Definition shortSealed : Envelope.t :=
  Envelope.mk "message" {[ "bob" := Entry.mk "short" "QUFBQUFBQUFBQUFB" (Some shortMac) ]} "tag".

(** A message whose body is the single byte [0xff], which no text encoding
    produces. *)
Definition unprintable : Envelope.t :=
  envelopeOf (encrypt (P := prims) (String (ascii_of_nat 255) EmptyString) [bob] st0).

(** What [decrypt] meets on bob's entry of an envelope. *)
Definition hmacOf (e : Entry.t) : string :=
  match Entry.hmac e with
  | Some h => h
  | None => EmptyString
  end.

Definition messageTagOf (env : Envelope.t) : WA.WordArray :=
  let mine := entryOf "bob" env in
  match decrypt_messageTag (P := prims)
          (decrypt_sortedRecipients (Envelope.text env))
          (decryptAES (P := prims) (Entry.message mine) (Secret.message bobSecret)
                      (Entry.iv mine)) with
  | Some t => t
  | None => WA.create [] None
  end.

(** A recipient whose nickname is the name of the accessor of the prototype. *)
Definition protoBuddy : Buddy := buddy "__proto__" alicePriv.

(** A collation-sensitive pair of recipients. *)
Definition lowerA : Buddy := buddy "a" alicePriv.
Definition upperB : Buddy := buddy "B" bobPriv.
Definition mixedCase : Envelope.t :=
  envelopeOf (encrypt (P := prims) "hi" [lowerA; upperB] st0).

End Ref.

(** ** Key generation and fingerprints (source lines 6-21) *)

(** [new Uint8Array(n)]: [n] zero bytes. *)
Definition Uint8Array_new (n : nat) : list byte := repeat x00 n.

(** [window.crypto.getRandomValues(array)]: the array filled from the random
    source and returned.  The source is the tape of [CryptoJS.random]; the
    output it yields has the length of the array. *)
Definition getRandomValues (array : list byte) (tape : list (list byte))
  : option (list byte * list (list byte)) :=
  match tape with
  | d :: tape' => if (length d =? length array)%nat then Some (d, tape') else None
  | [] => None
  end.

Definition newPrivateKey (tape : list (list byte)) : option (list byte * list (list byte)) :=
  let privateKey := Uint8Array_new 32 in
  getRandomValues privateKey tape.

(** Modelled from the spec: [CryptoJS.enc.Hex.stringify], the encoder of
    [wordArray.toString()] without an argument, which the source calls and
    does not contain: two lower-case hexadecimal digits per significant byte,
    [(bite >>> 4).toString(16)] then [(bite & 0x0f).toString(16)]. *)
Module Hex.

Definition digits : list ascii := list_ascii_of_string "0123456789abcdef".

(** [n.toString(16)] for [n] below 16. *)
Definition digit (n : Z) : ascii := nth (Z.to_nat n) digits "0"%char.

Definition stringify_byte (bite : byte) : list ascii :=
  [digit (Z.shiftr (JS.ofByte bite) 4); digit (Z.land (JS.ofByte bite) 15)].

Definition stringify (w : WA.WordArray) : string :=
  string_of_list_ascii (flat_map stringify_byte (WA.bytes w)).

End Hex.

(** The two string methods [fingerprint] calls. *)
Module JSString.

(** [s.substring(indexStart, indexEnd)]: the two indices are swapped when
    they come in the wrong order, and both are cut at the length of [s]. *)
Definition substring (indexStart indexEnd : nat) (s : string) : string :=
  let from := Nat.min indexStart indexEnd in
  let to := Nat.max indexStart indexEnd in
  String.substring from (to - from) s.

(** [s.toUpperCase()] on a string of ASCII characters: the letters [a] to [z]
    become [A] to [Z], every other character stays. *)
Definition upperChar (c : ascii) : ascii :=
  let n := nat_of_ascii c in
  if ((97 <=? n) && (n <=? 122))%nat then ascii_of_nat (n - 32) else c.

Fixpoint toUpperCase (s : string) : string :=
  match s with
  | EmptyString => EmptyString
  | String c s' => String (upperChar c) (toUpperCase s')
  end.

End JSString.

Section Fingerprint.
Context `{P : Primitives}.

Definition fingerprint (publicKey : list byte) : string :=
  JSString.toUpperCase
    (JSString.substring 0 40 (Hex.stringify (CryptoJS.SHA512 (WA.toWordArray publicKey)))).

End Fingerprint.

(** The characters of a fingerprint. *)
Definition upperHexDigits : list ascii := list_ascii_of_string "0123456789ABCDEF".

(** Integers that fit a signed 32-bit word. *)
Definition int32 (z : Z) : Prop := - 2 ^ 31 <= z < 2 ^ 31.

(** The zero bytes that fill [n] bytes up to whole words. *)
Definition wordPadding (n : nat) : list byte := repeat x00 ((4 - n mod 4) mod 4).

(** The upper-case hexadecimal form of a byte string. *)
Definition upperHex (bs : list byte) : list ascii :=
  flat_map (fun b => map JSString.upperChar (Hex.stringify_byte b)) bs.

(** ** The envelope in closed form

    The envelope for the padded plaintext [body], the recipients [rs] in the
    order the loops of [encrypt] run over them, none of them named
    [__proto__], and their IVs, as byte strings under the transport
    encoding. *)

Section WireFormat.
Context `{P : Primitives}.

(** The counter block of a 12-byte IV. *)
Definition counterBlock (iv : string) : list byte :=
  base64_decode iv ++ [x00; x00; x00; x00].

Definition ciphertextFor (body : list byte) (r : string * Secret.t) (iv : string) : list byte :=
  aes_ctr_encrypt body (WA.bytes (Secret.message (snd r))) (counterBlock iv).

(** Every ciphertext followed by its IV, recipient after recipient. *)
Definition macInputFor (body : list byte) (rs : list (string * Secret.t)) (ivs : list string)
  : list byte :=
  flat_map (fun ri => ciphertextFor body (fst ri) (snd ri) ++ base64_decode (snd ri))
           (zip rs ivs).

Definition macFor (body : list byte) (rs : list (string * Secret.t)) (ivs : list string)
    (r : string * Secret.t) : list byte :=
  hmac_sha512 (macInputFor body rs ivs) (WA.bytes (Secret.hmac (snd r))).

(** Eight rounds of the hash over the padded plaintext and every MAC. *)
Definition tagFor (body : list byte) (rs : list (string * Secret.t)) (ivs : list string)
  : list byte :=
  Nat.iter 8 sha512 (body ++ flat_map (macFor body rs ivs) rs).

Definition entryFor (body : list byte) (rs : list (string * Secret.t)) (ivs : list string)
    (r : string * Secret.t) (iv : string) : string * Entry.t :=
  (fst r, Entry.mk (base64_encode (ciphertextFor body r iv)) iv
            (Some (base64_encode (macFor body rs ivs r)))).

Definition envelopeFor (body : list byte) (rs : list (string * Secret.t)) (ivs : list string)
  : Envelope.t :=
  Envelope.mk "message" (list_to_map (zip_with (entryFor body rs ivs) rs ivs))
              (base64_encode (tagFor body rs ivs)).

End WireFormat.

(* ================================================================== *)
(** * Properties *)
(* ================================================================== *)

(** ** 32-bit arithmetic *)

Module JSFacts.
Import JS.

Lemma ToInt32_range z : - 2 ^ 31 <= ToInt32 z < 2 ^ 31.
Proof.
  unfold ToInt32. pose proof (Z.mod_pos_bound z (2 ^ 32) ltac:(lia)).
  destruct (Z.leb_spec (2 ^ 31) (z mod 2 ^ 32)); lia.
Qed.

Lemma ToInt32_small z : - 2 ^ 31 <= z < 2 ^ 31 -> ToInt32 z = z.
Proof.
  intros Hz. unfold ToInt32.
  destruct (Z.leb_spec (2 ^ 31) (z mod 2 ^ 32)); Z.div_mod_to_equations; lia.
Qed.

Lemma ToInt32_idem z : ToInt32 (ToInt32 z) = ToInt32 z.
Proof. apply ToInt32_small, ToInt32_range. Qed.

(** An unsigned 32-bit value and its signed reading differ by 0 or 2^32. *)
Lemma ToInt32_unsigned u :
  0 <= u < 2 ^ 32 ->
  ToInt32 u = if 2 ^ 31 <=? u then u - 2 ^ 32 else u.
Proof. intros Hu. unfold ToInt32. rewrite Z.mod_small by lia. reflexivity. Qed.

Lemma ofByte_range b : 0 <= ofByte b < 256.
Proof. unfold ofByte. pose proof (Byte.to_N_bounded b). lia. Qed.

Lemma ToUint8_ofByte b : ToUint8 (ofByte b) = b.
Proof.
  unfold ToUint8. rewrite Z.mod_small by apply ofByte_range.
  unfold ofByte. rewrite N2Z.id, Byte.of_to_N. reflexivity.
Qed.

Lemma ToUint8_mod z : ToUint8 (z mod 256) = ToUint8 z.
Proof. unfold ToUint8. rewrite Z.mod_mod by lia. reflexivity. Qed.

Lemma land_255 z : Z.land z 255 = z mod 256.
Proof. change 255 with (Z.ones 8). rewrite Z.land_ones by lia. reflexivity. Qed.

(** Or-ing a value below 2^k into a multiple of 2^k adds it. *)
Lemma lor_disjoint x y k :
  0 <= k -> 0 <= y < 2 ^ k -> x mod 2 ^ k = 0 -> Z.lor x y = x + y.
Proof.
  intros Hk Hy Hx.
  assert (Hland : Z.land x y = 0).
  { apply Z.bits_inj'. intros n Hn. rewrite Z.land_spec, Z.bits_0.
    destruct (Z.lt_ge_cases n k) as [Hlt | Hge].
    - assert (Z.testbit x n = false) as ->; [| reflexivity].
      rewrite <- (Z.mod_pow2_bits_low x k n) by lia. rewrite Hx. apply Z.bits_0.
    - assert (Z.testbit y n = false) as ->; [| apply andb_false_r].
      rewrite <- (Z.mod_small y (2 ^ k)) by lia.
      apply Z.mod_pow2_bits_high. lia. }
  rewrite <- Z.lxor_lor by exact Hland.
  symmetry. apply Z.add_nocarry_lxor. exact Hland.
Qed.

End JSFacts.

(** ** Word arrays: the conversions against their byte view *)

Module WAFacts.
Import JS JSFacts WA.

Lemma ToInt32_mod z : ToInt32 z mod 2 ^ 32 = z mod 2 ^ 32.
Proof.
  unfold ToInt32.
  destruct (Z.leb_spec (2 ^ 31) (z mod 2 ^ 32)); Z.div_mod_to_equations; lia.
Qed.

Lemma ToInt32_testbit_low z m : 0 <= m < 32 -> Z.testbit (ToInt32 z) m = Z.testbit z m.
Proof.
  intros Hm.
  rewrite <- (Z.mod_pow2_bits_low (ToInt32 z) 32 m), ToInt32_mod by lia.
  apply Z.mod_pow2_bits_low. lia.
Qed.

(** The byte that [byteAt] reads at bit offset [s] of a word. *)
Lemma byte_extract z s :
  0 <= s <= 24 -> Z.land (Z.shiftr (ToInt32 z) s) 255 = (z / 2 ^ s) mod 2 ^ 8.
Proof.
  intros Hs. apply Z.bits_inj'. intros n Hn.
  rewrite Z.land_spec, Z.shiftr_spec by lia.
  change 255 with (Z.ones 8).
  destruct (Z.lt_ge_cases n 8) as [Hlt | Hge].
  - rewrite Z.ones_spec_low, andb_true_r by lia.
    rewrite Z.mod_pow2_bits_low, Z.div_pow2_bits by lia.
    apply ToInt32_testbit_low. lia.
  - rewrite Z.ones_spec_high, andb_false_r by lia.
    rewrite Z.mod_pow2_bits_high by lia. reflexivity.
Qed.

Lemma shift_count (i : nat) :
  (24 - 8 * Z.of_nat i) mod 32 = 24 - Z.of_nat (i mod 4) * 8.
Proof.
  pose proof (Nat.div_mod_eq i 4) as Hi.
  pose proof (Nat.mod_upper_bound i 4 ltac:(lia)) as Hlt.
  assert (Z.of_nat i = 4 * Z.of_nat (i / 4) + Z.of_nat (i mod 4)) as -> by lia.
  replace (24 - 8 * (4 * Z.of_nat (i / 4) + Z.of_nat (i mod 4)))
    with ((24 - Z.of_nat (i mod 4) * 8) + (- Z.of_nat (i / 4)) * 32) by lia.
  rewrite Z.mod_add by lia. apply Z.mod_small. lia.
Qed.

(** One iteration of the loop of [toWordArray] on the word under construction:
    [h] holds the bytes already placed, all of them above bit [s + 8]. *)
Lemma bitor_shl h b n s :
  s = 0 \/ s = 8 \/ s = 16 \/ s = 24 ->
  n mod 32 = s ->
  0 <= h < 2 ^ 32 -> h mod 2 ^ (s + 8) = 0 -> 0 <= b < 256 ->
  bitor (ToInt32 h) (shl b n) = ToInt32 (h + b * 2 ^ s).
Proof.
  intros Hs Hn Hh Hdiv Hb. unfold bitor, shl. rewrite Hn, !ToInt32_idem.
  rewrite (ToInt32_small b) by lia. rewrite Z.shiftl_mul_pow2 by lia.
  assert (Hcase : s = 24 \/ (s = 0 \/ s = 8 \/ s = 16)) by lia.
  destruct Hcase as [-> | Hcase].
  { assert (h = 0) as -> by (simpl in Hdiv; Z.div_mod_to_equations; lia).
    reflexivity. }
  assert (Hy : 0 <= b * 2 ^ s < 2 ^ (s + 8) /\ 2 ^ (s + 8) <= 2 ^ 24)
    by (destruct Hcase as [-> | [-> | ->]]; simpl; lia).
  rewrite (ToInt32_small (b * 2 ^ s)) by lia.
  rewrite (lor_disjoint (ToInt32 h) (b * 2 ^ s) (s + 8)); [ | lia | lia | ].
  - destruct Hcase as [-> | [-> | ->]];
      change (2 ^ (0 + 8)) with 256 in *; change (2 ^ (8 + 8)) with 65536 in *;
      change (2 ^ (16 + 8)) with 16777216 in *;
      rewrite !ToInt32_unsigned by (Z.div_mod_to_equations; lia);
      repeat match goal with
             | |- context [?a <=? ?c] => destruct (Z.leb_spec a c)
             end;
      Z.div_mod_to_equations; lia.
  - rewrite ToInt32_unsigned by lia.
    destruct Hcase as [-> | [-> | ->]];
      change (2 ^ (0 + 8)) with 256 in *; change (2 ^ (8 + 8)) with 65536 in *;
      change (2 ^ (16 + 8)) with 16777216 in *;
      repeat match goal with
             | |- context [?a <=? ?c] => destruct (Z.leb_spec a c)
             end;
      Z.div_mod_to_equations; lia.
Qed.


Lemma bitor_shl_word w h b n s :
  w = ToInt32 h ->
  s = 0 \/ s = 8 \/ s = 16 \/ s = 24 ->
  n mod 32 = s ->
  0 <= h < 2 ^ 32 -> h mod 2 ^ (s + 8) = 0 -> 0 <= b < 256 ->
  bitor w (shl b n) = ToInt32 (h + b * 2 ^ s).
Proof. intros ->. apply bitor_shl. Qed.

(** Induction over a byte list four bytes at a time. *)
Lemma list_ind4 {A} (P : list A -> Prop) :
  P [] -> (forall a, P [a]) -> (forall a b, P [a; b]) -> (forall a b c, P [a; b; c]) ->
  (forall a b c d l, P l -> P (a :: b :: c :: d :: l)) ->
  forall l, P l.
Proof.
  intros H0 H1 H2 H3 H4.
  fix IH 1. intros [| a [| b [| c [| d l]]]];
    [exact H0 | apply H1 | apply H2 | apply H3 | apply H4, IH].
Qed.

Lemma aset_cons w l k v : aset (w :: l) (S k) v = w :: aset l k v.
Proof.
  unfold aset. cbn [length].
  change (S k <? S (length l))%nat with (k <? length l)%nat.
  destruct (k <? length l)%nat; reflexivity.
Qed.

Lemma div4_add4 n : div4 (4 + n) = S (div4 n).
Proof.
  unfold div4. replace (4 + n)%nat with (n + 1 * 4)%nat by lia.
  rewrite Nat.div_add by lia. lia.
Qed.

Lemma shl_count_add4 b (n : nat) :
  shl b (24 - 8 * Z.of_nat (4 + n)) = shl b (24 - 8 * Z.of_nat n).
Proof.
  unfold shl. f_equal. f_equal.
  replace (24 - 8 * Z.of_nat (4 + n)) with (24 - 8 * Z.of_nat n + (-1) * 32) by lia.
  apply Z.mod_add. lia.
Qed.

(** The loop of [toWordArray], one byte further. *)
Lemma pack_snoc p b :
  pack (p ++ [b]) =
  aset (pack p) (div4 (length p))
    (bitor (aget (pack p) (div4 (length p)))
           (shl (ofByte b) (24 - 8 * Z.of_nat (length p)))).
Proof.
  induction p as [| a0 | a0 a1 | a0 a1 a2 | a0 a1 a2 a3 p IH] using list_ind4.
  - change ([word4 b x00 x00 x00] = [bitor 0 (shl (ofByte b) (24 - 8 * 0))]).
    f_equal. unfold word4. change (ofByte x00) with 0.
    rewrite (bitor_shl_word 0 0 (ofByte b) _ 24) by
      (first [reflexivity | lia | apply ofByte_range]).
    f_equal. lia.
  - change ([word4 a0 b x00 x00]
            = [bitor (word4 a0 x00 x00 x00) (shl (ofByte b) (24 - 8 * 1))]).
    f_equal. unfold word4. change (ofByte x00) with 0.
    pose proof (ofByte_range a0).
    rewrite (bitor_shl_word _ (ofByte a0 * 2 ^ 24 + 0 * 2 ^ 16 + 0 * 2 ^ 8 + 0)
               (ofByte b) _ 16) by
      (first [reflexivity | apply ofByte_range | lia
             | change (2 ^ (16 + 8)) with 16777216; Z.div_mod_to_equations; lia]).
    f_equal. lia.
  - change ([word4 a0 a1 b x00]
            = [bitor (word4 a0 a1 x00 x00) (shl (ofByte b) (24 - 8 * 2))]).
    f_equal. unfold word4. change (ofByte x00) with 0.
    pose proof (ofByte_range a0). pose proof (ofByte_range a1).
    rewrite (bitor_shl_word _ (ofByte a0 * 2 ^ 24 + ofByte a1 * 2 ^ 16 + 0 * 2 ^ 8 + 0)
               (ofByte b) _ 8) by
      (first [reflexivity | apply ofByte_range | lia
             | change (2 ^ (8 + 8)) with 65536; Z.div_mod_to_equations; lia]).
    f_equal. lia.
  - change ([word4 a0 a1 a2 b]
            = [bitor (word4 a0 a1 a2 x00) (shl (ofByte b) (24 - 8 * 3))]).
    f_equal. unfold word4. change (ofByte x00) with 0.
    pose proof (ofByte_range a0). pose proof (ofByte_range a1).
    pose proof (ofByte_range a2).
    rewrite (bitor_shl_word _ (ofByte a0 * 2 ^ 24 + ofByte a1 * 2 ^ 16
                               + ofByte a2 * 2 ^ 8 + 0)
               (ofByte b) _ 0) by
      (first [reflexivity | apply ofByte_range | lia
             | change (2 ^ (0 + 8)) with 256; Z.div_mod_to_equations; lia]).
    f_equal. lia.
  - change ((a0 :: a1 :: a2 :: a3 :: p) ++ [b]) with (a0 :: a1 :: a2 :: a3 :: (p ++ [b])).
    change (pack (a0 :: a1 :: a2 :: a3 :: p ++ [b]))
      with (word4 a0 a1 a2 a3 :: pack (p ++ [b])).
    change (pack (a0 :: a1 :: a2 :: a3 :: p)) with (word4 a0 a1 a2 a3 :: pack p).
    change (length (a0 :: a1 :: a2 :: a3 :: p)) with (4 + length p)%nat.
    rewrite div4_add4, aset_cons, shl_count_add4, IH. reflexivity.
Qed.

Lemma toWordArray_loop_pack rest p :
  toWordArray_loop rest (length p) (pack p) = pack (p ++ rest).
Proof.
  revert p. induction rest as [| b rest IH]; intros p.
  - rewrite app_nil_r. reflexivity.
  - cbn [toWordArray_loop]. rewrite <- pack_snoc.
    replace (S (length p)) with (length (p ++ [b])) by (rewrite length_app; simpl; lia).
    rewrite IH, <- app_assoc. reflexivity.
Qed.

(** [toWordArray] computes the closed form [pack]. *)
Lemma toWordArray_pack bs : toWordArray bs = mk (pack bs) (length bs).
Proof. unfold toWordArray, create. f_equal. apply (toWordArray_loop_pack bs []). Qed.


Lemma length_pack bs : (length (pack bs) * 4 = length bs + (4 - length bs mod 4) mod 4)%nat.
Proof.
  induction bs as [| a0 | a0 a1 | a0 a1 a2 | a0 a1 a2 a3 p IH] using list_ind4;
    try reflexivity.
  change (pack (a0 :: a1 :: a2 :: a3 :: p)) with (word4 a0 a1 a2 a3 :: pack p).
  cbn [length]. replace (S (S (S (S (length p))))) with (length p + 1 * 4)%nat by lia.
  rewrite Nat.Div0.mod_add. lia.
Qed.

(** ** Reading bytes back *)

Lemma byteAt_nil i : byteAt [] i = x00.
Proof.
  unfold byteAt, aget. replace (nth (i / 4) [] 0) with 0 by (destruct (i / 4)%nat; reflexivity).
  change (ToInt32 0) with 0. rewrite Z.shiftr_0_l. reflexivity.
Qed.

Lemma byteAt_cons w ws i : byteAt (w :: ws) (4 + i) = byteAt ws i.
Proof.
  unfold byteAt. replace (4 + i)%nat with (i + 1 * 4)%nat by lia.
  rewrite Nat.div_add, Nat.Div0.mod_add by lia.
  replace (i / 4 + 1)%nat with (S (i / 4)) by lia. reflexivity.
Qed.

Lemma byteAt_word4 b0 b1 b2 b3 ws :
  byteAt (word4 b0 b1 b2 b3 :: ws) 0 = b0 /\
  byteAt (word4 b0 b1 b2 b3 :: ws) 1 = b1 /\
  byteAt (word4 b0 b1 b2 b3 :: ws) 2 = b2 /\
  byteAt (word4 b0 b1 b2 b3 :: ws) 3 = b3.
Proof.
  pose proof (ofByte_range b0). pose proof (ofByte_range b1).
  pose proof (ofByte_range b2). pose proof (ofByte_range b3).
  unfold byteAt, word4.
  change (aget (?w :: ws) (0 / 4)) with w. change (aget (?w :: ws) (1 / 4)) with w.
  change (aget (?w :: ws) (2 / 4)) with w. change (aget (?w :: ws) (3 / 4)) with w.
  rewrite !ToInt32_idem.
  change (24 - Z.of_nat (0 mod 4) * 8) with 24. change (24 - Z.of_nat (1 mod 4) * 8) with 16.
  change (24 - Z.of_nat (2 mod 4) * 8) with 8. change (24 - Z.of_nat (3 mod 4) * 8) with 0.
  rewrite !byte_extract by lia.
  repeat split.
  - rewrite <- (ToUint8_ofByte b0) at 2. f_equal. Z.div_mod_to_equations. lia.
  - rewrite <- (ToUint8_ofByte b1) at 2. f_equal. Z.div_mod_to_equations. lia.
  - rewrite <- (ToUint8_ofByte b2) at 2. f_equal. Z.div_mod_to_equations. lia.
  - rewrite <- (ToUint8_ofByte b3) at 2. f_equal. Z.div_mod_to_equations. lia.
Qed.

Lemma byteAt_word4_cons b0 b1 b2 b3 ws i :
  byteAt (word4 b0 b1 b2 b3 :: ws) i =
  match i with
  | 0 => b0 | 1 => b1 | 2 => b2 | 3 => b3
  | S (S (S (S j))) => byteAt ws j
  end%nat.
Proof.
  destruct (byteAt_word4 b0 b1 b2 b3 ws) as (H0 & H1 & H2 & H3).
  destruct i as [| [| [| [| j]]]]; auto.
  apply (byteAt_cons _ ws j).
Qed.

(** Every byte position of the packed words holds the byte of the list, and
    zero past its end. *)
Lemma byteAt_pack bs i : byteAt (pack bs) i = nth i bs x00.
Proof.
  revert i.
  induction bs as [| a0 | a0 a1 | a0 a1 a2 | a0 a1 a2 a3 p IH] using list_ind4; intros i.
  - rewrite byteAt_nil. destruct i; reflexivity.
  - cbn [pack]. rewrite byteAt_word4_cons.
    destruct i as [| [| [| [| j]]]]; try reflexivity.
    rewrite byteAt_nil. destruct j; reflexivity.
  - cbn [pack]. rewrite byteAt_word4_cons.
    destruct i as [| [| [| [| j]]]]; try reflexivity.
    rewrite byteAt_nil. destruct j; reflexivity.
  - cbn [pack]. rewrite byteAt_word4_cons.
    destruct i as [| [| [| [| j]]]]; try reflexivity.
    rewrite byteAt_nil. destruct j; reflexivity.
  - change (pack (a0 :: a1 :: a2 :: a3 :: p)) with (word4 a0 a1 a2 a3 :: pack p).
    rewrite byteAt_word4_cons.
    destruct i as [| [| [| [| j]]]]; try reflexivity.
    apply IH.
Qed.

Lemma map_nth_seq_id {A} (l : list A) d :
  map (fun i => nth i l d) (seq 0 (length l)) = l.
Proof.
  induction l as [| a l IH]; [reflexivity |].
  cbn [length seq map nth]. f_equal.
  rewrite <- seq_shift, map_map. exact IH.
Qed.

Lemma map_nth_seq_take {A} (l : list A) d n :
  (n <= length l)%nat -> map (fun i => nth i l d) (seq 0 n) = take n l.
Proof.
  revert n. induction l as [| a l IH]; intros [| n] Hn; try reflexivity.
  - simpl in Hn. lia.
  - cbn [seq map nth take]. f_equal.
    rewrite <- seq_shift, map_map. apply IH. simpl in Hn. lia.
Qed.

Lemma map_nth_seq_pad {A} (l : list A) d n :
  map (fun i => nth i l d) (seq 0 (length l + n)) = l ++ repeat d n.
Proof.
  induction l as [| a l IH].
  - cbn [length Nat.add app]. induction n as [| n IHn]; [reflexivity |].
    rewrite seq_S, map_app, IHn. cbn [map Nat.add].
    replace (nth n [] d) with d by (destruct n; reflexivity).
    rewrite <- repeat_cons. reflexivity.
  - cbn [length Nat.add seq map nth app]. f_equal.
    rewrite <- seq_shift, map_map. exact IH.
Qed.

(** The significant bytes of [toWordArray bs] are [bs]. *)
Lemma bytes_toWordArray bs : bytes (toWordArray bs) = bs.
Proof.
  rewrite toWordArray_pack. unfold bytes. cbn [words sigBytes].
  rewrite (map_ext _ (fun i => nth i bs x00)) by (intros; apply byteAt_pack).
  apply map_nth_seq_id.
Qed.

Lemma sigBytes_toWordArray bs : sigBytes (toWordArray bs) = length bs.
Proof. reflexivity. Qed.


(** ** Slices, extensions and prefixes of word arrays *)

Lemma aget_take ws k j : (j < k)%nat -> aget (take k ws) j = aget ws j.
Proof.
  intros Hj. unfold aget. rewrite nth_firstn.
  destruct (Nat.ltb_spec j k); [reflexivity | lia].
Qed.

Lemma byteAt_take ws k i : (i < k * 4)%nat -> byteAt (take k ws) i = byteAt ws i.
Proof.
  intros Hi. unfold byteAt. rewrite aget_take; [reflexivity |].
  apply Nat.Div0.div_lt_upper_bound. lia.
Qed.

Lemma byteAt_drop ws k i : byteAt (drop k ws) i = byteAt ws (k * 4 + i).
Proof.
  unfold byteAt, aget. rewrite nth_skipn.
  replace (k * 4 + i)%nat with (i + k * 4)%nat by lia.
  rewrite Nat.div_add, Nat.Div0.mod_add by lia.
  replace (k + i / 4)%nat with (i / 4 + k)%nat by lia. reflexivity.
Qed.

Lemma aget_app_zero ws j : aget (ws ++ [0]) j = aget ws j.
Proof.
  unfold aget. destruct (Nat.lt_ge_cases j (length ws)) as [Hlt | Hge].
  - apply app_nth1. exact Hlt.
  - rewrite (nth_overflow ws) by exact Hge.
    rewrite app_nth2 by exact Hge.
    destruct (j - length ws)%nat as [| [| n]]; reflexivity.
Qed.

Lemma byteAt_app_zero ws i : byteAt (ws ++ [0]) i = byteAt ws i.
Proof. unfold byteAt. rewrite aget_app_zero. reflexivity. Qed.

Lemma map_nth_seq_drop {A} (l : list A) d k n :
  (k + n <= length l)%nat ->
  map (fun i => nth (k + i) l d) (seq 0 n) = take n (drop k l).
Proof.
  intros Hn.
  rewrite (map_ext _ (fun i => nth i (drop k l) d)) by (intros; symmetry; apply nth_skipn).
  apply map_nth_seq_take. rewrite length_drop. lia.
Qed.

(** Cutting a word array short keeps a prefix of its bytes. *)
Lemma bytes_prefix w n :
  (n <= sigBytes w)%nat -> bytes (create (words w) (Some n)) = take n (bytes w).
Proof.
  intros Hn. unfold bytes, create. cbn [words sigBytes].
  rewrite firstn_map. f_equal.
  replace (sigBytes w) with (n + (sigBytes w - n))%nat by lia.
  rewrite seq_app, take_app_length'; [reflexivity | symmetry; apply length_seq].
Qed.

(** The word array made of the first [k] words of a packed byte list. *)
Lemma bytes_take_words bs k :
  (k * 4 <= length bs)%nat ->
  bytes (create (take k (pack bs)) None) = take (k * 4) bs.
Proof.
  intros Hk. pose proof (length_pack bs) as Hlen.
  unfold bytes, create. cbn [words sigBytes].
  rewrite length_take_le by lia.
  rewrite <- (map_nth_seq_take bs x00 (k * 4)) by exact Hk.
  apply map_ext_in. intros i Hi. apply in_seq in Hi.
  rewrite byteAt_take by lia. apply byteAt_pack.
Qed.

(** The word array made of words [j .. j + k) of a packed byte list. *)
Lemma bytes_slice_words bs j k :
  ((j + k) * 4 <= length bs)%nat ->
  bytes (create (take k (drop j (pack bs))) None) = take (k * 4) (drop (j * 4) bs).
Proof.
  intros Hk. pose proof (length_pack bs) as Hlen.
  unfold bytes, create. cbn [words sigBytes].
  rewrite length_take_le by (rewrite length_drop; lia).
  rewrite <- (map_nth_seq_drop bs x00 (j * 4) (k * 4)) by lia.
  apply map_ext_in. intros i Hi. apply in_seq in Hi.
  rewrite byteAt_take by lia. rewrite byteAt_drop. apply byteAt_pack.
Qed.

(** A packed byte list of whole words, with one zero word pushed. *)
Lemma bytes_push_zero bs :
  (length bs mod 4 = 0)%nat ->
  bytes (create (pack bs ++ [0]) None) = bs ++ [x00; x00; x00; x00].
Proof.
  intros Hmod. pose proof (length_pack bs) as Hlen. rewrite Hmod in Hlen.
  unfold bytes, create. cbn [words sigBytes].
  rewrite length_app. cbn [length].
  replace ((length (pack bs) + 1) * 4)%nat with (length bs + 4)%nat by (cbn in Hlen; lia).
  change [x00; x00; x00; x00] with (repeat x00 4).
  rewrite <- (map_nth_seq_pad bs x00 4).
  apply map_ext. intros i. rewrite byteAt_app_zero. apply byteAt_pack.
Qed.

(** The four bytes [fromWordArray] takes out of a word. *)
Lemma unpack_byteAt x ws :
  ToUint8 (sar x 24) = byteAt (x :: ws) 0 /\
  ToUint8 (bitand (sar x 16) 255) = byteAt (x :: ws) 1 /\
  ToUint8 (bitand (sar x 8) 255) = byteAt (x :: ws) 2 /\
  ToUint8 (bitand x 255) = byteAt (x :: ws) 3.
Proof.
  pose proof (ToInt32_range x) as Hx.
  assert (Hsar : forall s, 0 <= s -> ToInt32 (Z.shiftr (ToInt32 x) s) = Z.shiftr (ToInt32 x) s).
  { intros s Hs. apply ToInt32_small. rewrite Z.shiftr_div_pow2 by lia.
    assert (0 < 2 ^ s) by (apply Z.pow_pos_nonneg; lia).
    Z.div_mod_to_equations. nia. }
  unfold byteAt, sar, bitand.
  change (aget (x :: ws) (0 / 4)) with x. change (aget (x :: ws) (1 / 4)) with x.
  change (aget (x :: ws) (2 / 4)) with x. change (aget (x :: ws) (3 / 4)) with x.
  change (24 mod 32) with 24. change (16 mod 32) with 16. change (8 mod 32) with 8.
  change (24 - Z.of_nat (0 mod 4) * 8) with 24. change (24 - Z.of_nat (1 mod 4) * 8) with 16.
  change (24 - Z.of_nat (2 mod 4) * 8) with 8. change (24 - Z.of_nat (3 mod 4) * 8) with 0.
  change (ToInt32 255) with 255.
  rewrite !Hsar by lia. rewrite Z.shiftr_0_r.
  repeat split; try reflexivity.
  rewrite land_255, ToUint8_mod. reflexivity.
Qed.

(** [fromWordArray] reads every byte position of every word. *)
Lemma fromWordArray_byteAt w :
  fromWordArray w = map (byteAt (words w)) (seq 0 (length (words w) * 4)).
Proof.
  unfold fromWordArray. induction (words w) as [| x ws IH]; [reflexivity |].
  destruct (unpack_byteAt x ws) as (H0 & H1 & H2 & H3).
  cbn [flat_map length Nat.mul Nat.add seq map app].
  rewrite H0, H1, H2, H3, IH.
  do 4 f_equal.
  rewrite <- !seq_shift, !map_map.
  apply map_ext. intros i. symmetry. apply (byteAt_cons x ws i).
Qed.

(** [fromWordArray] undoes [toWordArray] on whole words. *)
Lemma fromWordArray_toWordArray bs :
  (length bs mod 4 = 0)%nat -> fromWordArray (toWordArray bs) = bs.
Proof.
  intros Hmod. rewrite fromWordArray_byteAt, toWordArray_pack. cbn [words].
  pose proof (length_pack bs) as Hlen. rewrite Hmod in Hlen.
  replace (length (pack bs) * 4)%nat with (length bs) by (cbn in Hlen; lia).
  rewrite (map_ext _ (fun i => nth i bs x00)) by (intros; apply byteAt_pack).
  apply map_nth_seq_id.
Qed.

End WAFacts.


(** ** The reference instances obey the laws of the primitives *)

Module RefFacts.
Import JS JSFacts Ref.

Lemma ofByte_ToUint8 z : ofByte (ToUint8 z) = z mod 256.
Proof.
  unfold ToUint8, ofByte.
  pose proof (Z.mod_pos_bound z 256 ltac:(lia)) as Hz.
  destruct (Byte.of_N (Z.to_N (z mod 256))) as [b |] eqn:Hb.
  - apply Byte.to_of_N in Hb. rewrite Hb. lia.
  - apply Byte.of_N_None_iff in Hb. lia.
Qed.

Lemma subByte_addByte k b : subByte k (addByte k b) = b.
Proof.
  unfold subByte, addByte. rewrite ofByte_ToUint8.
  rewrite <- (ToUint8_ofByte b) at 2. rewrite <- ToUint8_mod. symmetry.
  rewrite <- ToUint8_mod. f_equal.
  rewrite Zminus_mod_idemp_l. f_equal. lia.
Qed.

Lemma stream_decrypt_encrypt m k c : stream_decrypt (stream_encrypt m k c) k c = m.
Proof.
  unfold stream_decrypt, stream_encrypt. rewrite map_map.
  rewrite (map_ext _ (fun b => b)) by (intros; apply subByte_addByte).
  apply map_id.
Qed.

(** Base64 decoding undoes encoding. *)

Lemma list_ind3 {A} (P : list A -> Prop) :
  P [] -> (forall a, P [a]) -> (forall a b, P [a; b]) ->
  (forall a b c l, P l -> P (a :: b :: c :: l)) ->
  forall l, P l.
Proof.
  intros H0 H1 H2 H3. fix IH 1.
  intros [| a [| b [| c l]]]; [exact H0 | apply H1 | apply H2 | apply H3, IH].
Qed.

Ltac byte_arith :=
  repeat match goal with
         | b : byte |- _ =>
             lazymatch goal with
             | H : 0 <= ofByte b < 256 |- _ => fail
             | _ => pose proof (ofByte_range b)
             end
         end;
  Z.div_mod_to_equations; lia.

Lemma sextets_bound bs : Forall (fun n => 0 <= n < 64) (Base64.sextets bs).
Proof.
  induction bs as [| a | a b | a b c l IH] using list_ind3; cbn [Base64.sextets].
  - constructor.
  - repeat constructor; byte_arith.
  - repeat constructor; byte_arith.
  - repeat (constructor; [byte_arith |]). exact IH.
Qed.

Lemma unsextets_sextets bs : Base64.unsextets (Base64.sextets bs) = bs.
Proof.
  induction bs as [| a | a b | a b c l IH] using list_ind3;
    cbn [Base64.sextets Base64.unsextets].
  - reflexivity.
  - f_equal. rewrite <- (ToUint8_ofByte a) at 3. f_equal. byte_arith.
  - f_equal; [| f_equal].
    + rewrite <- (ToUint8_ofByte a) at 3. f_equal. byte_arith.
    + rewrite <- (ToUint8_ofByte b) at 3. f_equal. byte_arith.
  - rewrite IH. f_equal; [| f_equal; [| f_equal]].
    + rewrite <- (ToUint8_ofByte a) at 3. f_equal. byte_arith.
    + rewrite <- (ToUint8_ofByte b) at 3. f_equal. byte_arith.
    + rewrite <- (ToUint8_ofByte c) at 3. f_equal. byte_arith.
Qed.

Lemma sextet_table : forallb Base64.sextet_ok (map Z.of_nat (seq 0 64)) = true.
Proof. vm_compute. reflexivity. Qed.

Lemma sextet_char n :
  0 <= n < 64 ->
  Base64.sextetOf (Base64.charOf n) = n /\
  Ascii.eqb (Base64.charOf n) Base64.paddingChar = false.
Proof.
  intros Hn. pose proof sextet_table as Htable.
  rewrite forallb_forall in Htable.
  assert (Hin : In n (map Z.of_nat (seq 0 64))).
  { apply in_map_iff. exists (Z.to_nat n). split; [lia |]. apply in_seq. lia. }
  apply Htable in Hin. unfold Base64.sextet_ok in Hin.
  apply andb_true_iff in Hin as [H1 H2].
  apply Z.eqb_eq in H1. apply negb_true_iff in H2. auto.
Qed.

Lemma beforePadding_encoded ss pad :
  Forall (fun n => 0 <= n < 64) ss ->
  Base64.beforePadding (map Base64.charOf ss ++ repeat Base64.paddingChar pad)
  = map Base64.charOf ss.
Proof.
  induction 1 as [| n ss Hn _ IH]; cbn [map app Base64.beforePadding].
  - destruct pad; reflexivity.
  - rewrite (proj2 (sextet_char n Hn)), IH. reflexivity.
Qed.

Lemma map_sextetOf_charOf ss :
  Forall (fun n => 0 <= n < 64) ss -> map Base64.sextetOf (map Base64.charOf ss) = ss.
Proof.
  induction 1 as [| n ss Hn _ IH]; cbn [map]; [reflexivity |].
  rewrite (proj1 (sextet_char n Hn)), IH. reflexivity.
Qed.

Lemma transport_decode_encode bs : Base64.decode (Base64.encode bs) = bs.
Proof.
  unfold Base64.decode, Base64.encode, Base64.padding.
  rewrite list_ascii_of_string_of_list_ascii.
  rewrite beforePadding_encoded by apply sextets_bound.
  rewrite map_sextetOf_charOf by apply sextets_bound.
  apply unsextets_sextets.
Qed.

Lemma length_digest64 m : length (digest64 m) = 64%nat.
Proof.
  unfold digest64. rewrite length_take, length_map, length_app, repeat_length. lia.
Qed.

Lemma length_pointwise_base n :
  length n = 32%nat -> length (pointwise n basePoint) = 32%nat.
Proof.
  intros Hn. unfold pointwise, basePoint.
  rewrite length_map, length_combine, repeat_length. lia.
Qed.

End RefFacts.

(** ** Key agreement and the cipher wrappers *)

Section KeyAgreement.
Context `{P : Primitives}.
Import WA WAFacts CryptoJS.

(** Contracts of the primitives used in this section. *)
Hypothesis scalarMult_base_length :
  forall n, length n = 32%nat -> length (scalarMult_base n) = 32%nat.
Hypothesis base64_decode_encode : forall bs, base64_decode (base64_encode bs) = bs.
Hypothesis sha512_length : forall m, length (sha512 m) = 64%nat.

Lemma Base64_parse_stringify bs :
  Base64_parse (Base64_stringify (toWordArray bs)) = toWordArray bs.
Proof.
  unfold Base64_parse, Base64_stringify.
  rewrite bytes_toWordArray, base64_decode_encode. reflexivity.
Qed.

(** C10: for every 32-byte private key, [parsePublicKey] applied to the
    transport encoding produced by [publicKeyFromPrivate] returns the raw
    public key bytes: parsing is a left inverse of the encoding. *)
Theorem C10_parsePublicKey_left_inverse (privateKey : list byte) :
  length privateKey = 32%nat ->
  parsePublicKey (PublicKey.encoded (publicKeyFromPrivate privateKey))
  = PublicKey.raw (publicKeyFromPrivate privateKey).
Proof.
  intros Hlen. unfold parsePublicKey, publicKeyFromPrivate.
  cbn [PublicKey.raw PublicKey.encoded].
  rewrite Base64_parse_stringify.
  apply fromWordArray_toWordArray.
  rewrite (scalarMult_base_length _ Hlen). reflexivity.
Qed.

(** C8: [sharedSecret] hashes the scalar-multiplication output and splits the
    64-byte digest into the message key (bytes 0-31) and the MAC key (bytes
    32-63); when the scalar multiplication commutes on the two key pairs,
    both sides derive the same two subkeys. *)
Theorem C8_sharedSecret_split_and_symmetric (a A b B : list byte) :
  scalarMult a B = scalarMult b A ->
  let digest := sha512 (scalarMult a B) in
  bytes (Secret.message (sharedSecret a B)) = take 32 digest /\
  bytes (Secret.hmac (sharedSecret a B)) = drop 32 digest /\
  length (take 32 digest) = 32%nat /\
  length (drop 32 digest) = 32%nat /\
  Secret.message (sharedSecret a B) = Secret.message (sharedSecret b A) /\
  Secret.hmac (sharedSecret a B) = Secret.hmac (sharedSecret b A).
Proof.
  intros Hcomm digest.
  assert (Hlen : length digest = 64%nat) by apply sha512_length.
  unfold sharedSecret, SHA512, slice. cbn [Secret.message Secret.hmac].
  rewrite <- Hcomm, bytes_toWordArray. fold digest.
  rewrite toWordArray_pack. cbn [words].
  change (8 - 0)%nat with 8%nat. change (16 - 8)%nat with 8%nat.
  rewrite drop_0.
  rewrite (bytes_take_words digest 8) by lia.
  rewrite (bytes_slice_words digest 8 8) by lia.
  change (8 * 4)%nat with 32%nat.
  rewrite length_take, length_drop.
  rewrite (take_ge (drop 32 digest)) by (rewrite length_drop; lia).
  repeat split; lia.
Qed.

(** C9: for every 12-byte IV, the counter block that both [encryptAES] and
    [decryptAES] hand to the counter-mode cipher is the 12 IV bytes followed
    by four zero bytes, 16 bytes in all. *)
Theorem C9_counter_block_zero_extended (iv : string) (msg c : WordArray) (ciphertext : string) :
  length (base64_decode iv) = 12%nat ->
  let counter := base64_decode iv ++ [x00; x00; x00; x00] in
  bytes (correctIvLength iv) = counter /\
  length counter = 16%nat /\
  encryptAES msg c iv = base64_encode (aes_ctr_encrypt (bytes msg) (bytes c) counter) /\
  bytes (decryptAES ciphertext c iv)
  = aes_ctr_decrypt (base64_decode ciphertext) (bytes c) counter.
Proof.
  intros Hlen counter.
  assert (Hiv : bytes (correctIvLength iv) = counter).
  { unfold correctIvLength, Base64_parse. rewrite toWordArray_pack. cbn [words].
    apply bytes_push_zero. rewrite Hlen. reflexivity. }
  split; [exact Hiv |]. split.
  { unfold counter. rewrite length_app, Hlen. reflexivity. }
  unfold encryptAES, decryptAES, AES_encrypt, AES_decrypt, Base64_stringify.
  rewrite !bytes_toWordArray, Hiv. split; reflexivity.
Qed.

End KeyAgreement.

(** ** The gates of [decrypt] *)

Section Decryption.
Context `{P : Primitives}.
Import WA WAFacts CryptoJS.

Lemma includes_In usedIVs iv : includes usedIVs iv = true <-> In iv usedIVs.
Proof.
  unfold includes. rewrite existsb_exists. split.
  - intros (x & Hx & Heq). apply String.eqb_eq in Heq. subst. exact Hx.
  - intros Hin. exists iv. split; [exact Hin | apply String.eqb_refl].
Qed.

Lemma includes_push usedIVs iv : includes (usedIVs ++ [iv]) iv = true.
Proof. apply includes_In, in_or_app. right. left. reflexivity. Qed.

Lemma length_bytes w : length (bytes w) = sigBytes w.
Proof. unfold bytes. rewrite length_map, length_seq. reflexivity. Qed.


(** Reading an object. *)
Lemma get_own (object : JSObject.t) (name : string) (e : Entry.t) :
  JSObject.own object !! name = Some e -> JSObject.get object name = JSObject.AnEntry e.
Proof. intros Hown. unfold JSObject.get. rewrite Hown. reflexivity. Qed.

Lemma get_plain (text : gmap string Entry.t) (name : string) (e : Entry.t) :
  JSObject.get (JSObject.mk text None) name = JSObject.AnEntry e <-> text !! name = Some e.
Proof.
  unfold JSObject.get. cbn [JSObject.own JSObject.proto from_option].
  destruct (text !! name) as [e0 |]; [split; congruence |].
  destruct (String.eqb name "__proto__"); [split; discriminate |].
  destruct (existsb _ _); split; discriminate.
Qed.

Lemma has_own (object : JSObject.t) (name : string) :
  is_Some (JSObject.own object !! name) -> JSObject.has object name = true.
Proof.
  intros Hown. unfold JSObject.has. rewrite (bool_decide_eq_true_2 _ Hown). reflexivity.
Qed.

Lemma has_plain (text : gmap string Entry.t) (name : string) :
  JSObject.has (JSObject.mk text None) name
  = bool_decide (is_Some (text !! name)) || existsb (String.eqb name) JSObject.Object_prototype.
Proof.
  unfold JSObject.has. cbn [JSObject.own JSObject.proto from_option].
  rewrite (bool_decide_eq_false_2 (is_Some (@None string))) by (intros [? ?]; discriminate).
  rewrite orb_false_r. reflexivity.
Qed.

(** [decrypt] on an envelope that has an entry for the caller. *)
Lemma decrypt_entry (myName : string) (buddies : list string)
    (message : Envelope.t) (sender : Buddy) (usedIVs : list string) (mine : Entry.t) :
  JSObject.get (Envelope.encrypted message) myName = JSObject.AnEntry mine ->
  decrypt myName buddies message sender usedIVs
  = match mpSecretKey sender with
    | None => (Throw MissingSenderKey, usedIVs)
    | Some key =>
        let sortedRecipients := decrypt_sortedRecipients (Envelope.text message) in
        match Entry.hmac mine with
        | None => (Throw TypeError, usedIVs)
        | Some mine_hmac =>
            if negb (HLP_compare mine_hmac
                       (HMAC (decrypt_hmacInput sortedRecipients) (Secret.hmac key)))
            then (Throw AuthenticationFailure, usedIVs)
            else if includes usedIVs (Entry.iv mine)
            then (Throw ReplayDetected, usedIVs)
            else
              let plaintext :=
                decryptAES (Entry.message mine) (Secret.message key) (Entry.iv mine) in
              if (sigBytes plaintext <? 64)%nat
              then (Throw InvalidPlaintextSize, usedIVs ++ [Entry.iv mine])
              else
                match decrypt_messageTag sortedRecipients (clone plaintext) with
                | None => (Throw TypeError, usedIVs ++ [Entry.iv mine])
                | Some messageTag =>
                    if negb (String.eqb (createMessageTag messageTag) (Envelope.tag message))
                    then (Throw TagFailure, usedIVs ++ [Entry.iv mine])
                    else
                      match Utf8_stringify
                              (create (words plaintext) (Some (sigBytes plaintext - 64)%nat)) with
                      | None => (Return (RetString ""), usedIVs ++ [Entry.iv mine])
                      | Some text =>
                          (Return (RetObject text
                                     (decrypt_missingRecipients buddies sender
                                        (Envelope.encrypted message))),
                           usedIVs ++ [Entry.iv mine])
                      end
                end
        end
    end.
Proof.
  intros Hmine. unfold decrypt. rewrite Hmine. cbn [JSObject.ToBoolean negb].
  reflexivity.
Qed.

(** [decrypt] on an envelope without an entry for the caller: nothing is
    released and the registry stays as it is. *)
Lemma decrypt_no_entry (myName : string) (buddies : list string)
    (message : Envelope.t) (sender : Buddy) (usedIVs : list string) :
  (forall mine,
      JSObject.get (Envelope.encrypted message) myName <> JSObject.AnEntry mine) ->
  exists e, decrypt myName buddies message sender usedIVs = (Throw e, usedIVs) /\
            (e = NotAddressedToMe \/ e = MissingSenderKey \/ e = TypeError).
Proof.
  intros Hnone. unfold decrypt.
  destruct (negb _); [eauto |].
  destruct (mpSecretKey sender); [| eauto].
  destruct (JSObject.get _ _) as [mine | s | |]; [| eauto ..].
  destruct (Hnone mine). reflexivity.
Qed.


(** C5 (as the code has it): a failing [decrypt] releases no plaintext to its
    caller.  The registry is unchanged when the failure is [NotAddressedToMe],
    [MissingSenderKey], [AuthenticationFailure] or [ReplayDetected]; on
    [InvalidPlaintextSize] and [TagFailure] the IV of the caller's entry,
    [message.text[myName]], has already been registered. *)
Theorem C5_registry_after_failure (myName : string) (buddies : list string)
    (message : Envelope.t) (sender : Buddy) (usedIVs : list string)
    (e : DecryptError) (usedIVs' : list string) :
  decrypt myName buddies message sender usedIVs = (Throw e, usedIVs') ->
  released (fst (decrypt myName buddies message sender usedIVs)) = None /\
  match e with
  | NotAddressedToMe | MissingSenderKey | AuthenticationFailure | ReplayDetected =>
      usedIVs' = usedIVs
  | InvalidPlaintextSize | TagFailure =>
      exists mine, JSObject.get (Envelope.encrypted message) myName = JSObject.AnEntry mine /\
                   includes usedIVs (Entry.iv mine) = false /\
                   usedIVs' = usedIVs ++ [Entry.iv mine]
  | TypeError =>
      usedIVs' = usedIVs \/
      exists mine, JSObject.get (Envelope.encrypted message) myName = JSObject.AnEntry mine /\
                   usedIVs' = usedIVs ++ [Entry.iv mine]
  end.
Proof.
  intros Hrun. split; [rewrite Hrun; reflexivity |].
  revert Hrun.
  destruct (JSObject.get (Envelope.encrypted message) myName) as [mine | s | |] eqn:Hmine.
  2-4: destruct (decrypt_no_entry myName buddies message sender usedIVs) as (e0 & -> & He0);
    [intros mine; rewrite Hmine; discriminate |];
    intros [= <- <-]; destruct He0 as [-> | [-> | ->]]; auto.
  rewrite (decrypt_entry _ _ _ _ _ mine Hmine). cbn zeta.
  destruct (mpSecretKey sender) as [key |]; [| intros [= <- <-]; reflexivity].
  destruct (Entry.hmac mine) as [h |]; [| intros [= <- <-]; left; reflexivity].
  destruct (negb (HLP_compare h _)); [intros [= <- <-]; reflexivity |].
  destruct (includes usedIVs (Entry.iv mine)) eqn:Hfresh; [intros [= <- <-]; reflexivity |].
  destruct (sigBytes _ <? 64)%nat; [intros [= <- <-]; eauto |].
  destruct (decrypt_messageTag _ _); [| intros [= <- <-]; right; eauto].
  destruct (negb (String.eqb _ _)); [intros [= <- <-]; eauto |].
  destruct (Utf8_stringify _); discriminate.
Qed.

(** C6 (as the code has it): when the envelope is addressed to the caller,
    the sender's key is known, the caller's MAC matches and its IV is fresh,
    an entry that decrypts to fewer than 64 bytes makes [decrypt] fail with
    [InvalidPlaintextSize]; the tag plays no part: the failure is the same
    for every tag the envelope may carry. *)
Theorem C6_size_floor_before_tag (myName : string) (buddies : list string)
    (message : Envelope.t) (sender : Buddy) (usedIVs : list string)
    (mine : Entry.t) (key : Secret.t) (h : string) :
  Envelope.text message !! myName = Some mine ->
  mpSecretKey sender = Some key ->
  Entry.hmac mine = Some h ->
  HLP_compare h (HMAC (decrypt_hmacInput (decrypt_sortedRecipients (Envelope.text message)))
                      (Secret.hmac key)) = true ->
  includes usedIVs (Entry.iv mine) = false ->
  (length (bytes (decryptAES (Entry.message mine) (Secret.message key) (Entry.iv mine))) < 64)%nat ->
  forall tag,
    decrypt myName buddies
      (Envelope.mk (Envelope.type message) (Envelope.text message) tag) sender usedIVs
    = (Throw InvalidPlaintextSize, usedIVs ++ [Entry.iv mine]).
Proof.
  intros Hmine Hkey Hh Hmac Hfresh Hshort tag.
  rewrite (decrypt_entry _ _ _ _ _ mine) by (apply get_own; exact Hmine).
  cbn [Envelope.text Envelope.mk]. rewrite Hkey, Hh. cbn zeta. rewrite Hmac, Hfresh. cbn [negb].
  rewrite length_bytes in Hshort.
  destruct (Nat.ltb_spec (sigBytes (decryptAES (Entry.message mine) (Secret.message key)
                                      (Entry.iv mine))) 64); [reflexivity | lia].
Qed.

(** C7 (what the code does): when every gate passes and the unpadded body is
    not valid text, [decrypt] returns the bare empty string of source line
    158, not an object [{ plaintext, missingRecipients }]. *)
Theorem C7_decode_failure_returns_bare_string (myName : string) (buddies : list string)
    (message : Envelope.t) (sender : Buddy) (usedIVs : list string)
    (mine : Entry.t) (key : Secret.t) (h : string) (messageTag : WordArray) :
  let sortedRecipients := decrypt_sortedRecipients (Envelope.text message) in
  let plaintext := decryptAES (Entry.message mine) (Secret.message key) (Entry.iv mine) in
  Envelope.text message !! myName = Some mine ->
  mpSecretKey sender = Some key ->
  Entry.hmac mine = Some h ->
  HLP_compare h (HMAC (decrypt_hmacInput sortedRecipients) (Secret.hmac key)) = true ->
  includes usedIVs (Entry.iv mine) = false ->
  (64 <= sigBytes plaintext)%nat ->
  decrypt_messageTag sortedRecipients plaintext = Some messageTag ->
  createMessageTag messageTag = Envelope.tag message ->
  utf8_decode (take (sigBytes plaintext - 64) (bytes plaintext)) = None ->
  decrypt myName buddies message sender usedIVs
  = (Return (RetString ""), usedIVs ++ [Entry.iv mine]) /\
  forall text missingRecipients usedIVs',
    decrypt myName buddies message sender usedIVs
    <> (Return (RetObject text missingRecipients), usedIVs').
Proof.
  intros sortedRecipients plaintext Hmine Hkey Hh Hmac Hfresh Hsize Htag Heq Hbad.
  assert (Hrun : decrypt myName buddies message sender usedIVs
                 = (Return (RetString ""), usedIVs ++ [Entry.iv mine])).
  { rewrite (decrypt_entry _ _ _ _ _ mine) by (apply get_own; exact Hmine).
    rewrite Hkey, Hh. cbn zeta.
    fold sortedRecipients. rewrite Hmac, Hfresh. cbn [negb].
    fold plaintext.
    destruct (Nat.ltb_spec (sigBytes plaintext) 64) as [Hlt | _]; [lia |].
    unfold clone. rewrite Htag, Heq, String.eqb_refl. cbn [negb].
    unfold Utf8_stringify. rewrite bytes_prefix by lia. rewrite Hbad. reflexivity. }
  split; [exact Hrun |].
  intros text missing usedIVs'. rewrite Hrun. discriminate.
Qed.

End Decryption.

(** ** Sorting *)

Module SortFacts.

Lemma codeUnitCompare_lt a b : (codeUnitCompare a b <? 0) = true <-> String_as_OT.lt a b.
Proof.
  unfold codeUnitCompare, String_as_OT.lt.
  destruct (String_as_OT.compare a b); cbn; split; congruence.
Qed.

Lemma cuLe_trans a b c : cuLe a b -> cuLe b c -> cuLe a c.
Proof.
  unfold cuLe. intros Hab Hbc Hca.
  destruct (String_as_OT.compare_spec a b) as [-> | Hlt | Hgt]; [tauto | | tauto].
  apply Hbc. exact (StrictOrder_Transitive _ _ _ Hca Hlt).
Qed.

Lemma cuLe_antisym a b : cuLe a b -> cuLe b a -> a = b.
Proof.
  unfold cuLe. intros Hab Hba.
  destruct (String_as_OT.compare_spec a b) as [-> | Hlt | Hgt]; tauto.
Qed.

Lemma lt_cuLe a b : String_as_OT.lt a b -> cuLe a b.
Proof.
  intros Hlt Hgt.
  exact (StrictOrder_Irreflexive _ (StrictOrder_Transitive _ _ _ Hlt Hgt)).
Qed.

Section Generic.
Context {A : Type}.
Implicit Types (cmp : A -> A -> Z) (l acc : list A).

Lemma sort_insert_perm cmp x l : sort_insert cmp x l ≡ₚ x :: l.
Proof.
  induction l as [| y l IH]; cbn; [reflexivity |].
  destruct (cmp x y <? 0); [reflexivity |].
  rewrite IH. apply perm_swap.
Qed.

Lemma fold_insert_perm cmp l acc :
  fold_left (fun sorted x => sort_insert cmp x sorted) l acc ≡ₚ acc ++ l.
Proof.
  revert acc. induction l as [| x l IH]; intros acc; cbn.
  - rewrite app_nil_r. reflexivity.
  - rewrite IH, sort_insert_perm. rewrite (Permutation_middle acc l x). reflexivity.
Qed.

Lemma Array_sort_perm cmp l : Array_sort cmp l ≡ₚ l.
Proof. unfold Array_sort. rewrite fold_insert_perm. reflexivity. Qed.

(** Two comparators with the same sign on the elements sort alike. *)
Lemma sort_insert_ext cmp1 cmp2 x l :
  (forall y, y ∈ l -> (cmp1 x y <? 0) = (cmp2 x y <? 0)) ->
  sort_insert cmp1 x l = sort_insert cmp2 x l.
Proof.
  induction l as [| y l IH]; intros Hagree; cbn; [reflexivity |].
  rewrite (Hagree y) by left.
  destruct (cmp2 x y <? 0); [reflexivity |].
  f_equal. apply IH. intros z Hz. apply Hagree. right. exact Hz.
Qed.

Lemma fold_insert_ext cmp1 cmp2 l acc :
  (forall x y, x ∈ acc ++ l -> y ∈ acc ++ l -> (cmp1 x y <? 0) = (cmp2 x y <? 0)) ->
  fold_left (fun sorted x => sort_insert cmp1 x sorted) l acc
  = fold_left (fun sorted x => sort_insert cmp2 x sorted) l acc.
Proof.
  revert acc. induction l as [| x l IH]; intros acc Hagree; cbn; [reflexivity |].
  rewrite (sort_insert_ext cmp1 cmp2 x acc).
  - apply IH. intros a b Ha Hb. apply Hagree.
    + rewrite (sort_insert_perm cmp2 x acc) in Ha.
      rewrite <- Permutation_middle. exact Ha.
    + rewrite (sort_insert_perm cmp2 x acc) in Hb.
      rewrite <- Permutation_middle. exact Hb.
  - intros y Hy. apply Hagree; set_solver.
Qed.

Lemma Array_sort_ext cmp1 cmp2 l :
  (forall x y, x ∈ l -> y ∈ l -> (cmp1 x y <? 0) = (cmp2 x y <? 0)) ->
  Array_sort cmp1 l = Array_sort cmp2 l.
Proof. intros Hagree. apply fold_insert_ext. exact Hagree. Qed.

(** Sorting by the code units of a key yields the keys in order. *)
Variable key : A -> string.
Let byKey (a b : A) : Z := codeUnitCompare (key a) (key b).
Let keyLe (a b : A) : Prop := cuLe (key a) (key b).

Lemma sort_insert_sorted x l :
  StronglySorted keyLe l -> StronglySorted keyLe (sort_insert byKey x l).
Proof.
  induction 1 as [| y l Hsorted IH Hy]; cbn.
  - repeat constructor.
  - destruct (byKey x y <? 0) eqn:Hlt.
    + apply codeUnitCompare_lt in Hlt.
      constructor; [constructor; assumption |].
      constructor; [apply lt_cuLe; exact Hlt |].
      eapply Forall_impl; [exact Hy |].
      intros z Hz. unfold keyLe in *. eapply cuLe_trans; [apply lt_cuLe; exact Hlt | exact Hz].
    + constructor; [exact IH |].
      rewrite (sort_insert_perm byKey x l). constructor; [| exact Hy].
      unfold keyLe, cuLe. intros Hxy. apply codeUnitCompare_lt in Hxy.
      unfold byKey in Hlt. congruence.
Qed.

Lemma fold_insert_sorted l acc :
  StronglySorted keyLe acc ->
  StronglySorted keyLe (fold_left (fun sorted x => sort_insert byKey x sorted) l acc).
Proof.
  revert acc. induction l as [| x l IH]; intros acc Hacc; cbn; [exact Hacc |].
  apply IH, sort_insert_sorted, Hacc.
Qed.

Lemma Array_sort_sorted l : StronglySorted keyLe (Array_sort byKey l).
Proof. apply fold_insert_sorted. constructor. Qed.

(** A list without duplicate keys has one sorted arrangement. *)
Lemma sorted_by_key_unique l1 l2 :
  NoDup (map key l1) ->
  StronglySorted keyLe l1 -> StronglySorted keyLe l2 -> l1 ≡ₚ l2 -> l1 = l2.
Proof.
  intros Hnodup H1 H2 Hperm.
  apply (StronglySorted_unique_strong keyLe); try assumption.
  intros x1 x2 Hx1 Hx2 H12 H21.
  assert (Hkey : key x1 = key x2) by (apply cuLe_antisym; assumption).
  rewrite <- Hperm in Hx2.
  clear - Hnodup Hx1 Hx2 Hkey.
  induction l1 as [| a l1 IH]; [inversion Hx1 |].
  cbn in Hnodup. apply NoDup_cons in Hnodup as [Hnotin Hnodup].
  apply elem_of_cons in Hx1 as [-> | Hx1]; apply elem_of_cons in Hx2 as [-> | Hx2].
  - reflexivity.
  - exfalso. apply Hnotin. rewrite Hkey. apply list_elem_of_fmap_2. exact Hx2.
  - exfalso. apply Hnotin. rewrite <- Hkey. apply list_elem_of_fmap_2. exact Hx1.
  - apply IH; assumption.
Qed.

(** Hence sorting any arrangement of such a list gives the sorted one. *)
Lemma Array_sort_canonical l sorted :
  NoDup (map key sorted) -> StronglySorted keyLe sorted -> l ≡ₚ sorted ->
  Array_sort byKey l = sorted.
Proof.
  intros Hnodup Hsorted Hperm. symmetry.
  apply sorted_by_key_unique; [assumption | assumption | apply Array_sort_sorted |].
  rewrite Array_sort_perm. symmetry. exact Hperm.
Qed.

End Generic.

End SortFacts.

(** ** What [encrypt] builds *)

Section EncryptFacts.
Context `{P : Primitives}.
Import WA WAFacts CryptoJS SortFacts.

Lemma bytes_concat a b : bytes (concat a b) = bytes a ++ bytes b.
Proof. apply bytes_toWordArray. Qed.

Lemma bytes_Base64_parse s : bytes (Base64_parse s) = base64_decode s.
Proof. apply bytes_toWordArray. Qed.

Lemma bytes_empty : bytes (create [] None) = [].
Proof. reflexivity. Qed.

(** The MAC and the tag depend on the bytes of their input only. *)
Lemma HMAC_ext a a' key : bytes a = bytes a' -> HMAC a key = HMAC a' key.
Proof. intros Heq. unfold HMAC, HmacSHA512. rewrite Heq. reflexivity. Qed.

Lemma createMessageTag_ext a a' : bytes a = bytes a' -> createMessageTag a = createMessageTag a'.
Proof.
  intros Heq. unfold createMessageTag.
  rewrite !(Nat.iter_succ_r 7). unfold SHA512 at 2 4. rewrite Heq. reflexivity.
Qed.

Lemma generateIV_fresh used tape iv tape' :
  generateIV used tape = Some (iv, tape') -> includes used iv = false.
Proof.
  revert iv tape'. induction tape as [| d tape IH]; intros iv tape'; cbn; [discriminate |].
  destruct (length d =? 12)%nat; [| discriminate].
  destruct (includes used _) eqn:Hused; [apply IH |].
  intros [= <- <-]. exact Hused.
Qed.

(** Writing an object. *)
Lemma set_ne (text : JSObject.t) (name : string) (entry : Entry.t) :
  name <> "__proto__" ->
  JSObject.set text name entry
  = JSObject.mk (<[name := entry]> (JSObject.own text)) (JSObject.proto text).
Proof.
  intros Hne. unfold JSObject.set.
  destruct (JSObject.own text !! name); [reflexivity |].
  destruct (String.eqb_spec name "__proto__"); [contradiction | reflexivity].
Qed.

Lemma set_hmac_ne (text : JSObject.t) (name : string) (h : string) :
  name <> "__proto__" ->
  JSObject.set_hmac text name h
  = JSObject.mk (alter (fun e => Entry.mk (Entry.message e) (Entry.iv e) (Some h)) name
                   (JSObject.own text))
                (JSObject.proto text).
Proof.
  intros Hne. unfold JSObject.set_hmac.
  destruct (JSObject.own text !! name) eqn:Hown; [reflexivity |].
  destruct (String.eqb_spec name "__proto__"); [contradiction |].
  destruct text as [own proto]. cbn [JSObject.own JSObject.proto] in *. f_equal.
  apply map_eq. intros k. destruct (decide (k = name)) as [-> | Hk].
  - rewrite lookup_alter_eq, Hown. reflexivity.
  - rewrite lookup_alter_ne by congruence. reflexivity.
Qed.

Lemma fold_setEntry_ne (es : list (string * Entry.t)) (text : JSObject.t) :
  "__proto__" ∉ es.*1 ->
  fold_left setEntry es text
  = JSObject.mk (fold_left putEntry es (JSObject.own text)) (JSObject.proto text).
Proof.
  revert text. induction es as [| [k v] es IH]; intros text Hnotin; cbn [fold_left].
  - destruct text. reflexivity.
  - cbn in Hnotin. apply not_elem_of_cons in Hnotin as [Hne Hnotin].
    rewrite IH by exact Hnotin. unfold setEntry. cbn [fst snd].
    rewrite set_ne by congruence. reflexivity.
Qed.

(** The first loop: one draft entry per recipient, under fresh, pairwise
    distinct IVs that end up in the registry. *)
Lemma encrypt_entries_spec plaintext rs st text hmacInput st' text' hmacInput' :
  encrypt_entries plaintext rs st text hmacInput = Some (st', text', hmacInput') ->
  exists ivs,
    length ivs = length rs /\
    text' = fold_left setEntry (zip_with (draftEntry plaintext) rs ivs) text /\
    bytes hmacInput'
    = bytes hmacInput ++ flat_map entryBytes (zip_with (draftEntry plaintext) rs ivs) /\
    usedIVs st' = usedIVs st ++ ivs /\
    NoDup ivs /\
    (forall iv, In iv ivs -> includes (usedIVs st) iv = false).
Proof.
  revert st text hmacInput.
  induction rs as [| [name key] rs IH]; intros st text hmacInput; cbn [encrypt_entries].
  - intros [= <- <- <-]. exists []. cbn. rewrite !app_nil_r.
    repeat split; [constructor | intros iv []].
  - destruct (generateIV (usedIVs st) (entropy st)) as [[iv tape] |] eqn:Hiv; [| discriminate].
    apply generateIV_fresh in Hiv.
    intros Hrest. apply IH in Hrest as (ivs & Hlen & Htext & Hbytes & Hused & Hnodup & Hfresh).
    cbn [usedIVs] in Hused, Hfresh.
    exists (iv :: ivs). cbn [zip_with fold_left flat_map length].
    split; [lia |]. split; [exact Htext |]. split.
    { rewrite Hbytes, !bytes_concat, !bytes_Base64_parse, <- !app_assoc.
      cbn [Entry.message Entry.iv].
      change (entryBytes (draftEntry plaintext (name, key) iv))
        with (base64_decode (encryptAES plaintext (Secret.message key) iv)
              ++ base64_decode iv).
      rewrite <- !app_assoc. reflexivity. }
    split. { rewrite Hused, <- app_assoc. reflexivity. }
    split.
    + apply NoDup_cons. split; [| exact Hnodup].
      intros Hin. apply list_elem_of_In in Hin. specialize (Hfresh iv Hin).
      rewrite includes_push in Hfresh. discriminate.
    + intros iv' [<- | Hin]; [exact Hiv |].
      specialize (Hfresh iv' Hin).
      destruct (includes (usedIVs st) iv') eqn:Hincl; [| reflexivity].
      apply includes_In in Hincl.
      assert (includes (usedIVs st ++ [iv]) iv' = true) as Hcontra
        by (apply includes_In, in_or_app; left; exact Hincl).
      congruence.
Qed.

Lemma alter_fold_putEntry f name es (text : gmap string Entry.t) :
  name ∉ es.*1 ->
  alter f name (fold_left putEntry es text) = fold_left putEntry es (alter f name text).
Proof.
  revert text. induction es as [| [k v] es IH]; intros text Hnotin; cbn; [reflexivity |].
  cbn in Hnotin. apply not_elem_of_cons in Hnotin as [Hne Hnotin].
  rewrite IH by exact Hnotin. f_equal. unfold putEntry. cbn [fst snd].
  apply alter_insert_ne. congruence.
Qed.

Lemma fst_zip_with_draft plaintext rs ivs :
  length ivs = length rs -> (zip_with (draftEntry plaintext) rs ivs).*1 = rs.*1.
Proof.
  revert ivs. induction rs as [| r rs IH]; intros [| iv ivs] Hlen; try discriminate;
    [reflexivity |].
  cbn. f_equal. apply IH. cbn in Hlen. lia.
Qed.

Lemma fst_zip_with_sealed plaintext hmacInput rs ivs :
  length ivs = length rs -> (zip_with (sealedEntry plaintext hmacInput) rs ivs).*1 = rs.*1.
Proof.
  revert ivs. induction rs as [| r rs IH]; intros [| iv ivs] Hlen; try discriminate;
    [reflexivity |].
  cbn. f_equal. apply IH. cbn in Hlen. lia.
Qed.

(** The second loop seals every entry with its MAC and feeds the MACs, in
    order, to the tag input. *)
Lemma encrypt_hmacs_spec plaintext hmacInput rs ivs text proto tag :
  NoDup (rs.*1) -> "__proto__" ∉ rs.*1 -> length ivs = length rs ->
  exists tag',
    encrypt_hmacs hmacInput rs
      (JSObject.mk (fold_left putEntry (zip_with (draftEntry plaintext) rs ivs) text) proto) tag
    = (JSObject.mk (fold_left putEntry (zip_with (sealedEntry plaintext hmacInput) rs ivs) text)
         proto, tag') /\
    bytes tag'
    = bytes tag ++ flat_map macBytes (zip_with (sealedEntry plaintext hmacInput) rs ivs).
Proof.
  revert ivs text tag.
  induction rs as [| [name key] rs IH]; intros [| iv ivs] text tag Hnodup Hproto Hlen;
    try discriminate.
  - exists tag. cbn. rewrite app_nil_r. split; reflexivity.
  - cbn in Hnodup. apply NoDup_cons in Hnodup as [Hnotin Hnodup].
    cbn in Hproto. apply not_elem_of_cons in Hproto as [Hne Hproto].
    cbn in Hlen. assert (Hlen' : length ivs = length rs) by lia.
    cbn [zip_with fold_left encrypt_hmacs flat_map].
    rewrite set_hmac_ne by congruence. cbn [JSObject.own JSObject.proto].
    rewrite alter_fold_putEntry by (rewrite fst_zip_with_draft; assumption).
    unfold putEntry at 2. unfold draftEntry at 2. cbn [fst snd].
    rewrite alter_insert_eq. cbn [Entry.message Entry.iv].
    destruct (IH ivs (<[name := Entry.mk (encryptAES plaintext (Secret.message key) iv) iv
                                 (Some (HMAC hmacInput (Secret.hmac key)))]> text)
                 (concat tag (Base64_parse (HMAC hmacInput (Secret.hmac key))))
                 Hnodup Hproto Hlen') as (tag' & Hrun & Hbytes).
    exists tag'. split; [exact Hrun |].
    rewrite Hbytes, bytes_concat, bytes_Base64_parse, <- app_assoc. reflexivity.
Qed.

(** Putting entries with distinct keys one by one builds their map. *)
Lemma fold_putEntry_list_to_map (es : list (string * Entry.t)) :
  NoDup (es.*1) -> fold_left putEntry es ∅ = list_to_map es.
Proof.
  intros Hnodup.
  transitivity (list_to_map (rev es) : gmap string Entry.t).
  - unfold list_to_map. rewrite fold_left_rev_right. reflexivity.
  - apply list_to_map_proper.
    + rewrite <- (Permutation_rev es). exact Hnodup.
    + symmetry. apply Permutation_rev.
Qed.

End EncryptFacts.

(** ** What [decrypt] recomputes *)

Section DecryptFacts.
Context `{P : Primitives}.
Import WA WAFacts CryptoJS SortFacts.

Lemma sorted_keys {A} (key : A -> string) (l : list A) :
  StronglySorted (fun a b => cuLe (key a) (key b)) l <-> StronglySorted cuLe (map key l).
Proof.
  induction l as [| a l IH]; cbn.
  - split; constructor.
  - split; intros Hs; apply StronglySorted_inv in Hs as [Hl Ha];
      (constructor; [apply IH; exact Hl |]).
    + apply Forall_map. exact Ha.
    + exact (proj1 (Forall_map key (cuLe (key a)) l) Ha).
Qed.

(** The keys of a map built from a list sorted by key come back in that order. *)
Lemma decrypt_sortedRecipients_canonical (es : list (string * Entry.t)) :
  NoDup (es.*1) -> StronglySorted cuLe (es.*1) ->
  decrypt_sortedRecipients (list_to_map es) = es.
Proof.
  intros Hnodup Hsorted. unfold decrypt_sortedRecipients.
  apply (Array_sort_canonical fst).
  - exact Hnodup.
  - apply (sorted_keys fst). exact Hsorted.
  - apply map_to_list_to_map. exact Hnodup.
Qed.

Lemma bytes_fold_hmacInput (es : list (string * Entry.t)) acc :
  bytes (fold_left (fun hmacInput r =>
                      concat (concat hmacInput (Base64_parse (Entry.message (snd r))))
                             (Base64_parse (Entry.iv (snd r)))) es acc)
  = bytes acc ++ flat_map entryBytes es.
Proof.
  revert acc. induction es as [| e es IH]; intros acc; cbn [fold_left flat_map].
  - rewrite app_nil_r. reflexivity.
  - rewrite IH, !bytes_concat, !bytes_Base64_parse. unfold entryBytes at 2.
    rewrite <- !app_assoc. reflexivity.
Qed.

(** The MAC input of [decrypt]: ciphertext and IV of every entry, in order. *)
Lemma bytes_decrypt_hmacInput es : bytes (decrypt_hmacInput es) = flat_map entryBytes es.
Proof. unfold decrypt_hmacInput. rewrite bytes_fold_hmacInput. reflexivity. Qed.

(** The tag input of [decrypt]: the decrypted bytes, then every MAC, in order. *)
Lemma decrypt_messageTag_bytes es messageTag t :
  decrypt_messageTag es messageTag = Some t ->
  bytes t = bytes messageTag ++ flat_map macBytes es.
Proof.
  revert messageTag. induction es as [| e es IH]; intros messageTag; cbn [decrypt_messageTag flat_map].
  - intros [= <-]. rewrite app_nil_r. reflexivity.
  - unfold macBytes at 1. destruct (Entry.hmac (snd e)) as [h |]; [| discriminate].
    intros Hrest. apply IH in Hrest. rewrite Hrest, bytes_concat, bytes_Base64_parse.
    rewrite <- app_assoc. reflexivity.
Qed.

Lemma decrypt_messageTag_sealed es messageTag :
  Forall (fun e => is_Some (Entry.hmac (snd e))) es ->
  exists t, decrypt_messageTag es messageTag = Some t.
Proof.
  revert messageTag. induction es as [| e es IH]; intros messageTag Hall; cbn.
  - eauto.
  - apply Forall_cons in Hall as [[h Hh] Hall]. rewrite Hh. apply IH. exact Hall.
Qed.

Lemma createMessageTag_bytes t :
  createMessageTag t = base64_encode (Nat.iter 8 sha512 (bytes t)).
Proof.
  unfold createMessageTag, Base64_stringify. f_equal.
  assert (Hiter : forall n, bytes (Nat.iter (S n) SHA512 t) = Nat.iter (S n) sha512 (bytes t)).
  { induction n as [| n IHn].
    - apply bytes_toWordArray.
    - change (Nat.iter (S (S n)) SHA512 t) with (SHA512 (Nat.iter (S n) SHA512 t)).
      unfold SHA512 at 1. rewrite bytes_toWordArray, IHn. reflexivity. }
  apply Hiter.
Qed.

Lemma HMAC_bytes m key :
  HMAC m key = base64_encode (hmac_sha512 (bytes m) (bytes key)).
Proof. unfold HMAC, HmacSHA512, Base64_stringify. rewrite bytes_toWordArray. reflexivity. Qed.

End DecryptFacts.

(** ** From [encrypt] to [decrypt] *)

Section RoundTrip.
Context `{P : Primitives}.
Import WA WAFacts CryptoJS SortFacts.

Hypothesis base64_decode_encode : forall bs, base64_decode (base64_encode bs) = bs.
Hypothesis aes_decrypt_encrypt :
  forall m k c, aes_ctr_decrypt (aes_ctr_encrypt m k c) k c = m.

Lemma decryptAES_encryptAES m c iv :
  decryptAES (encryptAES m c iv) c iv = toWordArray (bytes m).
Proof.
  unfold decryptAES, encryptAES, AES_decrypt, AES_encrypt, Base64_stringify.
  rewrite bytes_toWordArray, base64_decode_encode, aes_decrypt_encrypt. reflexivity.
Qed.

Lemma entryBytes_sealed plaintext hmacInput rs ivs :
  flat_map entryBytes (zip_with (sealedEntry plaintext hmacInput) rs ivs)
  = flat_map entryBytes (zip_with (draftEntry plaintext) rs ivs).
Proof.
  revert ivs. induction rs as [| r rs IH]; intros [| iv ivs]; try reflexivity.
  cbn [zip_with flat_map]. rewrite IH. reflexivity.
Qed.

Lemma sealed_has_hmac plaintext hmacInput rs ivs :
  Forall (fun e => is_Some (Entry.hmac (snd e)))
         (zip_with (sealedEntry plaintext hmacInput) rs ivs).
Proof.
  revert ivs. induction rs as [| r rs IH]; intros [| iv ivs]; cbn; constructor.
  - cbn. eauto.
  - apply IH.
Qed.

(** [encrypt] returns a sealed envelope and registers its IVs. *)
Lemma encrypt_sealed plaintext recipients st env st' :
  encrypt plaintext recipients st = Some (env, st') ->
  NoDup ((encrypt_sortedRecipients recipients).*1) ->
  "__proto__" ∉ (encrypt_sortedRecipients recipients).*1 ->
  exists padding ivs,
    length padding = 64%nat /\
    sealed (utf8_encode plaintext ++ padding) (encrypt_sortedRecipients recipients) ivs env /\
    Envelope.type env = "message" /\
    usedIVs st' = usedIVs st ++ ivs /\
    NoDup ivs /\
    (forall iv, In iv ivs -> includes (usedIVs st) iv = false).
Proof.
  unfold encrypt. intros Hrun Hnodup Hproto.
  destruct (random 64 (entropy st)) as [[padding tape] |] eqn:Hpad; [| discriminate].
  unfold random in Hpad. destruct (entropy st) as [| d tape0]; [discriminate |].
  destruct (Nat.eqb_spec (length d) 64) as [Hd |]; [| discriminate].
  injection Hpad as <- <-.
  set (pt := concat (Utf8_parse plaintext) (toWordArray d)) in *.
  set (rs := encrypt_sortedRecipients recipients) in *.
  destruct (encrypt_entries pt rs _ _ _) as [[[st1 text1] hmacInput] |] eqn:Hloop1;
    [| discriminate].
  apply encrypt_entries_spec in Hloop1
    as (ivs & Hlen & Htext1 & Hbytes1 & Hused & Hnodup_ivs & Hfresh).
  cbn [usedIVs] in Hused, Hfresh. rewrite bytes_empty in Hbytes1. cbn [app] in Hbytes1.
  destruct (encrypt_hmacs_spec pt hmacInput rs ivs ∅ None (clone pt) Hnodup Hproto Hlen)
    as (tagInput & Hloop2 & Hbytes2).
  rewrite fold_setEntry_ne in Htext1 by (rewrite fst_zip_with_draft; assumption).
  cbn [JSObject.empty JSObject.own JSObject.proto] in Htext1.
  rewrite Htext1, Hloop2 in Hrun. injection Hrun as <- <-.
  assert (Hpt : bytes pt = utf8_encode plaintext ++ d).
  { unfold pt, Utf8_parse. rewrite bytes_concat, !bytes_toWordArray. reflexivity. }
  exists d, ivs. split; [exact Hd |]. split; [| auto].
  exists pt, hmacInput, tagInput.
  cbn [Envelope.text Envelope.tag Envelope.proto JSObject.own JSObject.proto].
  split; [exact Hpt |]. split; [exact Hlen |]. split.
  { apply fold_putEntry_list_to_map. rewrite fst_zip_with_sealed; assumption. }
  split; [reflexivity |].
  split. { rewrite entryBytes_sealed. exact Hbytes1. }
  split; [reflexivity |].
  rewrite Hbytes2. unfold clone. rewrite Hpt. reflexivity.
Qed.

(** What [decrypt] does with a sealed envelope, for the recipient at
    position [i], whatever the registry holds. *)
Lemma decrypt_sealed body rs ivs env i name key iv sender buddies registry :
  sealed body rs ivs env ->
  NoDup (rs.*1) -> StronglySorted cuLe (rs.*1) ->
  rs !! i = Some (name, key) -> ivs !! i = Some iv ->
  mpSecretKey sender = Some key ->
  exists mine,
    Envelope.text env !! name = Some mine /\ Entry.iv mine = iv /\
    decrypt name buddies env sender registry =
      if includes registry iv then (Throw ReplayDetected, registry)
      else if (length body <? 64)%nat then (Throw InvalidPlaintextSize, registry ++ [iv])
      else match utf8_decode (take (length body - 64) body) with
           | None => (Return (RetString ""), registry ++ [iv])
           | Some text =>
               (Return (RetObject text
                          (decrypt_missingRecipients buddies sender (Envelope.encrypted env))),
                registry ++ [iv])
           end.
Proof.
  intros (pt & hmacInput & tagInput & Hbody & Hlen & Htext & Hplain & Hhi & Htag & Htagbytes)
         Hnodup Hsorted Hr Hiv Hkey.
  set (es := zip_with (sealedEntry pt hmacInput) rs ivs) in *.
  assert (Hkeys : es.*1 = rs.*1) by (apply fst_zip_with_sealed; exact Hlen).
  set (mine := Entry.mk (encryptAES pt (Secret.message key) iv) iv
                        (Some (HMAC hmacInput (Secret.hmac key)))).
  assert (Hin : (name, mine) ∈ es).
  { apply list_elem_of_lookup. exists i. unfold es.
    rewrite lookup_zip_with, Hr. cbn. rewrite Hiv. reflexivity. }
  assert (Hmine : Envelope.text env !! name = Some mine).
  { rewrite Htext. apply elem_of_list_to_map_1; [rewrite Hkeys; exact Hnodup | exact Hin]. }
  exists mine. split; [exact Hmine |]. split; [reflexivity |].
  rewrite (decrypt_entry _ _ _ _ _ mine) by (apply get_own; exact Hmine).
  rewrite Hkey. cbn [Entry.hmac Entry.iv Entry.message mine]. cbn zeta.
  rewrite Htext, decrypt_sortedRecipients_canonical by (rewrite Hkeys; assumption).
  rewrite (HMAC_ext (decrypt_hmacInput es) hmacInput)
    by (rewrite bytes_decrypt_hmacInput; symmetry; exact Hhi).
  unfold HLP_compare. rewrite String.eqb_refl. cbn [negb].
  destruct (includes registry iv); [reflexivity |].
  rewrite decryptAES_encryptAES, Hbody. rewrite sigBytes_toWordArray.
  destruct (length body <? 64)%nat eqn:Hsize; [reflexivity |].
  apply Nat.ltb_ge in Hsize.
  destruct (decrypt_messageTag_sealed es (clone (toWordArray body))
              (sealed_has_hmac pt hmacInput rs ivs)) as (t & Ht).
  rewrite Ht.
  rewrite (createMessageTag_ext t tagInput).
  2: { apply decrypt_messageTag_bytes in Ht. rewrite Ht, Htagbytes.
       unfold clone. rewrite bytes_toWordArray. reflexivity. }
  rewrite <- Htag, String.eqb_refl. cbn [negb].
  unfold Utf8_stringify.
  rewrite bytes_prefix by (rewrite sigBytes_toWordArray; lia).
  rewrite bytes_toWordArray. reflexivity.
Qed.

End RoundTrip.

(** ** [encrypt] returns *)

Section EncryptReturns.
Context `{P : Primitives}.
Import WA WAFacts CryptoJS.

(** The registry entry a draw of the random source turns into. *)
Let ivOf (d : list byte) : string := Base64_stringify (toWordArray d).

Lemma includes_app used used' iv :
  includes (used ++ used') iv = includes used iv || includes used' iv.
Proof. unfold includes. apply existsb_app. Qed.

Lemma encrypt_entries_returns plaintext rs draws rest used text hmacInput :
  length draws = length rs ->
  Forall (fun d => length d = 12%nat) draws ->
  NoDup (map ivOf draws) ->
  (forall d, In d draws -> includes used (ivOf d) = false) ->
  exists st' text' hmacInput',
    encrypt_entries plaintext rs {| usedIVs := used; entropy := draws ++ rest |} text hmacInput
    = Some (st', text', hmacInput') /\
    entropy st' = rest /\ usedIVs st' = used ++ map ivOf draws.
Proof.
  revert draws used text hmacInput.
  induction rs as [| [name key] rs IH]; intros [| d draws] used text hmacInput Hlen Hall Hnodup Hfresh;
    try discriminate.
  - cbn. rewrite app_nil_r.
    exists {| usedIVs := used; entropy := rest |}, text, hmacInput. auto.
  - cbn [encrypt_entries usedIVs entropy app generateIV].
    apply Forall_cons in Hall as [Hd Hall]. rewrite Hd. cbn [Nat.eqb].
    fold (ivOf d). rewrite (Hfresh d) by (left; reflexivity).
    cbn [map] in Hnodup. apply NoDup_cons in Hnodup as [Hnotin Hnodup].
    destruct (IH draws (used ++ [ivOf d])
                (JSObject.set text name
                   (Entry.mk (encryptAES plaintext (Secret.message key) (ivOf d)) (ivOf d) None))
                (concat (concat hmacInput
                           (Base64_parse (encryptAES plaintext (Secret.message key) (ivOf d))))
                        (Base64_parse (ivOf d))))
      as (st' & text' & hmacInput' & Hrun & Htape & Hused).
    + cbn in Hlen. lia.
    + exact Hall.
    + exact Hnodup.
    + intros d' Hd'. rewrite includes_app, (Hfresh d') by (right; exact Hd').
      cbn. rewrite orb_false_r. apply String.eqb_neq. intros Heq.
      apply Hnotin. rewrite <- Heq. apply list_elem_of_fmap_2, list_elem_of_In. exact Hd'.
    + exists st', text', hmacInput'. split; [exact Hrun |]. split; [exact Htape |].
      rewrite Hused, <- app_assoc. reflexivity.
Qed.

(** With 64 bytes of padding on the tape, followed by one 12-byte draw per
    recipient whose encodings are pairwise distinct and not in the registry,
    [encrypt] returns an envelope and consumes exactly these draws. *)
Lemma encrypt_returns plaintext recipients used padding draws rest :
  length padding = 64%nat ->
  length draws = length (encrypt_sortedRecipients recipients) ->
  Forall (fun d => length d = 12%nat) draws ->
  NoDup (map ivOf draws) ->
  (forall d, In d draws -> includes used (ivOf d) = false) ->
  exists env st',
    encrypt plaintext recipients {| usedIVs := used; entropy := padding :: draws ++ rest |}
    = Some (env, st') /\
    entropy st' = rest /\ usedIVs st' = used ++ map ivOf draws.
Proof.
  intros Hpad Hlen Hall Hnodup Hfresh. unfold encrypt, random. cbn [entropy usedIVs].
  rewrite Hpad. cbn [Nat.eqb].
  destruct (encrypt_entries_returns
              (concat (Utf8_parse plaintext) (toWordArray padding))
              (encrypt_sortedRecipients recipients) draws rest used JSObject.empty
              (create [] None)
              Hlen Hall Hnodup Hfresh) as (st' & text' & hmacInput' & Hrun & Htape & Hused).
  rewrite Hrun.
  destruct (encrypt_hmacs _ _ _ _) as [text tag].
  eauto.
Qed.

End EncryptReturns.

(** ** The order of the recipients *)

Section RecipientOrder.
Context `{P : Primitives}.
Import SortFacts.

Lemma withSecret_Some r name key :
  withSecret r = Some (name, key) <-> name = nickname r /\ mpSecretKey r = Some key.
Proof.
  unfold withSecret. destruct (mpSecretKey r) as [k |]; split.
  - intros [= <- <-]. auto.
  - intros [-> [= ->]]. reflexivity.
  - discriminate.
  - intros [_ Hk]. discriminate.
Qed.

Lemma elem_of_withSecret recipients name key :
  (name, key) ∈ omap withSecret recipients <->
  exists r, In r recipients /\ name = nickname r /\ mpSecretKey r = Some key.
Proof.
  rewrite list_elem_of_omap. split.
  - intros (r & Hr & Hw). apply withSecret_Some in Hw. apply list_elem_of_In in Hr. eauto.
  - intros (r & Hr & Hw). exists r. split; [apply list_elem_of_In; exact Hr |].
    apply withSecret_Some. exact Hw.
Qed.

Lemma NoDup_withSecret recipients :
  NoDup (map nickname recipients) -> NoDup ((omap withSecret recipients).*1).
Proof.
  induction recipients as [| r recipients IH]; cbn [map]; intros Hnodup.
  - constructor.
  - apply NoDup_cons in Hnodup as [Hnotin Hnodup].
    change (omap withSecret (r :: recipients))
      with (match withSecret r with
            | Some y => y :: omap withSecret recipients
            | None => omap withSecret recipients
            end).
    destruct (withSecret r) as [[name key] |] eqn:Hw; [| apply IH; exact Hnodup].
    apply withSecret_Some in Hw as [-> _]. cbn. apply NoDup_cons. split; [| apply IH; exact Hnodup].
    intros Hin. apply list_elem_of_fmap in Hin as ([name key'] & Hname & Hin).
    apply elem_of_withSecret in Hin as (r' & Hr' & -> & _). cbn in Hname.
    apply Hnotin. rewrite Hname. apply list_elem_of_fmap_2. apply list_elem_of_In. exact Hr'.
Qed.

(** Where [localeCompare] ranks the nicknames as their code units do, the
    recipients of [encrypt] are in code-unit order, each with its secret. *)
Lemma encrypt_sortedRecipients_sorted recipients :
  NoDup (map nickname recipients) ->
  (forall a b, In a recipients -> In b recipients ->
     (localeCompare (nickname a) (nickname b) <? 0)
     = (codeUnitCompare (nickname a) (nickname b) <? 0)) ->
  NoDup ((encrypt_sortedRecipients recipients).*1) /\
  StronglySorted cuLe ((encrypt_sortedRecipients recipients).*1) /\
  (forall r key, In r recipients -> mpSecretKey r = Some key ->
     (nickname r, key) ∈ encrypt_sortedRecipients recipients).
Proof.
  intros Hnodup Hagree. unfold encrypt_sortedRecipients.
  set (rs0 := omap withSecret recipients).
  assert (Hsame : Array_sort (fun a b : string * Secret.t => localeCompare (fst a) (fst b)) rs0
                  = Array_sort (fun a b => codeUnitCompare (fst a) (fst b)) rs0).
  { apply Array_sort_ext. intros [n1 k1] [n2 k2] H1 H2.
    apply elem_of_withSecret in H1 as (r1 & Hr1 & -> & _).
    apply elem_of_withSecret in H2 as (r2 & Hr2 & -> & _).
    cbn [fst]. apply Hagree; assumption. }
  rewrite Hsame. split; [| split].
  - rewrite (Array_sort_perm _ rs0). apply NoDup_withSecret. exact Hnodup.
  - apply (sorted_keys fst). apply (Array_sort_sorted fst).
  - intros r key Hr Hkey. rewrite (Array_sort_perm _ rs0).
    apply elem_of_withSecret. eauto.
Qed.

(** A name no recipient with a secret bears is not among the sorted recipients. *)
Lemma sortedRecipients_not_named recipients name :
  (forall a, In a recipients -> is_Some (mpSecretKey a) -> nickname a <> name) ->
  name ∉ (encrypt_sortedRecipients recipients).*1.
Proof.
  intros Hnone Hin. apply list_elem_of_fmap in Hin as ([n key] & -> & Hin).
  unfold encrypt_sortedRecipients in Hin. rewrite Array_sort_perm in Hin.
  apply elem_of_withSecret in Hin as (a & Ha & Hn & Hkey). cbn [fst] in *.
  apply (Hnone a Ha); [rewrite Hkey; eauto | congruence].
Qed.

Lemma sortedRecipients_not_proto recipients :
  (forall a, In a recipients -> is_Some (mpSecretKey a) -> nickname a <> "__proto__") ->
  "__proto__" ∉ (encrypt_sortedRecipients recipients).*1.
Proof. apply sortedRecipients_not_named. Qed.

End RecipientOrder.

(** ** Round trip *)

Section RoundTripTheorems.
Context `{P : Primitives}.
Import WA WAFacts CryptoJS SortFacts.

Hypothesis base64_decode_encode : forall bs, base64_decode (base64_encode bs) = bs.
Hypothesis aes_decrypt_encrypt :
  forall m k c, aes_ctr_decrypt (aes_ctr_encrypt m k c) k c = m.

(** An envelope of [encrypt], decrypted by one of its recipients: the outcome
    for every registry, and the fact that the sender's registry holds the IV. *)
Lemma decrypt_of_encrypt plaintext recipients st env st' r key sender buddies :
  utf8_decode (utf8_encode plaintext) = Some plaintext ->
  encrypt plaintext recipients st = Some (env, st') ->
  NoDup (map nickname recipients) ->
  (forall a b, In a recipients -> In b recipients ->
     (localeCompare (nickname a) (nickname b) <? 0)
     = (codeUnitCompare (nickname a) (nickname b) <? 0)) ->
  (forall a, In a recipients -> is_Some (mpSecretKey a) -> nickname a <> "__proto__") ->
  In r recipients -> mpSecretKey r = Some key -> mpSecretKey sender = Some key ->
  exists mine,
    Envelope.text env !! nickname r = Some mine /\
    In (Entry.iv mine) (usedIVs st') /\
    forall registry,
      decrypt (nickname r) buddies env sender registry =
        if includes registry (Entry.iv mine) then (Throw ReplayDetected, registry)
        else (Return (RetObject plaintext
                        (decrypt_missingRecipients buddies sender (Envelope.encrypted env))),
              registry ++ [Entry.iv mine]).
Proof.
  intros Hutf8 Hrun Hnodup Hagree Hproto Hr Hkey Hsender.
  destruct (encrypt_sortedRecipients_sorted recipients Hnodup Hagree)
    as (Hnodup_rs & Hsorted & Hmember).
  destruct (encrypt_sealed plaintext recipients st env st' Hrun Hnodup_rs
              (sortedRecipients_not_proto recipients Hproto))
    as (padding & ivs & Hpad & Hsealed & _ & Hused & _ & _).
  specialize (Hmember r key Hr Hkey).
  apply list_elem_of_lookup in Hmember as (i & Hi).
  assert (Hlen : length ivs = length (encrypt_sortedRecipients recipients)).
  { destruct Hsealed as (? & ? & ? & _ & Hlen & _). exact Hlen. }
  destruct (lookup_lt_is_Some_2 ivs i) as (iv & Hiv).
  { rewrite Hlen. apply lookup_lt_Some in Hi. exact Hi. }
  destruct (decrypt_sealed base64_decode_encode aes_decrypt_encrypt
              _ _ _ _ i (nickname r) key iv sender buddies [] Hsealed Hnodup_rs Hsorted
              Hi Hiv Hsender) as (mine & Hmine & Hmine_iv & _).
  exists mine. split; [exact Hmine |]. split.
  { rewrite Hused, Hmine_iv. apply in_or_app. right.
    apply list_elem_of_In. apply list_elem_of_lookup. eauto. }
  intros registry.
  destruct (decrypt_sealed base64_decode_encode aes_decrypt_encrypt
              _ _ _ _ i (nickname r) key iv sender buddies registry Hsealed Hnodup_rs Hsorted
              Hi Hiv Hsender) as (mine' & Hmine' & _ & Hrun').
  rewrite Hrun', Hmine_iv.
  destruct (includes registry iv); [reflexivity |].
  rewrite length_app, Hpad.
  destruct (Nat.ltb_spec (length (utf8_encode plaintext) + 64) 64) as [Hlt | _]; [lia |].
  replace (length (utf8_encode plaintext) + 64 - 64)%nat
    with (length (utf8_encode plaintext)) by lia.
  rewrite take_app_length, Hutf8. reflexivity.
Qed.

(** C1 (as the code has it): for every plaintext that is valid text and every
    set of recipients with distinct nicknames that [localeCompare] ranks as
    their code units do, none of those with a resolved secret being named
    [__proto__], a recipient [r] with a resolved secret that decrypts the
    envelope of [encrypt] in a registry that does not hold the IV of its entry
    gets the original plaintext back, with the buddies that line 113 finds
    missing. *)
Theorem C1_round_trip_fresh_registry (plaintext : string) (recipients : list Buddy)
    (st : State) (env : Envelope.t) (st' : State) (r : Buddy) (key : Secret.t)
    (sender : Buddy) (buddies : list string) (registry : list string) :
  utf8_decode (utf8_encode plaintext) = Some plaintext ->
  encrypt plaintext recipients st = Some (env, st') ->
  NoDup (map nickname recipients) ->
  (forall a b, In a recipients -> In b recipients ->
     (localeCompare (nickname a) (nickname b) <? 0)
     = (codeUnitCompare (nickname a) (nickname b) <? 0)) ->
  (forall a, In a recipients -> is_Some (mpSecretKey a) -> nickname a <> "__proto__") ->
  In r recipients -> mpSecretKey r = Some key -> mpSecretKey sender = Some key ->
  (forall mine, Envelope.text env !! nickname r = Some mine ->
                includes registry (Entry.iv mine) = false) ->
  exists mine,
    Envelope.text env !! nickname r = Some mine /\
    decrypt (nickname r) buddies env sender registry
    = (Return (RetObject plaintext
                 (decrypt_missingRecipients buddies sender (Envelope.encrypted env))),
       registry ++ [Entry.iv mine]).
Proof.
  intros Hutf8 Hrun Hnodup Hagree Hproto Hr Hkey Hsender Hfresh.
  destruct (decrypt_of_encrypt plaintext recipients st env st' r key sender buddies
              Hutf8 Hrun Hnodup Hagree Hproto Hr Hkey Hsender) as (mine & Hmine & _ & Hdec).
  exists mine. split; [exact Hmine |].
  rewrite Hdec, (Hfresh mine Hmine). reflexivity.
Qed.

(** In the registry that [encrypt] itself left behind, the same call fails:
    the IV of every entry is already registered. *)
Lemma decrypt_in_sender_registry plaintext recipients st env st' r key sender buddies :
  utf8_decode (utf8_encode plaintext) = Some plaintext ->
  encrypt plaintext recipients st = Some (env, st') ->
  NoDup (map nickname recipients) ->
  (forall a b, In a recipients -> In b recipients ->
     (localeCompare (nickname a) (nickname b) <? 0)
     = (codeUnitCompare (nickname a) (nickname b) <? 0)) ->
  (forall a, In a recipients -> is_Some (mpSecretKey a) -> nickname a <> "__proto__") ->
  In r recipients -> mpSecretKey r = Some key -> mpSecretKey sender = Some key ->
  decrypt (nickname r) buddies env sender (usedIVs st')
  = (Throw ReplayDetected, usedIVs st').
Proof.
  intros Hutf8 Hrun Hnodup Hagree Hproto Hr Hkey Hsender.
  destruct (decrypt_of_encrypt plaintext recipients st env st' r key sender buddies
              Hutf8 Hrun Hnodup Hagree Hproto Hr Hkey Hsender) as (mine & Hmine & Hin & Hdec).
  rewrite Hdec. apply includes_In in Hin. rewrite Hin. reflexivity.
Qed.


End RoundTripTheorems.

(** ** Replay *)


(** ** The two sort orders *)

Section SortOrders.
Context `{P : Primitives}.
Import SortFacts.

(** C3 (where the code departs from it): [encrypt] orders the recipients with
    [localeCompare], [decrypt] orders the entries by code units.  On two
    nicknames [x] and [y] that a collation ranks [x] first and the code units
    rank [y] first (such as [a] and [B]), the sender builds the MAC input in
    the order x, y whatever the order of its recipient list, and every
    receiver rebuilds it in the order y, x. *)
Theorem C3_sort_orders_disagree (x y : string) (kx ky : Secret.t) (ex ey : Entry.t) :
  localeCompare x y < 0 ->
  0 < localeCompare y x ->
  String_as_OT.lt y x ->
  let bx := {| nickname := x; mpSecretKey := Some kx |} in
  let by_ := {| nickname := y; mpSecretKey := Some ky |} in
  (encrypt_sortedRecipients [bx; by_]).*1 = [x; y] /\
  (encrypt_sortedRecipients [by_; bx]).*1 = [x; y] /\
  (decrypt_sortedRecipients (list_to_map [(x, ex); (y, ey)])).*1 = [y; x].
Proof.
  intros Hxy Hyx Hlt bx by_.
  assert (H1 : (localeCompare y x <? 0) = false) by (apply Z.ltb_ge; lia).
  assert (H2 : (localeCompare x y <? 0) = true) by (apply Z.ltb_lt; lia).
  assert (Hne : y <> x).
  { intros ->. exact (StrictOrder_Irreflexive _ Hlt). }
  split; [| split].
  - unfold encrypt_sortedRecipients, Array_sort. cbn. rewrite H1. reflexivity.
  - unfold encrypt_sortedRecipients, Array_sort. cbn. rewrite H2. reflexivity.
  - assert (Hnodup : NoDup ([(y, ey); (x, ex)].*1)).
    { cbn. apply NoDup_cons. split; [| apply NoDup_singleton].
      rewrite list_elem_of_singleton. exact Hne. }
    rewrite (list_to_map_proper [(x, ex); (y, ey)] [(y, ey); (x, ex)]).
    + rewrite decrypt_sortedRecipients_canonical; [reflexivity | exact Hnodup |].
      cbn. repeat constructor. apply lt_cuLe. exact Hlt.
    + cbn. apply NoDup_cons. split; [| apply NoDup_singleton].
      rewrite list_elem_of_singleton. congruence.
    + apply perm_swap.
Qed.

(** On [alice] and [bob] the two orders agree: alice, then bob, whatever the
    order of the recipient list. *)
Lemma alice_before_bob (kalice kbob : Secret.t) (ealice ebob : Entry.t) :
  localeCompare "alice" "bob" < 0 ->
  0 < localeCompare "bob" "alice" ->
  let alice := {| nickname := "alice"; mpSecretKey := Some kalice |} in
  let bob := {| nickname := "bob"; mpSecretKey := Some kbob |} in
  (encrypt_sortedRecipients [bob; alice]).*1 = ["alice"; "bob"] /\
  (encrypt_sortedRecipients [alice; bob]).*1 = ["alice"; "bob"] /\
  (decrypt_sortedRecipients (list_to_map [("bob", ebob); ("alice", ealice)])).*1
  = ["alice"; "bob"].
Proof.
  intros Hab Hba alice bob.
  assert (H1 : (localeCompare "bob" "alice" <? 0) = false) by (apply Z.ltb_ge; lia).
  assert (H2 : (localeCompare "alice" "bob" <? 0) = true) by (apply Z.ltb_lt; lia).
  split; [| split].
  - unfold encrypt_sortedRecipients, Array_sort. cbn. rewrite H2. reflexivity.
  - unfold encrypt_sortedRecipients, Array_sort. cbn. rewrite H1. reflexivity.
  - assert (Hnodup : NoDup ([("alice", ealice); ("bob", ebob)].*1)).
    { cbn. apply NoDup_cons. split; [| apply NoDup_singleton].
      rewrite list_elem_of_singleton. discriminate. }
    rewrite (list_to_map_proper [("bob", ebob); ("alice", ealice)]
               [("alice", ealice); ("bob", ebob)]).
    + rewrite decrypt_sortedRecipients_canonical; [reflexivity | exact Hnodup |].
      cbn. repeat constructor. unfold cuLe, String_as_OT.lt. cbn. discriminate.
    + cbn. apply NoDup_cons. split; [| apply NoDup_singleton].
      rewrite list_elem_of_singleton. discriminate.
    + apply perm_swap.
Qed.

End SortOrders.

(** ** Tampering *)

Section Tamper.
Context `{P : Primitives}.
Import WA WAFacts CryptoJS SortFacts.

Hypothesis base64_decode_encode : forall bs, base64_decode (base64_encode bs) = bs.
Hypothesis aes_decrypt_encrypt :
  forall m k c, aes_ctr_decrypt (aes_ctr_encrypt m k c) k c = m.

Lemma base64_encode_inj bs bs' : base64_encode bs = base64_encode bs' -> bs = bs'.
Proof.
  intros Heq. apply (f_equal base64_decode) in Heq.
  rewrite !base64_decode_encode in Heq. exact Heq.
Qed.

(** Two MAC inputs that are no collision under the key give different MAC
    strings. *)
Lemma HMAC_neq a a' key :
  collisionFree (fun m => hmac_sha512 m (bytes key)) (bytes a) (bytes a') ->
  bytes a' <> bytes a -> HMAC a' key <> HMAC a key.
Proof.
  intros Hfree Hne Heq. rewrite !(HMAC_bytes) in Heq.
  apply base64_encode_inj in Heq. exact (Hfree Hne Heq).
Qed.

(** Two tag inputs that are no collision of the eight rounds give different
    tags. *)
Lemma createMessageTag_neq t t' :
  collisionFree (Nat.iter 8 sha512) (bytes t) (bytes t') ->
  bytes t' <> bytes t -> createMessageTag t' <> createMessageTag t.
Proof.
  intros Hfree Hne Heq. rewrite !createMessageTag_bytes in Heq.
  apply base64_encode_inj in Heq. exact (Hfree Hne Heq).
Qed.

(** Decryption reads the decoded ciphertext and the decoded IV only. *)
Lemma decryptAES_ext msg msg' c iv iv' :
  base64_decode msg' = base64_decode msg -> base64_decode iv' = base64_decode iv ->
  decryptAES msg' c iv' = decryptAES msg c iv.
Proof.
  intros Hmsg Hiv. unfold decryptAES, AES_decrypt, correctIvLength, Base64_parse.
  rewrite Hmsg, Hiv. reflexivity.
Qed.

Lemma insert_list_to_map_middle (es1 es2 : list (string * Entry.t)) X e e' :
  X ∉ es1.*1 ->
  <[X := e']> (list_to_map (es1 ++ (X, e) :: es2) : gmap string Entry.t)
  = list_to_map (es1 ++ (X, e') :: es2).
Proof.
  intros Hnotin. rewrite !list_to_map_app, !list_to_map_cons.
  rewrite insert_union_r by (apply not_elem_of_list_to_map_1; exact Hnotin).
  rewrite insert_insert_eq. reflexivity.
Qed.

Lemma flat_map_middle {A B} (f : A -> list B) l1 x l2 :
  flat_map f (l1 ++ x :: l2) = flat_map f l1 ++ f x ++ flat_map f l2.
Proof. rewrite flat_map_app. reflexivity. Qed.

Lemma middle_neq {A} (l1 l2 a a' : list A) :
  a' <> a -> l1 ++ a' ++ l2 <> l1 ++ a ++ l2.
Proof.
  intros Hne Heq. apply app_inv_head, app_inv_tail in Heq. contradiction.
Qed.

(** Overwriting an entry leaves the names that [in] finds as they are. *)
Lemma has_overwrite (text : gmap string Entry.t) proto X e' name :
  is_Some (text !! X) ->
  JSObject.has (JSObject.mk (<[X := e']> text) proto) name
  = JSObject.has (JSObject.mk text proto) name.
Proof.
  intros HX. unfold JSObject.has. cbn [JSObject.own JSObject.proto].
  f_equal. f_equal. apply bool_decide_ext.
  rewrite lookup_insert_is_Some. split.
  - intros [<- | [_ Hsome]]; assumption.
  - intros Hsome. destruct (decide (X = name)); [left | right]; auto.
Qed.

Lemma missingRecipients_overwrite (text : gmap string Entry.t) proto X e' buddies sender :
  is_Some (text !! X) ->
  decrypt_missingRecipients buddies sender (JSObject.mk (<[X := e']> text) proto)
  = decrypt_missingRecipients buddies sender (JSObject.mk text proto).
Proof.
  intros HX. unfold decrypt_missingRecipients.
  induction buddies as [| b buddies IH]; cbn [List.filter]; [reflexivity |].
  rewrite IH, (has_overwrite text proto X e' b HX). reflexivity.
Qed.

(** A run of [decrypt] that every check lets through. *)
Lemma decrypt_accepts myName buddies message sender registry mine key h body t :
  JSObject.get (Envelope.encrypted message) myName = JSObject.AnEntry mine ->
  mpSecretKey sender = Some key ->
  Entry.hmac mine = Some h ->
  h = HMAC (decrypt_hmacInput (decrypt_sortedRecipients (Envelope.text message)))
        (Secret.hmac key) ->
  decryptAES (Entry.message mine) (Secret.message key) (Entry.iv mine) = toWordArray body ->
  (64 <= length body)%nat ->
  decrypt_messageTag (decrypt_sortedRecipients (Envelope.text message)) (toWordArray body)
  = Some t ->
  createMessageTag t = Envelope.tag message ->
  decrypt myName buddies message sender registry
  = if includes registry (Entry.iv mine) then (Throw ReplayDetected, registry)
    else (Return match utf8_decode (take (length body - 64) body) with
                 | Some text =>
                     RetObject text
                       (decrypt_missingRecipients buddies sender (Envelope.encrypted message))
                 | None => RetString ""
                 end,
          registry ++ [Entry.iv mine]).
Proof.
  intros Hmine Hkey Hh Hmac Hdec Hsize Ht Htag.
  rewrite (decrypt_entry _ _ _ _ _ mine Hmine), Hkey, Hh. cbn zeta.
  rewrite <- Hmac. unfold HLP_compare. rewrite String.eqb_refl. cbn [negb].
  destruct (includes registry (Entry.iv mine)); [reflexivity |].
  rewrite Hdec, sigBytes_toWordArray.
  destruct (Nat.ltb_spec (length body) 64) as [Hlt | _]; [lia |].
  unfold clone. rewrite Ht, Htag, String.eqb_refl. cbn [negb].
  unfold Utf8_stringify.
  rewrite bytes_prefix by (rewrite sigBytes_toWordArray; lia).
  rewrite bytes_toWordArray.
  destruct (utf8_decode _); reflexivity.
Qed.

(** What an entry of a sealed envelope decrypts to under the key of its
    recipient. *)
Lemma sealed_body body rs ivs env name key mine :
  sealed body rs ivs env -> NoDup (rs.*1) ->
  Envelope.text env !! name = Some mine -> (name, key) ∈ rs ->
  bytes (decryptAES (Entry.message mine) (Secret.message key) (Entry.iv mine)) = body.
Proof.
  intros (pt & hmacInput & tagInput & Hpt & _ & Htext & _) Hnodup Hmine Hr.
  assert (Hin : (name, mine) ∈ zip_with (sealedEntry pt hmacInput) rs ivs).
  { apply elem_of_list_to_map_2. rewrite <- Htext. exact Hmine. }
  apply list_elem_of_lookup in Hin as (j & Hj).
  apply lookup_zip_with_Some in Hj as ([n k] & iv0 & Heq & Hrj & _).
  unfold sealedEntry in Heq. cbn [fst snd] in Heq. injection Heq as Hn Hm.
  assert (k = key) as ->.
  { apply list_elem_of_lookup_2 in Hrj. rewrite <- Hn in Hrj.
    pose proof (elem_of_list_to_map_1 (M := gmap string) _ _ _ Hnodup Hrj) as H1.
    pose proof (elem_of_list_to_map_1 (M := gmap string) _ _ _ Hnodup Hr) as H2.
    congruence. }
  rewrite Hm. cbn [Entry.message Entry.iv].
  rewrite (decryptAES_encryptAES base64_decode_encode aes_decrypt_encrypt).
  rewrite bytes_toWordArray. exact Hpt.
Qed.

(** A sealed envelope with one field of one entry modified, decrypted by the
    recipient at position [i]. *)
Lemma decrypt_modified body rs ivs env i name key iv sender buddies registry X e e' f :
  sealed body rs ivs env ->
  NoDup (rs.*1) -> StronglySorted cuLe (rs.*1) -> (64 <= length body)%nat ->
  rs !! i = Some (name, key) -> ivs !! i = Some iv ->
  mpSecretKey sender = Some key ->
  Envelope.text env !! X = Some e -> modified f e e' ->
  let text' := <[X := e']> (Envelope.text env) in
  let run := decrypt name buddies (Envelope.mk (Envelope.type env) text' (Envelope.tag env))
               sender registry in
  let iv' := if String.eqb X name then Entry.iv e' else iv in
  let undetected :=
    if includes registry iv' then (Throw ReplayDetected, registry)
    else (Return match utf8_decode (take (length body - 64) body) with
                 | Some text =>
                     RetObject text
                       (decrypt_missingRecipients buddies sender (Envelope.encrypted env))
                 | None => RetString ""
                 end,
          registry ++ [iv']) in
  match f with
  | MAC =>
      if String.eqb X name then run = (Throw AuthenticationFailure, registry)
      else
        (macBytes (X, e') <> macBytes (X, e) ->
         collisionFree (Nat.iter 8 sha512)
           (body ++ decrypt_macBytes (Envelope.text env)) (body ++ decrypt_macBytes text') ->
         run = if includes registry iv then (Throw ReplayDetected, registry)
               else (Throw TagFailure, registry ++ [iv])) /\
        (macBytes (X, e') = macBytes (X, e) -> run = undetected)
  | _ =>
      (entryBytes (X, e') <> entryBytes (X, e) ->
       collisionFree (fun m => hmac_sha512 m (bytes (Secret.hmac key)))
         (decrypt_entryBytes (Envelope.text env)) (decrypt_entryBytes text') ->
       run = (Throw AuthenticationFailure, registry)) /\
      (entryBytes (X, e') = entryBytes (X, e) -> run = undetected)
  end.
Proof.
  intros (pt & hmacInput & tagInput & Hbody & Hlen & Htext & Hplain & Hhi & Htag & Htagbytes)
         Hnodup Hsorted Hsize Hr Hiv Hkey HX Hmodified text' run iv' undetected.
  set (es := zip_with (sealedEntry pt hmacInput) rs ivs) in *.
  assert (Hkeys : es.*1 = rs.*1) by (apply fst_zip_with_sealed; exact Hlen).
  assert (Hnodup_es : NoDup (es.*1)) by (rewrite Hkeys; exact Hnodup).
  set (mine := Entry.mk (encryptAES pt (Secret.message key) iv) iv
                        (Some (HMAC hmacInput (Secret.hmac key)))).
  assert (Hin : (name, mine) ∈ es).
  { apply list_elem_of_lookup. exists i. unfold es.
    rewrite lookup_zip_with, Hr. cbn. rewrite Hiv. reflexivity. }
  assert (Hmine : Envelope.text env !! name = Some mine).
  { rewrite Htext. apply elem_of_list_to_map_1; assumption. }
  (* the modified entry sits somewhere in the sorted list *)
  assert (HinX : (X, e) ∈ es).
  { apply elem_of_list_to_map_2. rewrite <- Htext. exact HX. }
  destruct (list_elem_of_split _ _ HinX) as (es1 & es2 & Hsplit).
  assert (Hnotin1 : X ∉ es1.*1).
  { rewrite Hsplit, fmap_app in Hnodup_es. apply NoDup_app in Hnodup_es as (_ & Hdisj & _).
    intros Hin1. apply (Hdisj X Hin1). left. }
  set (es' := es1 ++ (X, e') :: es2).
  assert (Hkeys' : es'.*1 = es.*1).
  { unfold es'. rewrite Hsplit, !fmap_app. reflexivity. }
  assert (Htext' : text' = list_to_map es').
  { unfold text'. rewrite Htext, Hsplit. apply insert_list_to_map_middle. exact Hnotin1. }
  assert (Hsorted_es : decrypt_sortedRecipients (Envelope.text env) = es).
  { rewrite Htext. apply decrypt_sortedRecipients_canonical; rewrite Hkeys; assumption. }
  assert (Hsorted_es' : decrypt_sortedRecipients text' = es').
  { rewrite Htext'. apply decrypt_sortedRecipients_canonical; rewrite Hkeys', Hkeys; assumption. }
  unfold decrypt_entryBytes, decrypt_macBytes. rewrite Hsorted_es, Hsorted_es'.
  assert (Hhi' : flat_map entryBytes es'
                 = flat_map entryBytes es1 ++ entryBytes (X, e') ++ flat_map entryBytes es2)
    by apply flat_map_middle.
  assert (Hhi0 : flat_map entryBytes es
                 = flat_map entryBytes es1 ++ entryBytes (X, e) ++ flat_map entryBytes es2).
  { rewrite Hsplit. apply flat_map_middle. }
  assert (Hmacs' : flat_map macBytes es'
                   = flat_map macBytes es1 ++ macBytes (X, e') ++ flat_map macBytes es2)
    by apply flat_map_middle.
  assert (Hmacs0 : flat_map macBytes es
                   = flat_map macBytes es1 ++ macBytes (X, e) ++ flat_map macBytes es2).
  { rewrite Hsplit. apply flat_map_middle. }
  set (mine' := if String.eqb X name then e' else mine).
  assert (Hlook : JSObject.get (Envelope.encrypted
                                  (Envelope.mk (Envelope.type env) text' (Envelope.tag env))) name
                  = JSObject.AnEntry mine').
  { apply get_own. unfold Envelope.encrypted, Envelope.mk. cbn [Envelope.text JSObject.own].
    unfold text', mine'. destruct (String.eqb_spec X name) as [-> | Hne].
    - apply lookup_insert_eq.
    - rewrite lookup_insert_ne by exact Hne. exact Hmine. }
  assert (Hmine_e : X = name -> e = mine) by (intros ->; congruence).
  assert (Hhas_hmac : exists h', Entry.hmac e' = Some h').
  { destruct f; cbn [modified] in Hmodified.
    - destruct Hmodified as (_ & _ & ->).
      pose proof (sealed_has_hmac pt hmacInput rs ivs) as Hall. fold es in Hall.
      rewrite Forall_forall in Hall. destruct (Hall _ HinX) as [h Hh]. eauto.
    - destruct Hmodified as (_ & _ & ->).
      pose proof (sealed_has_hmac pt hmacInput rs ivs) as Hall. fold es in Hall.
      rewrite Forall_forall in Hall. destruct (Hall _ HinX) as [h Hh]. eauto.
    - destruct Hmodified as ((h & h' & _ & Hh' & _) & _). eauto. }
  assert (Hsealed' : Forall (fun x => is_Some (Entry.hmac (snd x))) es').
  { pose proof (sealed_has_hmac pt hmacInput rs ivs) as Hall. fold es in Hall.
    rewrite Hsplit in Hall. apply Forall_app in Hall as [Hall1 Hall2].
    apply Forall_cons in Hall2 as [_ Hall2].
    apply Forall_app. split; [exact Hall1 |]. apply Forall_cons. split; [| exact Hall2].
    cbn. destruct Hhas_hmac as [h' ->]. eauto. }
  destruct (decrypt_messageTag_sealed es' (toWordArray body) Hsealed') as (t & Ht).
  assert (Htbytes : bytes t = body ++ flat_map macBytes es').
  { apply decrypt_messageTag_bytes in Ht. rewrite Ht, bytes_toWordArray. reflexivity. }
  (* the MAC that the sender computed, against the one [decrypt] recomputes *)
  assert (Hmac_same : flat_map entryBytes es' = flat_map entryBytes es ->
                      HMAC (decrypt_hmacInput es') (Secret.hmac key)
                      = HMAC hmacInput (Secret.hmac key)).
  { intros Heq. apply HMAC_ext. rewrite bytes_decrypt_hmacInput, Hhi. exact Heq. }
  assert (Hmac_diff : collisionFree (fun m => hmac_sha512 m (bytes (Secret.hmac key)))
                        (flat_map entryBytes es) (flat_map entryBytes es') ->
                      flat_map entryBytes es' <> flat_map entryBytes es ->
                      HMAC hmacInput (Secret.hmac key)
                      <> HMAC (decrypt_hmacInput es') (Secret.hmac key)).
  { intros Hmac_free Hne. apply not_eq_sym, HMAC_neq.
    - rewrite bytes_decrypt_hmacInput, Hhi. exact Hmac_free.
    - rewrite bytes_decrypt_hmacInput, Hhi. exact Hne. }
  (* the run when every check passes *)
  assert (Haccept :
            Entry.hmac mine' = Some (HMAC hmacInput (Secret.hmac key)) ->
            base64_decode (Entry.message mine') = base64_decode (Entry.message mine) ->
            base64_decode (Entry.iv mine') = base64_decode (Entry.iv mine) ->
            Entry.iv mine' = iv' ->
            flat_map entryBytes es' = flat_map entryBytes es ->
            flat_map macBytes es' = flat_map macBytes es ->
            run = undetected).
  { intros Hh' Hmsg' Hiv' Hiv'' Hsame Hsame_macs. unfold run, undetected.
    rewrite <- Hiv''.
    rewrite (decrypt_accepts name buddies _ sender registry mine' key
               (HMAC hmacInput (Secret.hmac key)) body t Hlook Hkey Hh').
    - unfold Envelope.encrypted, Envelope.mk. cbn [Envelope.text Envelope.proto].
      unfold text'. rewrite missingRecipients_overwrite by (rewrite HX; eauto).
      rewrite Hplain. reflexivity.
    - unfold Envelope.mk; cbn [Envelope.text]. rewrite Hsorted_es'. symmetry. apply Hmac_same, Hsame.
    - rewrite (decryptAES_ext (Entry.message mine) _ _ (Entry.iv mine)) by assumption.
      change (Entry.iv mine) with iv.
      change (Entry.message mine) with (encryptAES pt (Secret.message key) iv).
      rewrite (decryptAES_encryptAES base64_decode_encode aes_decrypt_encrypt), Hbody.
      reflexivity.
    - exact Hsize.
    - unfold Envelope.mk; cbn [Envelope.text]. rewrite Hsorted_es'. exact Ht.
    - unfold Envelope.mk; cbn [Envelope.tag]. rewrite Htag. apply createMessageTag_ext.
      rewrite Htbytes, Htagbytes, Hsame_macs. reflexivity. }
  (* the run when the caller's MAC does not match *)
  assert (Hreject :
            forall h', Entry.hmac mine' = Some h' ->
                       h' <> HMAC (decrypt_hmacInput es') (Secret.hmac key) ->
                       run = (Throw AuthenticationFailure, registry)).
  { intros h' Hh' Hne. unfold run.
    rewrite (decrypt_entry _ _ _ _ _ mine' Hlook), Hkey, Hh'. cbn zeta.
    unfold Envelope.mk; cbn [Envelope.text]. rewrite Hsorted_es'. unfold HLP_compare.
    apply String.eqb_neq in Hne. rewrite Hne. reflexivity. }
  assert (Hiv'_ne : X <> name -> iv' = iv).
  { intros Hne. unfold iv'. apply String.eqb_neq in Hne. rewrite Hne. reflexivity. }
  destruct f; cbn [modified] in Hmodified.
  - (* ciphertext *)
    destruct Hmodified as (_ & Hiv_e & Hmac_e).
    split.
    + intros Hne Hmac_free. unfold mine' in Hreject.
      assert (Hdiff : flat_map entryBytes es' <> flat_map entryBytes es).
      { rewrite Hhi', Hhi0. apply middle_neq. exact Hne. }
      destruct (String.eqb_spec X name) as [HXn | HXn].
      * apply (Hreject (HMAC hmacInput (Secret.hmac key)));
          [| apply Hmac_diff; assumption].
        rewrite Hmac_e, (Hmine_e HXn). reflexivity.
      * apply (Hreject (HMAC hmacInput (Secret.hmac key))); [reflexivity |].
        apply Hmac_diff; assumption.
    + intros Heq.
      assert (Hmsg : base64_decode (Entry.message e') = base64_decode (Entry.message e)).
      { unfold entryBytes in Heq. cbn [snd] in Heq. rewrite Hiv_e in Heq.
        apply app_inv_tail in Heq. exact Heq. }
      unfold mine', iv' in Haccept.
      destruct (String.eqb_spec X name) as [HXn | HXn].
      * rewrite <- (Hmine_e HXn) in Haccept.
        apply Haccept; try assumption; try reflexivity.
        -- rewrite Hmac_e, (Hmine_e HXn). reflexivity.
        -- rewrite Hiv_e. reflexivity.
        -- rewrite Hhi', Hhi0, Heq. reflexivity.
        -- rewrite Hmacs', Hmacs0. unfold macBytes. cbn [snd]. rewrite Hmac_e. reflexivity.
      * apply Haccept; try reflexivity.
        -- rewrite Hhi', Hhi0, Heq. reflexivity.
        -- rewrite Hmacs', Hmacs0. unfold macBytes. cbn [snd]. rewrite Hmac_e. reflexivity.
  - (* IV *)
    destruct Hmodified as (_ & Hmsg_e & Hmac_e).
    split.
    + intros Hne Hmac_free. unfold mine' in Hreject.
      assert (Hdiff : flat_map entryBytes es' <> flat_map entryBytes es).
      { rewrite Hhi', Hhi0. apply middle_neq. exact Hne. }
      destruct (String.eqb_spec X name) as [HXn | HXn].
      * apply (Hreject (HMAC hmacInput (Secret.hmac key)));
          [| apply Hmac_diff; assumption].
        rewrite Hmac_e, (Hmine_e HXn). reflexivity.
      * apply (Hreject (HMAC hmacInput (Secret.hmac key))); [reflexivity |].
        apply Hmac_diff; assumption.
    + intros Heq.
      assert (Hivb : base64_decode (Entry.iv e') = base64_decode (Entry.iv e)).
      { unfold entryBytes in Heq. cbn [snd] in Heq. rewrite Hmsg_e in Heq.
        apply app_inv_head in Heq. exact Heq. }
      unfold mine', iv' in Haccept.
      destruct (String.eqb_spec X name) as [HXn | HXn].
      * rewrite <- (Hmine_e HXn) in Haccept.
        apply Haccept; try assumption; try reflexivity.
        -- rewrite Hmac_e, (Hmine_e HXn). reflexivity.
        -- rewrite Hmsg_e. reflexivity.
        -- rewrite Hhi', Hhi0, Heq. reflexivity.
        -- rewrite Hmacs', Hmacs0. unfold macBytes. cbn [snd]. rewrite Hmac_e. reflexivity.
      * apply Haccept; try reflexivity.
        -- rewrite Hhi', Hhi0, Heq. reflexivity.
        -- rewrite Hmacs', Hmacs0. unfold macBytes. cbn [snd]. rewrite Hmac_e. reflexivity.
  - (* MAC *)
    destruct Hmodified as ((h & h' & Hh & Hh' & Hhne) & Hmsg_e & Hiv_e).
    assert (Hsame : flat_map entryBytes es' = flat_map entryBytes es).
    { rewrite Hhi', Hhi0. unfold entryBytes. cbn [snd]. rewrite Hmsg_e, Hiv_e. reflexivity. }
    unfold mine' in Hreject, Haccept, Hlook. unfold iv' in Haccept.
    destruct (String.eqb_spec X name) as [HXn | HXn].
    + apply (Hreject h' Hh'). rewrite (Hmac_same Hsame).
      rewrite (Hmine_e HXn) in Hh. cbn [mine Entry.hmac] in Hh. congruence.
    + split.
      * intros Hne Htag_free. unfold run.
        rewrite (decrypt_entry _ _ _ _ _ mine Hlook), Hkey.
        change (Entry.hmac mine) with (Some (HMAC hmacInput (Secret.hmac key))).
        change (Entry.iv mine) with iv.
        change (Entry.message mine) with (encryptAES pt (Secret.message key) iv).
        cbn zeta. unfold Envelope.mk; cbn [Envelope.text Envelope.tag].
        rewrite Hsorted_es', (Hmac_same Hsame). unfold HLP_compare.
        rewrite String.eqb_refl. cbn [negb].
        destruct (includes registry iv); [reflexivity |].
        rewrite (decryptAES_encryptAES base64_decode_encode aes_decrypt_encrypt), Hbody.
        rewrite sigBytes_toWordArray.
        destruct (Nat.ltb_spec (length body) 64) as [Hlt | _]; [lia |].
        unfold clone. rewrite Ht.
        assert (Hneq : createMessageTag t <> Envelope.tag env).
        { rewrite Htag. apply createMessageTag_neq.
          - rewrite Htbytes, Htagbytes. exact Htag_free.
          - rewrite Htbytes, Htagbytes, Hmacs', Hmacs0.
            intros Heq. apply app_inv_head in Heq. revert Heq. apply middle_neq. exact Hne. }
        apply String.eqb_neq in Hneq. rewrite Hneq. reflexivity.
      * intros Heq. apply Haccept; try reflexivity.
        -- exact Hsame.
        -- rewrite Hmacs', Hmacs0, Heq. reflexivity.
Qed.

(** C2 (as the code has it): take an envelope of [encrypt] (distinct
    nicknames, none of them [__proto__], ranked by [localeCompare] as by their
    code units), replace the ciphertext, the IV or the MAC of one entry [X] by
    another string, and let a recipient [r] decrypt it.
    - A new MAC string in the entry of [r] itself fails with
      [AuthenticationFailure].
    - A ciphertext or an IV that decodes to other bytes fails with
      [AuthenticationFailure], unless the old and the new MAC input collide
      under the key of [r].
    - A MAC of another entry that decodes to other bytes fails with
      [TagFailure] if the IV of [r] is not yet registered and with
      [ReplayDetected] if it is, unless the old and the new tag input collide
      in the eight rounds of the hash.
    - A string that decodes to the same bytes goes undetected: [decrypt]
      answers as for the envelope of [encrypt], checking and registering the
      IV string it finds in the entry of [r]. *)
Theorem C2_tamper_detected (plaintext : string) (recipients : list Buddy)
    (st : State) (env : Envelope.t) (st' : State)
    (X : string) (e e' : Entry.t) (f : Field)
    (r : Buddy) (key : Secret.t) (mine : Entry.t) (sender : Buddy)
    (buddies : list string) (registry : list string) :
  encrypt plaintext recipients st = Some (env, st') ->
  NoDup (map nickname recipients) ->
  (forall a b, In a recipients -> In b recipients ->
     (localeCompare (nickname a) (nickname b) <? 0)
     = (codeUnitCompare (nickname a) (nickname b) <? 0)) ->
  (forall a, In a recipients -> is_Some (mpSecretKey a) -> nickname a <> "__proto__") ->
  Envelope.text env !! X = Some e -> modified f e e' ->
  In r recipients -> mpSecretKey r = Some key -> mpSecretKey sender = Some key ->
  Envelope.text env !! nickname r = Some mine ->
  let text' := <[X := e']> (Envelope.text env) in
  let body := bytes (decryptAES (Entry.message mine) (Secret.message key) (Entry.iv mine)) in
  let run := decrypt (nickname r) buddies
               (Envelope.mk (Envelope.type env) text' (Envelope.tag env)) sender registry in
  let iv' := if String.eqb X (nickname r) then Entry.iv e' else Entry.iv mine in
  let undetected :=
    if includes registry iv' then (Throw ReplayDetected, registry)
    else (Return match utf8_decode (utf8_encode plaintext) with
                 | Some text =>
                     RetObject text
                       (decrypt_missingRecipients buddies sender (Envelope.encrypted env))
                 | None => RetString ""
                 end,
          registry ++ [iv']) in
  match f with
  | MAC =>
      if String.eqb X (nickname r) then run = (Throw AuthenticationFailure, registry)
      else
        (macBytes (X, e') <> macBytes (X, e) ->
         collisionFree (Nat.iter 8 sha512)
           (body ++ decrypt_macBytes (Envelope.text env)) (body ++ decrypt_macBytes text') ->
         run = if includes registry (Entry.iv mine) then (Throw ReplayDetected, registry)
               else (Throw TagFailure, registry ++ [Entry.iv mine])) /\
        (macBytes (X, e') = macBytes (X, e) -> run = undetected)
  | _ =>
      (entryBytes (X, e') <> entryBytes (X, e) ->
       collisionFree (fun m => hmac_sha512 m (bytes (Secret.hmac key)))
         (decrypt_entryBytes (Envelope.text env)) (decrypt_entryBytes text') ->
       run = (Throw AuthenticationFailure, registry)) /\
      (entryBytes (X, e') = entryBytes (X, e) -> run = undetected)
  end.
Proof.
  intros Hrun Hnodup Hagree Hproto HX Hmodified Hr Hkey Hsender Hmine text' body.
  destruct (encrypt_sortedRecipients_sorted recipients Hnodup Hagree)
    as (Hnodup_rs & Hsorted & Hmember).
  destruct (encrypt_sealed plaintext recipients st env st' Hrun Hnodup_rs
              (sortedRecipients_not_proto recipients Hproto))
    as (padding & ivs & Hpad & Hsealed & _).
  specialize (Hmember r key Hr Hkey).
  apply list_elem_of_lookup in Hmember as (i & Hi).
  assert (Hlen : length ivs = length (encrypt_sortedRecipients recipients)).
  { destruct Hsealed as (? & ? & ? & _ & Hlen & _). exact Hlen. }
  destruct (lookup_lt_is_Some_2 ivs i) as (iv & Hiv).
  { rewrite Hlen. apply lookup_lt_Some in Hi. exact Hi. }
  destruct (decrypt_sealed base64_decode_encode aes_decrypt_encrypt
              _ _ _ _ i (nickname r) key iv sender buddies [] Hsealed Hnodup_rs Hsorted
              Hi Hiv Hsender) as (mine0 & Hmine0 & Hmine_iv & _).
  assert (mine0 = mine) as -> by congruence.
  assert (Hbody : body = utf8_encode plaintext ++ padding).
  { apply (sealed_body _ _ _ env (nickname r) key mine Hsealed Hnodup_rs);
      [exact Hmine | apply list_elem_of_lookup_2 in Hi; exact Hi]. }
  rewrite Hbody. subst iv.
  pose proof (decrypt_modified _ _ _ env i (nickname r) key (Entry.iv mine) sender buddies
                registry X e e' f Hsealed Hnodup_rs Hsorted) as Hmain.
  rewrite length_app, Hpad in Hmain.
  replace (length (utf8_encode plaintext) + 64 - 64)%nat
    with (length (utf8_encode plaintext)) in Hmain by lia.
  rewrite take_app_length in Hmain.
  apply Hmain; try assumption. lia.
Qed.

End Tamper.

(** ** Runs on the reference instances *)

Module RefRuns.
Import Ref RefFacts.

Lemma recipients_distinct : NoDup (map nickname [bob; alice]).
Proof.
  apply NoDup_cons. split; [| apply NoDup_singleton].
  rewrite list_elem_of_singleton. discriminate.
Qed.

Lemma collate_agrees (a b : Buddy) :
  In a [bob; alice] -> In b [bob; alice] ->
  (collate (nickname a) (nickname b) <? 0) = (codeUnitCompare (nickname a) (nickname b) <? 0).
Proof. intros [<- | [<- | []]] [<- | [<- | []]]; reflexivity. Qed.

Lemma recipients_not_proto (a : Buddy) :
  In a [bob; alice] -> is_Some (mpSecretKey a) -> nickname a <> "__proto__".
Proof. intros [<- | [<- | []]] _; discriminate. Qed.

(** An entry with another MAC string. *)
Lemma modified_mac (e : Entry.t) (change : string -> string) (h : string) :
  Entry.hmac e = Some h -> change h <> h ->
  modified MAC e (Entry.mk (Entry.message e) (Entry.iv e) (option_map change (Entry.hmac e))).
Proof.
  intros Hh Hne. cbn [modified Entry.hmac Entry.message Entry.iv].
  split; [| split; reflexivity].
  exists h, (change h). rewrite Hh. auto.
Qed.

(** An entry with another ciphertext string. *)
Lemma modified_ciphertext (e : Entry.t) (change : string -> string) :
  change (Entry.message e) <> Entry.message e ->
  modified Ciphertext e (Entry.mk (change (Entry.message e)) (Entry.iv e) (Entry.hmac e)).
Proof.
  intros Hne. cbn [modified Entry.hmac Entry.message Entry.iv].
  split; [exact Hne | split; reflexivity].
Qed.

End RefRuns.

(** ** The statements at concrete inputs *)

Lemma C10_witness :
  length Ref.alicePriv = 32%nat /\
  parsePublicKey (P := Ref.prims) (PublicKey.encoded (publicKeyFromPrivate (P := Ref.prims) Ref.alicePriv))
  = PublicKey.raw (publicKeyFromPrivate (P := Ref.prims) Ref.alicePriv).
Proof.
  split; [reflexivity |].
  apply (C10_parsePublicKey_left_inverse (P := Ref.prims)
           RefFacts.length_pointwise_base RefFacts.transport_decode_encode Ref.alicePriv).
  reflexivity.
Defined.

Lemma C8_witness :
  scalarMult (Primitives := Ref.prims) Ref.myPriv
    (PublicKey.raw (publicKeyFromPrivate (P := Ref.prims) Ref.bobPriv))
  = scalarMult (Primitives := Ref.prims) Ref.bobPriv
      (PublicKey.raw (publicKeyFromPrivate (P := Ref.prims) Ref.myPriv)) /\
  let a := Ref.myPriv in
  let B := PublicKey.raw (publicKeyFromPrivate (P := Ref.prims) Ref.bobPriv) in
  let b := Ref.bobPriv in
  let A := PublicKey.raw (publicKeyFromPrivate (P := Ref.prims) Ref.myPriv) in
  let digest := sha512 (Primitives := Ref.prims) (scalarMult (Primitives := Ref.prims) a B) in
  WA.bytes (Secret.message (sharedSecret (P := Ref.prims) a B)) = take 32 digest /\
  WA.bytes (Secret.hmac (sharedSecret (P := Ref.prims) a B)) = drop 32 digest /\
  length (take 32 digest) = 32%nat /\
  length (drop 32 digest) = 32%nat /\
  Secret.message (sharedSecret (P := Ref.prims) a B)
  = Secret.message (sharedSecret (P := Ref.prims) b A) /\
  Secret.hmac (sharedSecret (P := Ref.prims) a B)
  = Secret.hmac (sharedSecret (P := Ref.prims) b A).
Proof.
  assert (Hcomm : scalarMult (Primitives := Ref.prims) Ref.myPriv
                    (PublicKey.raw (publicKeyFromPrivate (P := Ref.prims) Ref.bobPriv))
                  = scalarMult (Primitives := Ref.prims) Ref.bobPriv
                      (PublicKey.raw (publicKeyFromPrivate (P := Ref.prims) Ref.myPriv)))
    by (vm_compute; reflexivity).
  split; [exact Hcomm |].
  exact (C8_sharedSecret_split_and_symmetric (P := Ref.prims) RefFacts.length_digest64
           Ref.myPriv (PublicKey.raw (publicKeyFromPrivate (P := Ref.prims) Ref.myPriv))
           Ref.bobPriv (PublicKey.raw (publicKeyFromPrivate (P := Ref.prims) Ref.bobPriv)) Hcomm).
Defined.

Lemma C9_witness :
  length (base64_decode (Primitives := Ref.prims) "QUFBQUFBQUFBQUFB") = 12%nat /\
  WA.bytes (correctIvLength (P := Ref.prims) "QUFBQUFBQUFBQUFB")
  = [x41; x41; x41; x41; x41; x41; x41; x41; x41; x41; x41; x41; x00; x00; x00; x00].
Proof.
  split; [reflexivity |].
  apply (C9_counter_block_zero_extended (P := Ref.prims) "QUFBQUFBQUFBQUFB"
           (WA.toWordArray [x68; x69]) (Secret.message Ref.bobSecret) "short").
  reflexivity.
Defined.



Lemma C5_witness :
  decrypt (P := Ref.prims) "bob" [] (Ref.withTag "forged" Ref.envelope)
    (Ref.meFor Ref.bobPriv) []
  = (Throw TagFailure, ["QkJCQkJCQkJCQkJC"]) /\
  released (fst (decrypt (P := Ref.prims) "bob" [] (Ref.withTag "forged" Ref.envelope)
                   (Ref.meFor Ref.bobPriv) [])) = None /\
  exists mine,
    JSObject.get (Envelope.encrypted (Ref.withTag "forged" Ref.envelope)) "bob"
    = JSObject.AnEntry mine /\
    includes [] (Entry.iv mine) = false /\
    ["QkJCQkJCQkJCQkJC"] = [] ++ [Entry.iv mine].
Proof.
  assert (Hrun : decrypt (P := Ref.prims) "bob" [] (Ref.withTag "forged" Ref.envelope)
                   (Ref.meFor Ref.bobPriv) []
                 = (Throw TagFailure, ["QkJCQkJCQkJCQkJC"]))
    by (vm_compute; reflexivity).
  split; [exact Hrun |].
  exact (C5_registry_after_failure (P := Ref.prims) "bob" []
           (Ref.withTag "forged" Ref.envelope) (Ref.meFor Ref.bobPriv) []
           TagFailure ["QkJCQkJCQkJCQkJC"] Hrun).
Defined.

(** The claim C5 as stated fails: a decryption that ends in [TagFailure] has
    changed the registry. *)
Lemma C5_counterexample :
  fst (decrypt (P := Ref.prims) "bob" [] (Ref.withTag "forged" Ref.envelope)
         (Ref.meFor Ref.bobPriv) []) = Throw TagFailure /\
  snd (decrypt (P := Ref.prims) "bob" [] (Ref.withTag "forged" Ref.envelope)
         (Ref.meFor Ref.bobPriv) []) <> [].
Proof. split; [vm_compute; reflexivity | vm_compute; discriminate]. Qed.

Lemma C6_witness :
  (length (WA.bytes (decryptAES (P := Ref.prims) "short" (Secret.message Ref.bobSecret)
                       "QUFBQUFBQUFBQUFB")) < 64)%nat /\
  decrypt (P := Ref.prims) "bob" []
    (Envelope.mk (Envelope.type Ref.shortSealed) (Envelope.text Ref.shortSealed) "any tag")
    (Ref.meFor Ref.bobPriv) []
  = (Throw InvalidPlaintextSize, [] ++ ["QUFBQUFBQUFBQUFB"]).
Proof.
  assert (Hshort : (length (WA.bytes (decryptAES (P := Ref.prims) "short"
                                        (Secret.message Ref.bobSecret) "QUFBQUFBQUFBQUFB")) < 64)%nat)
    by (vm_compute; lia).
  split; [exact Hshort |].
  apply (C6_size_floor_before_tag (P := Ref.prims) "bob" [] Ref.shortSealed
           (Ref.meFor Ref.bobPriv) []
           (Entry.mk "short" "QUFBQUFBQUFBQUFB" (Some Ref.shortMac)) Ref.bobSecret Ref.shortMac);
    first [exact Hshort | vm_compute; reflexivity].
Defined.

(** The claim C6 as stated fails: an entry that decrypts to 5 bytes under a
    MAC that does not match fails with [AuthenticationFailure]. *)
Lemma C6_counterexample :
  (length (WA.bytes (decryptAES (P := Ref.prims) (Entry.message Ref.shortDraft)
                       (Secret.message Ref.bobSecret) (Entry.iv Ref.shortDraft))) < 64)%nat /\
  Envelope.text Ref.shortForged !! "bob" = Some Ref.shortDraft /\
  decrypt (P := Ref.prims) "bob" [] Ref.shortForged (Ref.meFor Ref.bobPriv) []
  = (Throw AuthenticationFailure, []).
Proof. split; [vm_compute; lia | split; vm_compute; reflexivity]. Qed.

Lemma C7_witness :
  decrypt (P := Ref.prims) "bob" ["alice"] Ref.unprintable (Ref.meFor Ref.bobPriv) []
  = (Return (RetString ""), [] ++ ["QUFBQUFBQUFBQUFB"]) /\
  forall text missingRecipients usedIVs',
    decrypt (P := Ref.prims) "bob" ["alice"] Ref.unprintable (Ref.meFor Ref.bobPriv) []
    <> (Return (RetObject text missingRecipients), usedIVs').
Proof.
  apply (C7_decode_failure_returns_bare_string (P := Ref.prims) "bob" ["alice"]
           Ref.unprintable (Ref.meFor Ref.bobPriv) []
           (Ref.entryOf "bob" Ref.unprintable) Ref.bobSecret
           (Ref.hmacOf (Ref.entryOf "bob" Ref.unprintable))
           (Ref.messageTagOf Ref.unprintable));
    first [vm_compute; reflexivity | vm_compute; lia].
Defined.

Lemma C3_witness :
  localeCompare (Primitives := Ref.prims) "a" "B" < 0 /\
  0 < localeCompare (Primitives := Ref.prims) "B" "a" /\
  String_as_OT.lt "B" "a" /\
  (encrypt_sortedRecipients (P := Ref.prims) [Ref.lowerA; Ref.upperB]).*1 = ["a"; "B"] /\
  (encrypt_sortedRecipients (P := Ref.prims) [Ref.upperB; Ref.lowerA]).*1 = ["a"; "B"] /\
  (decrypt_sortedRecipients
     (list_to_map [("a", Ref.entryOf "a" Ref.mixedCase);
                   ("B", Ref.entryOf "B" Ref.mixedCase)])).*1 = ["B"; "a"].
Proof.
  split; [reflexivity |]. split; [reflexivity |]. split; [reflexivity |].
  apply (C3_sort_orders_disagree (P := Ref.prims) "a" "B"
           (sharedSecret (P := Ref.prims) Ref.myPriv
              (PublicKey.raw (publicKeyFromPrivate (P := Ref.prims) Ref.alicePriv)))
           (sharedSecret (P := Ref.prims) Ref.myPriv
              (PublicKey.raw (publicKeyFromPrivate (P := Ref.prims) Ref.bobPriv)))
           (Ref.entryOf "a" Ref.mixedCase) (Ref.entryOf "B" Ref.mixedCase));
    reflexivity.
Defined.

(** The consequence for a genuine envelope addressed to [a] and [B]: both
    recipients reject it. *)
Example mixed_case_envelope_rejected :
  encrypt (P := Ref.prims) "hi" [Ref.lowerA; Ref.upperB] Ref.st0
  = Some (Ref.mixedCase, {| usedIVs := ["QUFBQUFBQUFBQUFB"; "QkJCQkJCQkJCQkJC"];
                            entropy := [repeat x43 12] |}) /\
  decrypt (P := Ref.prims) "a" [] Ref.mixedCase (Ref.meFor Ref.alicePriv) []
  = (Throw AuthenticationFailure, []) /\
  decrypt (P := Ref.prims) "B" [] Ref.mixedCase (Ref.meFor Ref.bobPriv) []
  = (Throw AuthenticationFailure, []).
Proof. repeat split; vm_compute; reflexivity. Qed.

Lemma C1_witness :
  exists mine,
    Envelope.text Ref.envelope !! "bob" = Some mine /\
    decrypt (P := Ref.prims) "bob" ["alice"; "bob"; "carol"] Ref.envelope
      (Ref.meFor Ref.bobPriv) []
    = (Return (RetObject "hi"
                 (decrypt_missingRecipients ["alice"; "bob"; "carol"]
                    (Ref.meFor Ref.bobPriv) (Envelope.encrypted Ref.envelope))),
       [] ++ [Entry.iv mine]).
Proof.
  apply (C1_round_trip_fresh_registry (P := Ref.prims)
           RefFacts.transport_decode_encode RefFacts.stream_decrypt_encrypt
           "hi" [Ref.bob; Ref.alice] Ref.st0 Ref.envelope Ref.sentState
           Ref.bob Ref.bobSecret (Ref.meFor Ref.bobPriv) ["alice"; "bob"; "carol"] []).
  - reflexivity.
  - vm_compute. reflexivity.
  - exact RefRuns.recipients_distinct.
  - exact RefRuns.collate_agrees.
  - exact RefRuns.recipients_not_proto.
  - left. reflexivity.
  - reflexivity.
  - vm_compute. reflexivity.
  - intros mine _. reflexivity.
Defined.

(** The claim C1 as stated fails: in the registry [encrypt] left behind, a
    recipient of the envelope gets [ReplayDetected]. *)
Lemma C1_counterexample :
  encrypt (P := Ref.prims) "hi" [Ref.bob; Ref.alice] Ref.st0
  = Some (Ref.envelope, Ref.sentState) /\
  decrypt (P := Ref.prims) "bob" [] Ref.envelope (Ref.meFor Ref.bobPriv)
    (usedIVs Ref.sentState)
  = (Throw ReplayDetected, usedIVs Ref.sentState).
Proof. split; vm_compute; reflexivity. Qed.

Lemma C2_witness :
  decrypt (P := Ref.prims) "bob" [] Ref.macTampered (Ref.meFor Ref.bobPriv) []
  = (Throw TagFailure, [] ++ ["QkJCQkJCQkJCQkJC"]) /\
  decrypt (P := Ref.prims) "bob" [] Ref.macReencoded (Ref.meFor Ref.bobPriv) []
  = (Return (RetObject "hi" []), [] ++ ["QkJCQkJCQkJCQkJC"]) /\
  decrypt (P := Ref.prims) "bob" [] Ref.ciphertextTampered (Ref.meFor Ref.bobPriv) []
  = (Throw AuthenticationFailure, []).
Proof.
  split; [| split].
  - refine (proj1 (C2_tamper_detected (P := Ref.prims)
                     RefFacts.transport_decode_encode RefFacts.stream_decrypt_encrypt
                     "hi" [Ref.bob; Ref.alice] Ref.st0 Ref.envelope Ref.sentState
                     "alice" (Ref.entryOf "alice" Ref.envelope)
                     (Ref.flipMac (Ref.entryOf "alice" Ref.envelope)) MAC
                     Ref.bob Ref.bobSecret (Ref.entryOf "bob" Ref.envelope)
                     (Ref.meFor Ref.bobPriv) [] []
                     _ RefRuns.recipients_distinct RefRuns.collate_agrees
                     RefRuns.recipients_not_proto _ _ _ _ _ _) _ _).
    + vm_compute. reflexivity.
    + vm_compute. reflexivity.
    + eapply RefRuns.modified_mac; [vm_compute; reflexivity | vm_compute; discriminate].
    + left. reflexivity.
    + reflexivity.
    + vm_compute. reflexivity.
    + vm_compute. reflexivity.
    + vm_compute. discriminate.
    + intros _. vm_compute. discriminate.
  - refine (proj2 (C2_tamper_detected (P := Ref.prims)
                     RefFacts.transport_decode_encode RefFacts.stream_decrypt_encrypt
                     "hi" [Ref.bob; Ref.alice] Ref.st0 Ref.envelope Ref.sentState
                     "alice" (Ref.entryOf "alice" Ref.envelope)
                     (Ref.reencodeMac (Ref.entryOf "alice" Ref.envelope)) MAC
                     Ref.bob Ref.bobSecret (Ref.entryOf "bob" Ref.envelope)
                     (Ref.meFor Ref.bobPriv) [] []
                     _ RefRuns.recipients_distinct RefRuns.collate_agrees
                     RefRuns.recipients_not_proto _ _ _ _ _ _) _).
    + vm_compute. reflexivity.
    + vm_compute. reflexivity.
    + eapply RefRuns.modified_mac; [vm_compute; reflexivity | vm_compute; discriminate].
    + left. reflexivity.
    + reflexivity.
    + vm_compute. reflexivity.
    + vm_compute. reflexivity.
    + vm_compute. reflexivity.
  - refine (proj1 (C2_tamper_detected (P := Ref.prims)
                     RefFacts.transport_decode_encode RefFacts.stream_decrypt_encrypt
                     "hi" [Ref.bob; Ref.alice] Ref.st0 Ref.envelope Ref.sentState
                     "alice" (Ref.entryOf "alice" Ref.envelope)
                     (Ref.flipMessage (Ref.entryOf "alice" Ref.envelope)) Ciphertext
                     Ref.bob Ref.bobSecret (Ref.entryOf "bob" Ref.envelope)
                     (Ref.meFor Ref.bobPriv) [] []
                     _ RefRuns.recipients_distinct RefRuns.collate_agrees
                     RefRuns.recipients_not_proto _ _ _ _ _ _) _ _).
    + vm_compute. reflexivity.
    + vm_compute. reflexivity.
    + apply (RefRuns.modified_ciphertext _ Ref.flipFirst). vm_compute. discriminate.
    + left. reflexivity.
    + reflexivity.
    + vm_compute. reflexivity.
    + vm_compute. reflexivity.
    + vm_compute. discriminate.
    + intros _. vm_compute. discriminate.
Defined.

(** The claim C2 as stated fails, twice.  Bob accepts the genuine envelope,
    then gets the same envelope with the first character of alice's MAC
    replaced: [decrypt] fails with [ReplayDetected], neither
    [AuthenticationFailure] nor [TagFailure].  And with the last character of
    alice's MAC replaced by its neighbour in the alphabet, the MAC decodes to
    the same bytes and [decrypt] returns the plaintext. *)
Lemma C2_counterexample :
  encrypt (P := Ref.prims) "hi" [Ref.bob; Ref.alice] Ref.st0
  = Some (Ref.envelope, Ref.sentState) /\
  (modified MAC (Ref.entryOf "alice" Ref.envelope) (Ref.entryOf "alice" Ref.macTampered) /\
   charReplaced (Ref.hmacOf (Ref.entryOf "alice" Ref.envelope))
     (Ref.hmacOf (Ref.entryOf "alice" Ref.macTampered)) /\
   decrypt (P := Ref.prims) "bob" [] Ref.envelope (Ref.meFor Ref.bobPriv) []
   = (Return (RetObject "hi" []), ["QkJCQkJCQkJCQkJC"]) /\
   decrypt (P := Ref.prims) "bob" [] Ref.macTampered (Ref.meFor Ref.bobPriv)
     ["QkJCQkJCQkJCQkJC"]
   = (Throw ReplayDetected, ["QkJCQkJCQkJCQkJC"])) /\
  (modified MAC (Ref.entryOf "alice" Ref.envelope) (Ref.entryOf "alice" Ref.macReencoded) /\
   charReplaced (Ref.hmacOf (Ref.entryOf "alice" Ref.envelope))
     (Ref.hmacOf (Ref.entryOf "alice" Ref.macReencoded)) /\
   decrypt (P := Ref.prims) "bob" [] Ref.macReencoded (Ref.meFor Ref.bobPriv) []
   = (Return (RetObject "hi" []), ["QkJCQkJCQkJCQkJC"])).
Proof.
  split; [vm_compute; reflexivity |]. split.
  - split; [| split; [| split]].
    + replace (Ref.entryOf "alice" Ref.macTampered)
        with (Ref.flipMac (Ref.entryOf "alice" Ref.envelope)) by (vm_compute; reflexivity).
      eapply RefRuns.modified_mac; [vm_compute; reflexivity | vm_compute; discriminate].
    + exists EmptyString, "F"%char, "A"%char. eexists.
      split; [discriminate |]. split.
      * vm_compute. reflexivity.
      * vm_compute. reflexivity.
    + vm_compute. reflexivity.
    + vm_compute. reflexivity.
  - split; [| split].
    + replace (Ref.entryOf "alice" Ref.macReencoded)
        with (Ref.reencodeMac (Ref.entryOf "alice" Ref.envelope)) by (vm_compute; reflexivity).
      eapply RefRuns.modified_mac; [vm_compute; reflexivity | vm_compute; discriminate].
    + exists "FBQUFBQUFBQUFBQUFBQUFBQUFBQUFBQUFBQUFBQUFBSoqUdHR0dHR0dHR0dHR0dHR0dHR0dHR0dHR0dHR0dHR",
        "w"%char, "x"%char, "==".
      split; [discriminate |]. split.
      * vm_compute. reflexivity.
      * vm_compute. reflexivity.
    + vm_compute. reflexivity.
Qed.

(** ** The conversions on concrete bytes *)

Example toWordArray_abcde :
  WA.toWordArray [x61; x62; x63; x64; x65] = WA.mk [1633837924; 1694498816] 5.
Proof. reflexivity. Qed.

Example toWordArray_high_bit :
  WA.toWordArray [xff; x00; x00; x01] = WA.mk [-16777215] 4.
Proof. reflexivity. Qed.

Example fromWordArray_high_bit :
  WA.fromWordArray (WA.mk [-16777215] 4) = [xff; x00; x00; x01].
Proof. reflexivity. Qed.

(** On a byte count that is not a multiple of four, [fromWordArray] returns
    the zero bytes that fill the last word as well. *)
Example fromWordArray_partial_word :
  WA.fromWordArray (WA.toWordArray [x61; x62; x63; x64; x65])
  = [x61; x62; x63; x64; x65; x00; x00; x00].
Proof. reflexivity. Qed.

(* ================================================================== *)
(** * Further properties of the module *)
(* ================================================================== *)

(** ** Key generation and fingerprints *)

Module FingerprintFacts.
Import JS JSFacts.

(** An upper-cased hexadecimal digit, by position. *)
Lemma upperChar_digit n :
  0 <= n < 16 -> JSString.upperChar (Hex.digit n) = nth (Z.to_nat n) upperHexDigits "0"%char.
Proof.
  intros Hn. unfold Hex.digit.
  assert (Hlt : (Z.to_nat n < 16)%nat) by lia.
  revert Hlt. generalize (Z.to_nat n) as i. intros i Hlt.
  do 16 (destruct i as [| i]; [reflexivity |]). lia.
Qed.

Lemma upperHexDigits_NoDup : List.NoDup upperHexDigits.
Proof.
  apply (NoDup_count_occ' ascii_dec). intros c Hc.
  repeat (destruct Hc as [<- | Hc]; [reflexivity |]). destruct Hc.
Qed.

Lemma nibbles b :
  0 <= Z.shiftr (ofByte b) 4 < 16 /\ 0 <= Z.land (ofByte b) 15 < 16 /\
  ofByte b = Z.shiftr (ofByte b) 4 * 16 + Z.land (ofByte b) 15.
Proof.
  pose proof (ofByte_range b) as Hb.
  rewrite Z.shiftr_div_pow2 by lia.
  change 15 with (Z.ones 4). rewrite Z.land_ones by lia.
  change (2 ^ 4) with 16. Z.div_mod_to_equations. lia.
Qed.

(** The two characters a byte contributes to a fingerprint. *)
Lemma upper_stringify_byte b :
  map JSString.upperChar (Hex.stringify_byte b)
  = [nth (Z.to_nat (Z.shiftr (ofByte b) 4)) upperHexDigits "0"%char;
     nth (Z.to_nat (Z.land (ofByte b) 15)) upperHexDigits "0"%char].
Proof.
  destruct (nibbles b) as (Hhi & Hlo & _).
  unfold Hex.stringify_byte. cbn [map].
  rewrite !upperChar_digit by assumption. reflexivity.
Qed.

Lemma upperHexDigit_inj n m :
  0 <= n < 16 -> 0 <= m < 16 ->
  nth (Z.to_nat n) upperHexDigits "0"%char = nth (Z.to_nat m) upperHexDigits "0"%char ->
  n = m.
Proof.
  intros Hn Hm Heq.
  assert (Z.to_nat n = Z.to_nat m); [| lia].
  apply (proj1 (List.NoDup_nth upperHexDigits "0"%char) upperHexDigits_NoDup);
    [cbn; lia | cbn; lia | exact Heq].
Qed.

Lemma upper_stringify_byte_inj b b' :
  map JSString.upperChar (Hex.stringify_byte b)
  = map JSString.upperChar (Hex.stringify_byte b') -> b = b'.
Proof.
  rewrite !upper_stringify_byte. intros [= Hhi Hlo].
  destruct (nibbles b) as (Hb1 & Hb2 & Hb), (nibbles b') as (Hb1' & Hb2' & Hb').
  apply upperHexDigit_inj in Hhi; [| assumption ..].
  apply upperHexDigit_inj in Hlo; [| assumption ..].
  rewrite <- (ToUint8_ofByte b), <- (ToUint8_ofByte b'). f_equal. lia.
Qed.

Lemma upperHex_inj bs bs' : upperHex bs = upperHex bs' -> bs = bs'.
Proof.
  revert bs'. induction bs as [| b bs IH]; intros [| b' bs'].
  - reflexivity.
  - cbn [upperHex flat_map]. rewrite upper_stringify_byte. discriminate.
  - cbn [upperHex flat_map]. rewrite upper_stringify_byte. discriminate.
  - cbn [upperHex flat_map]. intros Heq.
    apply app_inj_1 in Heq as [Hb Hrest]; [| reflexivity].
    f_equal; [apply upper_stringify_byte_inj, Hb | apply IH, Hrest].
Qed.

Lemma length_upperHex bs : length (upperHex bs) = (2 * length bs)%nat.
Proof.
  induction bs as [| b bs IH]; [reflexivity |].
  cbn [upperHex flat_map]. rewrite length_app, length_map. fold (upperHex bs).
  rewrite IH. cbn. lia.
Qed.

Lemma upperHex_digits bs : Forall (fun c => In c upperHexDigits) (upperHex bs).
Proof.
  induction bs as [| b bs IH]; [constructor |].
  cbn [upperHex flat_map]. rewrite upper_stringify_byte.
  destruct (nibbles b) as (Hhi & Hlo & _).
  cbn [app]. constructor; [| constructor; [| exact IH]];
    apply nth_In; cbn; lia.
Qed.

Lemma length_string_of_list_ascii l : String.length (string_of_list_ascii l) = length l.
Proof. induction l as [| c l IH]; cbn; [| rewrite IH]; reflexivity. Qed.

Lemma toUpperCase_list l :
  JSString.toUpperCase (string_of_list_ascii l)
  = string_of_list_ascii (map JSString.upperChar l).
Proof. induction l as [| c l IH]; cbn; [| rewrite IH]; reflexivity. Qed.

Lemma substring_prefix n l :
  JSString.substring 0 n (string_of_list_ascii l) = string_of_list_ascii (take n l).
Proof.
  unfold JSString.substring. rewrite Nat.min_0_l, Nat.max_0_l, Nat.sub_0_r.
  revert l. induction n as [| n IH]; intros [| c l]; cbn; try reflexivity.
  rewrite IH. reflexivity.
Qed.

Lemma take_stringify n bs :
  take (2 * n) (flat_map Hex.stringify_byte bs) = flat_map Hex.stringify_byte (take n bs).
Proof.
  revert bs. induction n as [| n IH]; intros [| b bs]; try reflexivity.
  replace (2 * S n)%nat with (S (S (2 * n))) by lia.
  cbn [flat_map Hex.stringify_byte app take]. rewrite <- IH. reflexivity.
Qed.

Section Closed.
Context `{P : Primitives}.

(** A fingerprint is the upper-case hexadecimal form of the first 20 bytes
    of the digest. *)
Lemma fingerprint_closed publicKey :
  fingerprint publicKey = string_of_list_ascii (upperHex (take 20 (sha512 publicKey))).
Proof.
  unfold fingerprint, Hex.stringify, CryptoJS.SHA512.
  rewrite !WAFacts.bytes_toWordArray, substring_prefix.
  change 40%nat with (2 * 20)%nat. rewrite take_stringify, toUpperCase_list.
  f_equal. unfold upperHex.
  induction (take 20 (sha512 publicKey)) as [| b bs IH]; [reflexivity |].
  cbn [flat_map]. rewrite map_app, IH. reflexivity.
Qed.

End Closed.

End FingerprintFacts.

(** X1: with a 64-byte digest, the fingerprint of every public key has exactly 40
    characters, each one of [0123456789ABCDEF]. *)
Theorem fingerprint_format `{P : Primitives} (publicKey : list byte) :
  (forall m, length (sha512 m) = 64%nat) ->
  String.length (fingerprint publicKey) = 40%nat /\
  Forall (fun c => In c upperHexDigits) (list_ascii_of_string (fingerprint publicKey)).
Proof.
  intros Hlen. rewrite FingerprintFacts.fingerprint_closed.
  split.
  - rewrite FingerprintFacts.length_string_of_list_ascii, FingerprintFacts.length_upperHex.
    rewrite length_take, Hlen. reflexivity.
  - rewrite list_ascii_of_string_of_list_ascii. apply FingerprintFacts.upperHex_digits.
Qed.

(** X2: two public keys have the same fingerprint exactly when the first 20 bytes
    of their digests agree: the fingerprint shows these 20 bytes and nothing
    of the 44 that follow. *)
Theorem fingerprint_eq_iff `{P : Primitives} (publicKey publicKey' : list byte) :
  fingerprint publicKey = fingerprint publicKey'
  <-> take 20 (sha512 publicKey) = take 20 (sha512 publicKey').
Proof.
  rewrite !FingerprintFacts.fingerprint_closed. split.
  - intros Heq. apply FingerprintFacts.upperHex_inj.
    rewrite <- (list_ascii_of_string_of_list_ascii (upperHex (take 20 (sha512 publicKey)))).
    rewrite Heq. apply list_ascii_of_string_of_list_ascii.
  - intros ->. reflexivity.
Qed.

(** X3: every key [newPrivateKey] returns is the next 32 bytes of the random source;
    where the base-point multiplication yields 32 bytes and decoding undoes
    the transport encoding, its public key has 32 bytes, [parsePublicKey]
    gives the raw public key back from the encoded one, and both have the
    same fingerprint. *)
Theorem newPrivateKey_public_key `{P : Primitives}
    (tape tape' : list (list byte)) (privateKey : list byte) :
  (forall n, length n = 32%nat -> length (scalarMult_base n) = 32%nat) ->
  (forall bs, base64_decode (base64_encode bs) = bs) ->
  newPrivateKey tape = Some (privateKey, tape') ->
  length privateKey = 32%nat /\
  tape = privateKey :: tape' /\
  let publicKey := publicKeyFromPrivate privateKey in
  length (PublicKey.raw publicKey) = 32%nat /\
  parsePublicKey (PublicKey.encoded publicKey) = PublicKey.raw publicKey /\
  fingerprint (parsePublicKey (PublicKey.encoded publicKey))
  = fingerprint (PublicKey.raw publicKey).
Proof.
  intros Hbase Hb64. unfold newPrivateKey, getRandomValues, Uint8Array_new.
  rewrite repeat_length.
  destruct tape as [| d tape0]; [discriminate |].
  destruct (Nat.eqb_spec (length d) 32) as [Hd |]; [| discriminate].
  intros [= <- <-]. split; [exact Hd |]. split; [reflexivity |].
  cbn zeta. unfold publicKeyFromPrivate. cbn [PublicKey.raw PublicKey.encoded].
  pose proof (Hbase d Hd) as Hpub.
  assert (Hparse : parsePublicKey (CryptoJS.Base64_stringify (WA.toWordArray (scalarMult_base d)))
                   = scalarMult_base d).
  { unfold parsePublicKey, CryptoJS.Base64_parse, CryptoJS.Base64_stringify.
    rewrite WAFacts.bytes_toWordArray, Hb64.
    apply WAFacts.fromWordArray_toWordArray. rewrite Hpub. reflexivity. }
  rewrite Hparse. auto.
Qed.

(** ** The conversions between byte arrays and word arrays, on every input *)

Module ConversionFacts.
Import JS JSFacts WA WAFacts.

Lemma length_wordPadding n : (length (wordPadding n) = (4 - n mod 4) mod 4)%nat.
Proof. apply repeat_length. Qed.

Lemma wordPadding_nil n : wordPadding n = [] <-> (n mod 4 = 0)%nat.
Proof.
  unfold wordPadding. pose proof (Nat.mod_upper_bound n 4 ltac:(lia)) as Hn.
  destruct (n mod 4)%nat as [| [| [| [| k]]]] eqn:Hmod; cbn; split;
    first [reflexivity | discriminate | lia].
Qed.

Lemma word4_int32 b0 b1 b2 b3 : int32 (word4 b0 b1 b2 b3).
Proof. apply ToInt32_range. Qed.

Lemma pack_int32 bs : Forall int32 (pack bs).
Proof.
  induction bs as [| a | a b | a b c | a b c d l IH] using list_ind4; cbn [pack];
    repeat constructor; try apply word4_int32. exact IH.
Qed.

Lemma fromWordArray_pack bs n :
  fromWordArray (mk (pack bs) n) = bs ++ wordPadding (length bs).
Proof.
  rewrite fromWordArray_byteAt. cbn [words].
  rewrite length_pack, <- length_wordPadding.
  rewrite (map_ext _ (fun i => nth i bs x00)) by (intros; apply byteAt_pack).
  unfold wordPadding at 2. rewrite <- (map_nth_seq_pad bs x00).
  rewrite length_wordPadding. reflexivity.
Qed.

(** The four bytes [fromWordArray] takes out of a word are those of its
    32-bit two's complement form. *)
Lemma word4_unpack x :
  word4 (ToUint8 (sar x 24)) (ToUint8 (bitand (sar x 16) 255))
        (ToUint8 (bitand (sar x 8) 255)) (ToUint8 (bitand x 255))
  = ToInt32 x.
Proof.
  destruct (unpack_byteAt x []) as (-> & -> & -> & ->).
  change (byteAt [x] 0) with (ToUint8 (Z.land (Z.shiftr (ToInt32 x) 24) 255)).
  change (byteAt [x] 1) with (ToUint8 (Z.land (Z.shiftr (ToInt32 x) 16) 255)).
  change (byteAt [x] 2) with (ToUint8 (Z.land (Z.shiftr (ToInt32 x) 8) 255)).
  change (byteAt [x] 3) with (ToUint8 (Z.land (Z.shiftr (ToInt32 x) 0) 255)).
  rewrite !byte_extract by lia.
  unfold word4. rewrite !RefFacts.ofByte_ToUint8.
  match goal with
  | |- ToInt32 ?s = _ => assert (Hsum : s = x mod 2 ^ 32)
  end.
  { change (2 ^ 24) with 16777216. change (2 ^ 16) with 65536. change (2 ^ 8) with 256.
    change (2 ^ 0) with 1. change (2 ^ 32) with 4294967296.
    Z.div_mod_to_equations. lia. }
  rewrite Hsum. unfold ToInt32. rewrite Z.mod_mod by lia. reflexivity.
Qed.

Lemma pack_fromWordArray ws n :
  pack (fromWordArray (mk ws n)) = map ToInt32 ws.
Proof.
  unfold fromWordArray. cbn [words].
  induction ws as [| x ws IH]; [reflexivity |].
  cbn [flat_map map app pack]. rewrite IH, word4_unpack. reflexivity.
Qed.

Lemma length_fromWordArray w : (length (fromWordArray w) = length (words w) * 4)%nat.
Proof. rewrite fromWordArray_byteAt, length_map, length_seq. reflexivity. Qed.

End ConversionFacts.

(** X4: for every byte array, the word array [toWordArray] builds has the bytes
    of the array as its significant bytes, their number as [sigBytes], one
    word per started group of four bytes, and every word is a signed 32-bit
    integer. *)
Theorem toWordArray_significant_bytes (bs : list byte) :
  WA.bytes (WA.toWordArray bs) = bs /\
  WA.sigBytes (WA.toWordArray bs) = length bs /\
  (length (WA.words (WA.toWordArray bs)) * 4
   = length bs + length (wordPadding (length bs)))%nat /\
  Forall int32 (WA.words (WA.toWordArray bs)).
Proof.
  split; [apply WAFacts.bytes_toWordArray |].
  split; [apply WAFacts.sigBytes_toWordArray |].
  rewrite WAFacts.toWordArray_pack. cbn [WA.words].
  split; [| apply ConversionFacts.pack_int32].
  rewrite ConversionFacts.length_wordPadding. apply WAFacts.length_pack.
Qed.

(** X5: [fromWordArray] after [toWordArray] returns the bytes followed by the
    zero bytes that fill the last word; it returns the bytes themselves
    exactly when their number is a multiple of four. *)
Theorem fromWordArray_toWordArray_padded (bs : list byte) :
  WA.fromWordArray (WA.toWordArray bs) = bs ++ wordPadding (length bs) /\
  (WA.fromWordArray (WA.toWordArray bs) = bs <-> (length bs mod 4 = 0)%nat).
Proof.
  rewrite WAFacts.toWordArray_pack, ConversionFacts.fromWordArray_pack.
  split; [reflexivity |].
  rewrite <- ConversionFacts.wordPadding_nil. split.
  - intros Heq. apply (f_equal length) in Heq. rewrite length_app in Heq.
    apply nil_length_inv. lia.
  - intros ->. apply app_nil_r.
Qed.

(** X6: [toWordArray] after [fromWordArray] returns the words reduced to signed
    32-bit integers, all their bytes significant; on words that are signed
    32-bit integers it returns the word array with all its bytes
    significant. *)
Theorem toWordArray_fromWordArray (w : WA.WordArray) :
  WA.toWordArray (WA.fromWordArray w)
  = WA.mk (map JS.ToInt32 (WA.words w)) (length (WA.words w) * 4) /\
  (Forall int32 (WA.words w) ->
   WA.toWordArray (WA.fromWordArray w) = WA.create (WA.words w) None).
Proof.
  assert (Heq : WA.toWordArray (WA.fromWordArray w)
                = WA.mk (map JS.ToInt32 (WA.words w)) (length (WA.words w) * 4)).
  { rewrite WAFacts.toWordArray_pack, ConversionFacts.length_fromWordArray.
    destruct w as [ws n]. rewrite ConversionFacts.pack_fromWordArray. reflexivity. }
  split; [exact Heq |].
  intros Hall. rewrite Heq. unfold WA.create. f_equal. clear Heq.
  induction Hall as [| x ws Hx _ IH]; [reflexivity |].
  cbn [map]. rewrite IH, JSFacts.ToInt32_small by exact Hx. reflexivity.
Qed.

(** X7: [fromWordArray] does not read [sigBytes]: it returns four bytes for every
    word, of which the significant bytes of the word array are the first
    ones. *)
Theorem fromWordArray_beyond_sigBytes (w : WA.WordArray) :
  (WA.sigBytes w <= length (WA.words w) * 4)%nat ->
  length (WA.fromWordArray w) = (length (WA.words w) * 4)%nat /\
  take (WA.sigBytes w) (WA.fromWordArray w) = WA.bytes w.
Proof.
  intros Hsig. split; [apply ConversionFacts.length_fromWordArray |].
  rewrite WAFacts.fromWordArray_byteAt. unfold WA.bytes.
  rewrite firstn_map, take_seq, Nat.min_l by exact Hsig. reflexivity.
Qed.


(** ** Keys and IVs of any length *)

Section AnyLength.
Context `{P : Primitives}.
Import WA WAFacts CryptoJS.

Lemma bytes_correctIvLength iv :
  bytes (correctIvLength iv)
  = base64_decode iv ++ wordPadding (length (base64_decode iv)) ++ [x00; x00; x00; x00].
Proof.
  unfold correctIvLength, Base64_parse. rewrite toWordArray_pack. cbn [words].
  set (d := base64_decode iv).
  unfold bytes, create. cbn [words sigBytes].
  rewrite (map_ext _ (fun i => nth i d x00))
    by (intros i; rewrite byteAt_app_zero; apply byteAt_pack).
  rewrite length_app, Nat.mul_add_distr_r, length_pack. cbn [length].
  rewrite <- Nat.add_assoc, map_nth_seq_pad, repeat_app. reflexivity.
Qed.

Lemma padded_length_12 n : (n + (4 - n mod 4) mod 4 = 12 <-> 9 <= n <= 12)%nat.
Proof.
  pose proof (Nat.div_mod_eq n 4) as Hn.
  pose proof (Nat.mod_upper_bound n 4 ltac:(lia)) as Hr.
  destruct (n mod 4)%nat as [| [| [| [| k]]]]; cbn; lia.
Qed.

End AnyLength.

(** X8: [parsePublicKey] checks no length: for every encoded string it returns
    the decoded bytes followed by the zero bytes that fill the last word, so
    its result always has a multiple of four bytes. *)
Theorem parsePublicKey_any_length `{P : Primitives} (encodedPublicKey : string) :
  let decoded := base64_decode encodedPublicKey in
  parsePublicKey encodedPublicKey = decoded ++ wordPadding (length decoded) /\
  (length (parsePublicKey encodedPublicKey) mod 4 = 0)%nat.
Proof.
  intros decoded.
  assert (Heq : parsePublicKey encodedPublicKey = decoded ++ wordPadding (length decoded)).
  { unfold parsePublicKey, CryptoJS.Base64_parse.
    rewrite WAFacts.toWordArray_pack. apply ConversionFacts.fromWordArray_pack. }
  split; [exact Heq |].
  unfold parsePublicKey. rewrite ConversionFacts.length_fromWordArray.
  apply Nat.Div0.mod_mul.
Qed.

(** X9: [correctIvLength] checks no length: for every encoded IV, the counter
    block is the decoded bytes, the zero bytes that fill the last word, and
    four zero bytes; it has 16 bytes exactly when the IV decodes to 9, 10, 11
    or 12 bytes. *)
Theorem correctIvLength_any_length `{P : Primitives} (iv : string) :
  let decoded := base64_decode iv in
  WA.bytes (correctIvLength iv)
  = decoded ++ wordPadding (length decoded) ++ [x00; x00; x00; x00] /\
  (length (WA.bytes (correctIvLength iv)) = 16%nat <-> (9 <= length decoded <= 12)%nat).
Proof.
  intros decoded. split; [apply bytes_correctIvLength |].
  rewrite bytes_correctIvLength. fold decoded.
  rewrite !length_app, ConversionFacts.length_wordPadding. cbn [length].
  rewrite <- (padded_length_12 (length decoded)). lia.
Qed.


(** ** The envelope [encrypt] builds *)

Section EnvelopeShape.
Context `{P : Primitives}.
Import WA WAFacts CryptoJS SortFacts.

(** An object without an own property [__proto__], as [encrypt] has it all
    along: what the two assignments do to it. *)
Lemma set_unfold (text : JSObject.t) (name : string) (entry : Entry.t) :
  JSObject.own text !! "__proto__" = None ->
  JSObject.set text name entry
  = if String.eqb name "__proto__" then JSObject.mk (JSObject.own text) (Some entry)
    else JSObject.mk (<[name := entry]> (JSObject.own text)) (JSObject.proto text).
Proof.
  intros Hnone. unfold JSObject.set.
  destruct (String.eqb_spec name "__proto__") as [-> | Hne].
  - rewrite Hnone. reflexivity.
  - destruct (JSObject.own text !! name); reflexivity.
Qed.

Lemma set_hmac_unfold (text : JSObject.t) (name : string) (h : string) :
  JSObject.own text !! "__proto__" = None ->
  JSObject.set_hmac text name h
  = let assign e := Entry.mk (Entry.message e) (Entry.iv e) (Some h) in
    if String.eqb name "__proto__"
    then JSObject.mk (JSObject.own text) (assign <$> JSObject.proto text)
    else JSObject.mk (alter assign name (JSObject.own text)) (JSObject.proto text).
Proof.
  intros Hnone. cbn zeta.
  destruct (String.eqb_spec name "__proto__") as [-> | Hne].
  - unfold JSObject.set_hmac. rewrite Hnone. reflexivity.
  - apply set_hmac_ne. exact Hne.
Qed.

Lemma set_no_own_proto (text : JSObject.t) (name : string) (entry : Entry.t) :
  JSObject.own text !! "__proto__" = None ->
  JSObject.own (JSObject.set text name entry) !! "__proto__" = None.
Proof.
  intros Hnone. rewrite set_unfold by exact Hnone.
  destruct (String.eqb_spec name "__proto__") as [-> | Hne]; cbn [JSObject.own];
    [exact Hnone |].
  rewrite lookup_insert_ne by exact Hne. exact Hnone.
Qed.

Lemma set_hmac_no_own_proto (text : JSObject.t) (name : string) (h : string) :
  JSObject.own text !! "__proto__" = None ->
  JSObject.own (JSObject.set_hmac text name h) !! "__proto__" = None.
Proof.
  intros Hnone. rewrite set_hmac_unfold by exact Hnone. cbn zeta.
  destruct (String.eqb_spec name "__proto__") as [-> | Hne]; cbn [JSObject.own];
    [exact Hnone |].
  rewrite lookup_alter_ne by exact Hne. exact Hnone.
Qed.

(** The first loop adds an own entry for every recipient it runs over but
    [__proto__], whose entry becomes the prototype. *)
Lemma encrypt_entries_dom plaintext rs st text hmacInput st' text' hmacInput' :
  encrypt_entries plaintext rs st text hmacInput = Some (st', text', hmacInput') ->
  JSObject.own text !! "__proto__" = None ->
  JSObject.own text' !! "__proto__" = None /\
  (forall name, is_Some (JSObject.own text' !! name) <->
                is_Some (JSObject.own text !! name) \/ name <> "__proto__" /\ name ∈ rs.*1) /\
  (is_Some (JSObject.proto text') <->
   is_Some (JSObject.proto text) \/ "__proto__" ∈ rs.*1).
Proof.
  revert st text hmacInput.
  induction rs as [| [n key] rs IH]; intros st text hmacInput; cbn [encrypt_entries].
  - intros [= <- <- <-] Hnone. split; [exact Hnone |]. cbn. split.
    + intros name. rewrite elem_of_nil. tauto.
    + rewrite elem_of_nil. tauto.
  - destruct (generateIV (usedIVs st) (entropy st)) as [[iv tape] |]; [| discriminate].
    intros Hrest Hnone.
    destruct (IH _ _ _ Hrest (set_no_own_proto _ _ _ Hnone)) as (Hnone' & Hown & Hproto).
    split; [exact Hnone' |].
    rewrite set_unfold in Hown, Hproto by exact Hnone.
    cbn [fmap list_fmap fst]. split.
    + intros name. rewrite (Hown name), elem_of_cons.
      destruct (String.eqb_spec n "__proto__") as [-> | Hne]; cbn [JSObject.own].
      * intuition congruence.
      * rewrite lookup_insert_is_Some. destruct (decide (n = name)); intuition congruence.
    + rewrite Hproto, elem_of_cons.
      destruct (String.eqb_spec n "__proto__") as [-> | Hne]; cbn [JSObject.proto].
      * split; [auto | intros _; left; eauto].
      * intuition congruence.
Qed.

(** The second loop keeps the own properties, their ciphertexts and their
    IVs, and gives the entry of every recipient it runs over a MAC. *)
Lemma encrypt_hmacs_lookup hmacInput rs text tag text' tag' :
  encrypt_hmacs hmacInput rs text tag = (text', tag') ->
  JSObject.own text !! "__proto__" = None ->
  (forall name e',
      JSObject.own text' !! name = Some e' ->
      exists e, JSObject.own text !! name = Some e /\
                Entry.message e' = Entry.message e /\ Entry.iv e' = Entry.iv e /\
                (is_Some (Entry.hmac e) \/ name ∈ rs.*1 -> is_Some (Entry.hmac e'))) /\
  (forall e',
      JSObject.proto text' = Some e' ->
      exists e, JSObject.proto text = Some e /\
                Entry.message e' = Entry.message e /\ Entry.iv e' = Entry.iv e /\
                (is_Some (Entry.hmac e) \/ "__proto__" ∈ rs.*1 -> is_Some (Entry.hmac e'))).
Proof.
  revert text tag.
  induction rs as [| [n key] rs IH]; intros text tag; cbn [encrypt_hmacs].
  - intros [= <- <-] Hnone. split.
    + intros name e' He'. exists e'. repeat split; try assumption.
      cbn. rewrite elem_of_nil. tauto.
    + intros e' He'. exists e'. repeat split; try assumption.
      cbn. rewrite elem_of_nil. tauto.
  - intros Hrest Hnone.
    destruct (IH _ _ Hrest (set_hmac_no_own_proto _ _ _ Hnone)) as [Hown Hproto].
    rewrite set_hmac_unfold in Hown, Hproto by exact Hnone. cbn zeta in Hown, Hproto.
    cbn [fmap list_fmap fst]. split.
    + intros name e' He'.
      destruct (Hown name e' He') as (e1 & He1 & Hm & Hiv & Hmac).
      destruct (String.eqb_spec n "__proto__") as [-> | Hne]; cbn [JSObject.own] in He1.
      * exists e1. split; [exact He1 |]. split; [exact Hm |]. split; [exact Hiv |].
        rewrite elem_of_cons. intros [Hsome | [-> | Hin]];
          [apply Hmac; left; exact Hsome | congruence | apply Hmac; right; exact Hin].
      * apply lookup_alter_Some in He1 as [(<- & e & He & ->) | (Hne' & He1)].
        -- exists e. split; [exact He |]. cbn [Entry.message Entry.iv Entry.hmac] in *.
           split; [exact Hm |]. split; [exact Hiv |]. intros _.
           apply Hmac. left. eauto.
        -- exists e1. split; [exact He1 |]. split; [exact Hm |]. split; [exact Hiv |].
           rewrite elem_of_cons. intros [Hsome | [-> | Hin]];
             [apply Hmac; left; exact Hsome | congruence | apply Hmac; right; exact Hin].
    + intros e' He'.
      destruct (Hproto e' He') as (e1 & He1 & Hm & Hiv & Hmac).
      destruct (String.eqb_spec n "__proto__") as [-> | Hne]; cbn [JSObject.proto] in He1.
      * destruct (JSObject.proto text) as [e |]; [| discriminate].
        cbn in He1. injection He1 as <-. cbn [Entry.message Entry.iv Entry.hmac] in *.
        exists e. split; [reflexivity |]. split; [exact Hm |]. split; [exact Hiv |].
        intros _. apply Hmac. left. eauto.
      * exists e1. split; [exact He1 |]. split; [exact Hm |]. split; [exact Hiv |].
        rewrite elem_of_cons. intros [Hsome | [Heq | Hin]];
          [apply Hmac; left; exact Hsome | congruence | apply Hmac; right; exact Hin].
Qed.

Lemma encrypt_hmacs_dom hmacInput rs text tag text' tag' :
  encrypt_hmacs hmacInput rs text tag = (text', tag') ->
  JSObject.own text !! "__proto__" = None ->
  (forall name, is_Some (JSObject.own text' !! name) <-> is_Some (JSObject.own text !! name)) /\
  (is_Some (JSObject.proto text') <-> is_Some (JSObject.proto text)).
Proof.
  revert text tag.
  induction rs as [| [n key] rs IH]; intros text tag; cbn [encrypt_hmacs].
  - intros [= <- <-] _. split; reflexivity.
  - intros Hrest Hnone.
    destruct (IH _ _ Hrest (set_hmac_no_own_proto _ _ _ Hnone)) as [Hown Hproto].
    rewrite set_hmac_unfold in Hown, Hproto by exact Hnone. cbn zeta in Hown, Hproto.
    split.
    + intros name. rewrite (Hown name).
      destruct (String.eqb n "__proto__"); cbn [JSObject.own]; [reflexivity |].
      apply lookup_alter_is_Some.
    + rewrite Hproto. destruct (String.eqb n "__proto__"); cbn [JSObject.proto]; [| reflexivity].
      apply fmap_is_Some.
Qed.

(** The nicknames [encrypt] runs over: those of the recipients that have a
    shared secret. *)
Lemma elem_of_sortedRecipients recipients name :
  name ∈ (encrypt_sortedRecipients recipients).*1 <->
  exists r, In r recipients /\ nickname r = name /\ is_Some (mpSecretKey r).
Proof.
  unfold encrypt_sortedRecipients. rewrite (Array_sort_perm _ (omap withSecret recipients)).
  rewrite list_elem_of_fmap. split.
  - intros ([n key] & -> & Hin). apply elem_of_withSecret in Hin as (r & Hr & -> & Hkey).
    cbn. eauto.
  - intros (r & Hr & <- & [key Hkey]). exists (nickname r, key). split; [reflexivity |].
    apply elem_of_withSecret. eauto.
Qed.

(** What [encrypt] is made of, once it returns. *)
Lemma encrypt_inv plaintext recipients st env st' :
  encrypt plaintext recipients st = Some (env, st') ->
  exists padding tape st1 text1 hmacInput text tag,
    entropy st = padding :: tape /\ length padding = 64%nat /\
    let pt := concat (Utf8_parse plaintext) (toWordArray padding) in
    let rs := encrypt_sortedRecipients recipients in
    encrypt_entries pt rs {| usedIVs := usedIVs st; entropy := tape |} JSObject.empty
      (create [] None)
    = Some (st1, text1, hmacInput) /\
    encrypt_hmacs hmacInput rs text1 (clone pt) = (text, tag) /\
    env = Envelope.make "message" (JSObject.own text) (JSObject.proto text)
            (createMessageTag tag) /\
    st' = st1.
Proof.
  unfold encrypt, random. destruct (entropy st) as [| d tape]; [discriminate |].
  destruct (Nat.eqb_spec (length d) 64) as [Hd |]; [| discriminate].
  destruct (encrypt_entries _ _ _ _ _) as [[[st1 text1] hmacInput] |] eqn:Hloop1;
    [| discriminate].
  destruct (encrypt_hmacs _ _ _ _) as [text tag] eqn:Hloop2.
  intros [= <- <-]. exists d, tape, st1, text1, hmacInput, text, tag. auto 10.
Qed.

(** The IVs of the own entries: registered, new, and different from entry to
    entry. *)
Lemma encrypt_entries_ivs used0 plaintext rs st text hmacInput st' text' hmacInput' :
  encrypt_entries plaintext rs st text hmacInput = Some (st', text', hmacInput') ->
  JSObject.own text !! "__proto__" = None ->
  (forall iv, In iv used0 -> In iv (usedIVs st)) ->
  (forall name e, JSObject.own text !! name = Some e ->
     In (Entry.iv e) (usedIVs st) /\ ~ In (Entry.iv e) used0) ->
  (forall n1 n2 e1 e2, n1 <> n2 ->
     JSObject.own text !! n1 = Some e1 -> JSObject.own text !! n2 = Some e2 ->
     Entry.iv e1 <> Entry.iv e2) ->
  (forall name e, JSObject.own text' !! name = Some e ->
     In (Entry.iv e) (usedIVs st') /\ ~ In (Entry.iv e) used0) /\
  (forall n1 n2 e1 e2, n1 <> n2 ->
     JSObject.own text' !! n1 = Some e1 -> JSObject.own text' !! n2 = Some e2 ->
     Entry.iv e1 <> Entry.iv e2).
Proof.
  revert st text hmacInput.
  induction rs as [| [n key] rs IH]; intros st text hmacInput; cbn [encrypt_entries].
  - intros [= <- <- <-] _ _ Hreg Hdist. auto.
  - destruct (generateIV (usedIVs st) (entropy st)) as [[iv tape] |] eqn:Hiv; [| discriminate].
    apply generateIV_fresh in Hiv.
    assert (Hnew : ~ In iv (usedIVs st)).
    { intros Hin. apply includes_In in Hin. congruence. }
    intros Hrest Hnone Hsub Hreg Hdist.
    apply (IH _ _ _ Hrest); cbn [usedIVs].
    + apply set_no_own_proto. exact Hnone.
    + intros x Hx. apply in_or_app. left. apply Hsub, Hx.
    + intros name e. rewrite set_unfold by exact Hnone.
      destruct (String.eqb n "__proto__"); cbn [JSObject.own]; intros He.
      * destruct (Hreg name e He) as [Hin Hnotin]. split; [| exact Hnotin].
        apply in_or_app. left. exact Hin.
      * apply lookup_insert_Some in He as [(<- & <-) | (Hne & He)].
        -- cbn [Entry.iv]. split; [apply in_or_app; right; left; reflexivity |].
           intros Hin. apply Hnew, Hsub, Hin.
        -- destruct (Hreg name e He) as [Hin Hnotin]. split; [| exact Hnotin].
           apply in_or_app. left. exact Hin.
    + intros n1 n2 e1 e2 Hne. rewrite set_unfold by exact Hnone.
      destruct (String.eqb n "__proto__"); cbn [JSObject.own]; intros H1 H2.
      * apply (Hdist n1 n2); assumption.
      * apply lookup_insert_Some in H1 as [(<- & <-) | (Hne1 & H1)];
          apply lookup_insert_Some in H2 as [(<- & <-) | (Hne2 & H2)]; cbn [Entry.iv].
        -- congruence.
        -- intros Heq. apply Hnew. rewrite Heq. apply (Hreg n2 e2 H2).
        -- intros Heq. apply Hnew. rewrite <- Heq. apply (Hreg n1 e1 H1).
        -- apply (Hdist n1 n2); assumption.
Qed.

(** The registry after the first loop: the registry before, then one new IV
    per recipient, all different. *)
Lemma encrypt_entries_registry plaintext rs st text hmacInput st' text' hmacInput' :
  encrypt_entries plaintext rs st text hmacInput = Some (st', text', hmacInput') ->
  exists ivs, usedIVs st' = usedIVs st ++ ivs /\ length ivs = length rs /\
              (NoDup (usedIVs st) -> NoDup (usedIVs st')).
Proof.
  intros Hrun. apply encrypt_entries_spec in Hrun
    as (ivs & Hlen & _ & _ & Hused & Hnodup & Hfresh).
  exists ivs. split; [exact Hused |]. split; [exact Hlen |].
  intros Hreg. rewrite Hused. apply NoDup_app. split; [exact Hreg |]. split; [| exact Hnodup].
  intros iv Hin Hin'. apply list_elem_of_In in Hin, Hin'.
  specialize (Hfresh iv Hin'). apply includes_In in Hin. congruence.
Qed.

(** The own entries and the prototype of the envelope. *)
Lemma encrypt_keys plaintext recipients st env st' :
  encrypt plaintext recipients st = Some (env, st') ->
  (forall name, is_Some (Envelope.text env !! name) <->
     name <> "__proto__" /\
     exists r, In r recipients /\ nickname r = name /\ is_Some (mpSecretKey r)) /\
  (is_Some (Envelope.proto env) <->
     exists r, In r recipients /\ nickname r = "__proto__" /\ is_Some (mpSecretKey r)) /\
  (forall name e, Envelope.text env !! name = Some e -> is_Some (Entry.hmac e)) /\
  (forall e, Envelope.proto env = Some e -> is_Some (Entry.hmac e)).
Proof.
  intros Hrun. apply encrypt_inv in Hrun
    as (padding & tape & st1 & text1 & hmacInput & text & tag
        & _ & _ & Hloop1 & Hloop2 & -> & _).
  cbn [Envelope.text Envelope.proto].
  assert (Hempty : JSObject.own JSObject.empty !! "__proto__" = None) by apply lookup_empty.
  destruct (encrypt_entries_dom _ _ _ _ _ _ _ _ Hloop1 Hempty) as (Hnone1 & Hown1 & Hproto1).
  destruct (encrypt_hmacs_dom _ _ _ _ _ _ Hloop2 Hnone1) as [Hown2 Hproto2].
  destruct (encrypt_hmacs_lookup _ _ _ _ _ _ Hloop2 Hnone1) as [Hmac_own Hmac_proto].
  split; [| split; [| split]].
  - intros name. rewrite (Hown2 name), (Hown1 name), <- elem_of_sortedRecipients.
    cbn [JSObject.empty JSObject.own]. rewrite lookup_empty.
    split; [intros [[? [=]] | Hin]; exact Hin | auto].
  - rewrite Hproto2, Hproto1, <- elem_of_sortedRecipients.
    cbn [JSObject.empty JSObject.proto].
    split; [intros [[? [=]] | Hin]; exact Hin | auto].
  - intros name e He.
    destruct (Hmac_own name e He) as (e1 & He1 & _ & _ & Hmac).
    apply Hmac. right.
    assert (Hsome : is_Some (JSObject.own text1 !! name)) by eauto.
    apply (Hown1 name) in Hsome as [Hsome | [_ Hin]]; [| exact Hin].
    cbn [JSObject.empty JSObject.own] in Hsome. rewrite lookup_empty in Hsome.
    destruct Hsome as [? [=]].
  - intros e He.
    destruct (Hmac_proto e He) as (e1 & He1 & _ & _ & Hmac).
    apply Hmac. right.
    assert (Hsome : is_Some (JSObject.proto text1)) by eauto.
    apply Hproto1 in Hsome as [Hsome | Hin]; [| exact Hin].
    cbn [JSObject.empty JSObject.proto] in Hsome. destruct Hsome as [? [=]].
Qed.

End EnvelopeShape.

(** X10: the envelope [encrypt] returns has type [message] and an own entry
    under exactly the nicknames, other than [__proto__], of the recipients
    that have a shared secret (recipients without one are left out); the
    entry of such a recipient named [__proto__] is no own property but the
    prototype of [text]; and every one of these entries carries a MAC. *)
Theorem encrypt_addresses_keyed_recipients `{P : Primitives}
    (plaintext : string) (recipients : list Buddy) (st : State)
    (env : Envelope.t) (st' : State) :
  encrypt plaintext recipients st = Some (env, st') ->
  Envelope.type env = "message" /\
  (forall name, is_Some (Envelope.text env !! name) <->
     name <> "__proto__" /\
     exists r, In r recipients /\ nickname r = name /\ is_Some (mpSecretKey r)) /\
  (is_Some (Envelope.proto env) <->
     exists r, In r recipients /\ nickname r = "__proto__" /\ is_Some (mpSecretKey r)) /\
  (forall name e, Envelope.text env !! name = Some e -> is_Some (Entry.hmac e)) /\
  (forall e, Envelope.proto env = Some e -> is_Some (Entry.hmac e)).
Proof.
  intros Hrun. split.
  - apply encrypt_inv in Hrun
      as (padding & tape & st1 & text1 & hmacInput & text & tag & _ & _ & _ & _ & -> & _).
    reflexivity.
  - exact (encrypt_keys _ _ _ _ _ Hrun).
Qed.

(** X11: when no recipient has a shared secret (an empty list included), and the
    random source yields 64 bytes of padding, [encrypt] returns the envelope
    without any entry whose tag is the encoded eight-fold hash of the text
    bytes followed by the padding; it draws no IV and leaves the registry as
    it is. *)
Theorem encrypt_without_keyed_recipient `{P : Primitives}
    (plaintext : string) (recipients : list Buddy)
    (used : list string) (padding : list byte) (rest : list (list byte)) :
  (forall r, In r recipients -> mpSecretKey r = None) ->
  length padding = 64%nat ->
  encrypt plaintext recipients {| usedIVs := used; entropy := padding :: rest |}
  = Some (Envelope.mk "message" ∅
            (base64_encode (Nat.iter 8 sha512 (utf8_encode plaintext ++ padding))),
          {| usedIVs := used; entropy := rest |}).
Proof.
  intros Hnone Hpad.
  assert (Hrs : encrypt_sortedRecipients recipients = []).
  { unfold encrypt_sortedRecipients.
    replace (omap withSecret recipients) with (@nil (string * Secret.t)); [reflexivity |].
    symmetry. induction recipients as [| r recipients IH]; [reflexivity |].
    change (omap withSecret (r :: recipients))
      with (match withSecret r with
            | Some y => y :: omap withSecret recipients
            | None => omap withSecret recipients
            end).
    unfold withSecret at 1. rewrite (Hnone r) by (left; reflexivity).
    apply IH. intros r' Hr'. apply Hnone. right. exact Hr'. }
  unfold encrypt, CryptoJS.random. cbn [entropy usedIVs]. rewrite Hpad. cbn [Nat.eqb].
  rewrite Hrs. cbn [encrypt_entries encrypt_hmacs JSObject.empty JSObject.own JSObject.proto].
  unfold Envelope.mk.
  rewrite createMessageTag_bytes. unfold CryptoJS.clone, CryptoJS.Utf8_parse.
  rewrite bytes_concat, !WAFacts.bytes_toWordArray. reflexivity.
Qed.

(** X12: in an envelope [encrypt] returns, the IV of every entry is in the
    registry afterwards and was not in it before, and entries under different
    nicknames have different IVs. *)
Theorem encrypt_entries_have_fresh_ivs `{P : Primitives}
    (plaintext : string) (recipients : list Buddy) (st : State)
    (env : Envelope.t) (st' : State) :
  encrypt plaintext recipients st = Some (env, st') ->
  (forall name e, Envelope.text env !! name = Some e ->
     In (Entry.iv e) (usedIVs st') /\ ~ In (Entry.iv e) (usedIVs st)) /\
  (forall n1 n2 e1 e2, n1 <> n2 ->
     Envelope.text env !! n1 = Some e1 -> Envelope.text env !! n2 = Some e2 ->
     Entry.iv e1 <> Entry.iv e2).
Proof.
  intros Hrun. apply encrypt_inv in Hrun
    as (padding & tape & st1 & text1 & hmacInput & text & tag
        & _ & _ & Hloop1 & Hloop2 & -> & ->).
  cbn [Envelope.text].
  assert (Hempty : JSObject.own JSObject.empty !! "__proto__" = None) by apply lookup_empty.
  destruct (encrypt_entries_dom _ _ _ _ _ _ _ _ Hloop1 Hempty) as (Hnone1 & _ & _).
  destruct (encrypt_hmacs_lookup _ _ _ _ _ _ Hloop2 Hnone1) as [Hlookup _].
  destruct (encrypt_entries_ivs (usedIVs st) _ _ _ _ _ _ _ _ Hloop1 Hempty) as [Hreg Hdist].
  - auto.
  - intros name e He. cbn in He. rewrite lookup_empty in He. discriminate.
  - intros n1 n2 e1 e2 _ He. cbn in He. rewrite lookup_empty in He. discriminate.
  - split.
    + intros name e He.
      destruct (Hlookup name e He) as (e1 & He1 & _ & -> & _).
      apply (Hreg name e1 He1).
    + intros n1 n2 e1 e2 Hne H1 H2.
      destruct (Hlookup n1 e1 H1) as (d1 & Hd1 & _ & -> & _).
      destruct (Hlookup n2 e2 H2) as (d2 & Hd2 & _ & -> & _).
      apply (Hdist n1 n2); assumption.
Qed.

(** X13: the loop that draws an IV goes over every 12-byte draw whose encoding is
    in the registry and returns the encoding of the first draw that is not,
    leaving the draws after it on the tape. *)
Theorem generateIV_skips_used_ivs `{P : Primitives}
    (usedIVs : list string) (colliding : list (list byte)) (d : list byte)
    (rest : list (list byte)) :
  let ivOf (draw : list byte) := CryptoJS.Base64_stringify (WA.toWordArray draw) in
  Forall (fun c => length c = 12%nat /\ In (ivOf c) usedIVs) colliding ->
  length d = 12%nat ->
  ~ In (ivOf d) usedIVs ->
  generateIV usedIVs (colliding ++ d :: rest) = Some (ivOf d, rest).
Proof.
  intros ivOf Hall Hd Hnew.
  induction Hall as [| c colliding [Hc Hin] _ IH]; cbn [app generateIV].
  - rewrite Hd. cbn [Nat.eqb]. fold (ivOf d).
    destruct (includes usedIVs (ivOf d)) eqn:Hincl; [| reflexivity].
    apply includes_In in Hincl. contradiction.
  - rewrite Hc. cbn [Nat.eqb]. fold (ivOf c).
    apply includes_In in Hin. rewrite Hin. exact IH.
Qed.

(** X14: the registry only grows, at its end, and never holds an IV twice:
    [encrypt] appends one IV per sorted recipient, [decrypt] appends nothing
    or one IV that was not in the registry, and both keep a registry without
    duplicates. *)
Theorem usedIVs_grows_without_duplicates `{P : Primitives} :
  (forall plaintext recipients st env st',
      encrypt plaintext recipients st = Some (env, st') ->
      (exists ivs, usedIVs st' = usedIVs st ++ ivs /\
                   length ivs = length (encrypt_sortedRecipients recipients)) /\
      (NoDup (usedIVs st) -> NoDup (usedIVs st'))) /\
  (forall myName buddies message sender registry,
      let registry' := snd (decrypt myName buddies message sender registry) in
      (registry' = registry \/
       exists iv, ~ In iv registry /\ registry' = registry ++ [iv]) /\
      (NoDup registry -> NoDup registry')).
Proof.
  split.
  - intros plaintext recipients st env st' Hrun. apply encrypt_inv in Hrun
      as (padding & tape & st1 & text1 & hmacInput & text & tag
          & _ & _ & Hloop1 & _ & _ & ->).
    apply encrypt_entries_registry in Hloop1 as (ivs & Hused & Hlen & Hnodup).
    cbn [usedIVs] in Hused, Hnodup. eauto.
  - intros myName buddies message sender registry registry'.
    assert (Hstep : registry' = registry \/
                    exists iv, ~ In iv registry /\ registry' = registry ++ [iv]).
    { unfold registry'.
      destruct (JSObject.get (Envelope.encrypted message) myName) as [mine | s | |] eqn:Hmine.
      2-4: destruct (decrypt_no_entry myName buddies message sender registry)
             as (e & -> & _); [intros mine; rewrite Hmine; discriminate | left; reflexivity].
      rewrite (decrypt_entry _ _ _ _ _ mine Hmine). cbn zeta.
      destruct (mpSecretKey sender) as [key |]; [| left; reflexivity].
      destruct (Entry.hmac mine) as [h |]; [| left; reflexivity].
      destruct (negb _); [left; reflexivity |].
      destruct (includes registry (Entry.iv mine)) eqn:Hincl; [left; reflexivity |].
      right. exists (Entry.iv mine). split.
      { intros Hin. apply includes_In in Hin. congruence. }
      destruct (_ <? _)%nat; [reflexivity |].
      destruct (decrypt_messageTag _ _); [| reflexivity].
      destruct (negb _); [reflexivity |].
      destruct (CryptoJS.Utf8_stringify _); reflexivity. }
    split; [exact Hstep |].
    intros Hnodup. destruct Hstep as [-> | (iv & Hnew & ->)]; [exact Hnodup |].
    apply NoDup_app. split; [exact Hnodup |]. split; [| apply NoDup_singleton].
    intros x Hx Hx'. apply list_elem_of_singleton in Hx' as ->.
    apply Hnew, list_elem_of_In, Hx.
Qed.


(** ** The order in which the recipients are supplied *)

Module OrderFacts.
Section AnyOrder.
Context {A : Type}.
Variable compareFn : A -> A -> Z.
Variable elements : list A.

Let before (a b : A) : Prop := (compareFn a b <? 0) = true.

(** On the elements, [compareFn] ranks any two different ones one way and
    not the other, transitively. *)
Hypothesis total : forall a b, a ∈ elements -> b ∈ elements -> a <> b ->
  (compareFn a b <? 0) = false -> before b a.
Hypothesis antisym : forall a b, a ∈ elements -> b ∈ elements ->
  before a b -> before b a -> a = b.
Hypothesis transitive : forall a b c, a ∈ elements -> b ∈ elements -> c ∈ elements ->
  before a b -> before b c -> before a c.

Lemma sort_insert_before x l :
  x ∈ elements -> (forall y, y ∈ l -> y ∈ elements) -> x ∉ l ->
  StronglySorted before l -> StronglySorted before (sort_insert compareFn x l).
Proof.
  intros Hx Hl Hnotin Hsorted.
  induction Hsorted as [| y l Hsorted IH Hall]; cbn [sort_insert].
  - repeat constructor.
  - apply not_elem_of_cons in Hnotin as [Hne Hnotin].
    assert (Hy : y ∈ elements) by (apply Hl; left).
    assert (Hl' : forall z, z ∈ l -> z ∈ elements) by (intros z Hz; apply Hl; right; exact Hz).
    destruct (compareFn x y <? 0) eqn:Hxy.
    + constructor; [constructor; assumption |].
      constructor; [exact Hxy |].
      rewrite Forall_forall in Hall |- *. intros z Hz.
      apply (transitive x y z); auto.
    + constructor; [apply IH; assumption |].
      rewrite Forall_forall in Hall |- *. intros z Hz.
      rewrite (SortFacts.sort_insert_perm compareFn x l) in Hz.
      apply elem_of_cons in Hz as [-> | Hz]; [| apply Hall, Hz].
      apply (total x y); auto.
Qed.

Lemma Array_sort_before l :
  NoDup l -> (forall y, y ∈ l -> y ∈ elements) ->
  StronglySorted before (Array_sort compareFn l).
Proof.
  unfold Array_sort. intros Hnodup Hl.
  assert (Hgen : forall acc,
             StronglySorted before acc -> NoDup (acc ++ l) ->
             (forall y, y ∈ acc -> y ∈ elements) ->
             StronglySorted before
               (fold_left (fun sorted x => sort_insert compareFn x sorted) l acc)).
  { clear Hnodup. induction l as [| x l IH]; intros acc Hacc Hnodup Hsub; [exact Hacc |].
    cbn [fold_left].
    assert (Hx : x ∈ elements) by (apply Hl; left).
    apply NoDup_app in Hnodup as (Hn1 & Hdisj & Hn2).
    apply NoDup_cons in Hn2 as [Hxl Hn2].
    apply IH.
    - intros y Hy. apply Hl. right. exact Hy.
    - apply sort_insert_before; auto.
      intros Hin. apply (Hdisj x Hin). left.
    - rewrite (SortFacts.sort_insert_perm compareFn x acc).
      cbn [app]. apply NoDup_cons. split.
      + rewrite elem_of_app. intros [Hin | Hin]; [apply (Hdisj x Hin); left | contradiction].
      + apply NoDup_app. split; [exact Hn1 |]. split; [| exact Hn2].
        intros y Hy Hy'. apply (Hdisj y Hy). right. exact Hy'.
    - intros y Hy. rewrite (SortFacts.sort_insert_perm compareFn x acc) in Hy.
      apply elem_of_cons in Hy as [-> | Hy]; auto. }
  apply Hgen; [constructor | exact Hnodup | intros y Hy; inversion Hy].
Qed.

(** Sorting does not depend on the order of the input. *)
Lemma Array_sort_Permutation l l' :
  NoDup l -> (forall y, y ∈ l -> y ∈ elements) -> l ≡ₚ l' ->
  Array_sort compareFn l = Array_sort compareFn l'.
Proof.
  intros Hnodup Hl Hperm.
  apply (StronglySorted_unique_strong before).
  - intros x1 x2 H1 H2 H12 H21.
    rewrite (SortFacts.Array_sort_perm compareFn l) in H1.
    rewrite (SortFacts.Array_sort_perm compareFn l'), <- Hperm in H2.
    apply antisym; auto.
  - apply Array_sort_before; assumption.
  - apply Array_sort_before.
    + rewrite <- Hperm. exact Hnodup.
    + intros y Hy. apply Hl. rewrite Hperm. exact Hy.
  - rewrite !SortFacts.Array_sort_perm. exact Hperm.
Qed.

End AnyOrder.
End OrderFacts.

Section RecipientOrderAny.
Context `{P : Primitives}.

(** Two recipients with a secret and the same nickname are the same, when
    nicknames are not shared. *)
Lemma withSecret_same_name recipients a b :
  NoDup (map nickname recipients) ->
  a ∈ omap withSecret recipients -> b ∈ omap withSecret recipients ->
  fst a = fst b -> a = b.
Proof.
  intros Hnodup Ha Hb Heq.
  apply NoDup_withSecret in Hnodup.
  destruct a as [n k], b as [n' k']. cbn in Heq. subst n'.
  f_equal.
  apply list_elem_of_lookup in Ha as [i Hi], Hb as [j Hj].
  assert (i = j).
  { apply (NoDup_lookup _ i j n Hnodup); rewrite list_lookup_fmap.
    - rewrite Hi. reflexivity.
    - rewrite Hj. reflexivity. }
  subst j. congruence.
Qed.

Lemma encrypt_sortedRecipients_Permutation recipients recipients' :
  NoDup (map nickname recipients) ->
  (forall a b, In a recipients -> In b recipients -> nickname a <> nickname b ->
     (localeCompare (nickname a) (nickname b) <? 0)
     = negb (localeCompare (nickname b) (nickname a) <? 0)) ->
  (forall a b c, In a recipients -> In b recipients -> In c recipients ->
     localeCompare (nickname a) (nickname b) < 0 ->
     localeCompare (nickname b) (nickname c) < 0 ->
     localeCompare (nickname a) (nickname c) < 0) ->
  recipients ≡ₚ recipients' ->
  encrypt_sortedRecipients recipients = encrypt_sortedRecipients recipients'.
Proof.
  intros Hnodup Hone Htrans Hperm. unfold encrypt_sortedRecipients.
  apply (OrderFacts.Array_sort_Permutation _ (omap withSecret recipients)).
  - intros [n1 k1] [n2 k2] H1 H2 Hne Hfalse. cbn [fst] in *.
    pose proof H1 as H1'. pose proof H2 as H2'.
    apply elem_of_withSecret in H1' as (r1 & Hr1 & -> & _).
    apply elem_of_withSecret in H2' as (r2 & Hr2 & -> & _).
    assert (Hnames : nickname r1 <> nickname r2).
    { intros Heq. apply Hne. apply (withSecret_same_name recipients); assumption. }
    rewrite (Hone r1 r2 Hr1 Hr2 Hnames) in Hfalse.
    apply negb_false_iff in Hfalse. exact Hfalse.
  - intros [n1 k1] [n2 k2] H1 H2 H12 H21. cbn [fst] in *.
    apply (withSecret_same_name recipients); [assumption .. |]. cbn [fst].
    apply elem_of_withSecret in H1 as (r1 & Hr1 & -> & _).
    apply elem_of_withSecret in H2 as (r2 & Hr2 & -> & _).
    destruct (String.eqb_spec (nickname r1) (nickname r2)) as [Heq | Hne]; [exact Heq |].
    rewrite (Hone r1 r2 Hr1 Hr2 Hne), H21 in H12. discriminate.
  - intros [n1 k1] [n2 k2] [n3 k3] H1 H2 H3. cbn [fst].
    apply elem_of_withSecret in H1 as (r1 & Hr1 & -> & _).
    apply elem_of_withSecret in H2 as (r2 & Hr2 & -> & _).
    apply elem_of_withSecret in H3 as (r3 & Hr3 & -> & _).
    rewrite !Z.ltb_lt. apply Htrans; assumption.
  - apply (NoDup_fmap_1 fst). apply NoDup_withSecret. exact Hnodup.
  - auto.
  - apply omap_Permutation. exact Hperm.
Qed.

End RecipientOrderAny.

(** X15: where the recipients have different nicknames that [localeCompare] ranks
    one way and not the other, transitively, [encrypt] returns the same
    envelope and state for every order in which the recipients are
    supplied. *)
Theorem encrypt_ignores_recipient_order `{P : Primitives}
    (plaintext : string) (recipients recipients' : list Buddy) (st : State) :
  NoDup (map nickname recipients) ->
  (forall a b, In a recipients -> In b recipients -> nickname a <> nickname b ->
     (localeCompare (nickname a) (nickname b) <? 0)
     = negb (localeCompare (nickname b) (nickname a) <? 0)) ->
  (forall a b c, In a recipients -> In b recipients -> In c recipients ->
     localeCompare (nickname a) (nickname b) < 0 ->
     localeCompare (nickname b) (nickname c) < 0 ->
     localeCompare (nickname a) (nickname c) < 0) ->
  Permutation recipients recipients' ->
  encrypt plaintext recipients st = encrypt plaintext recipients' st.
Proof.
  intros Hnodup Hone Htrans Hperm. unfold encrypt.
  rewrite (encrypt_sortedRecipients_Permutation recipients recipients') by assumption.
  reflexivity.
Qed.


(** ** The envelope in closed form *)

Section WireFormatFacts.
Context `{P : Primitives}.
Import WA WAFacts CryptoJS SortFacts.

Hypothesis base64_decode_encode : forall bs, base64_decode (base64_encode bs) = bs.

Lemma generateIV_draw used tape iv tape' :
  generateIV used tape = Some (iv, tape') -> length (base64_decode iv) = 12%nat.
Proof.
  revert iv tape'. induction tape as [| d tape IH]; intros iv tape'; cbn [generateIV];
    [discriminate |].
  destruct (Nat.eqb_spec (length d) 12) as [Hd |]; [| discriminate].
  destruct (includes used _); [apply IH |].
  intros [= <- <-]. unfold Base64_stringify.
  rewrite bytes_toWordArray, base64_decode_encode. exact Hd.
Qed.

Lemma encrypt_entries_iv_lengths plaintext rs st text hmacInput st' text' hmacInput' :
  encrypt_entries plaintext rs st text hmacInput = Some (st', text', hmacInput') ->
  exists ivs, usedIVs st' = usedIVs st ++ ivs /\
              Forall (fun iv => length (base64_decode iv) = 12%nat) ivs.
Proof.
  revert st text hmacInput.
  induction rs as [| [n key] rs IH]; intros st text hmacInput; cbn [encrypt_entries].
  - intros [= <- <- <-]. exists []. rewrite app_nil_r. auto.
  - destruct (generateIV (usedIVs st) (entropy st)) as [[iv tape] |] eqn:Hiv; [| discriminate].
    apply generateIV_draw in Hiv.
    intros Hrest. apply IH in Hrest as (ivs & Hused & Hall). cbn [usedIVs] in Hused.
    exists (iv :: ivs). rewrite Hused, <- app_assoc. auto.
Qed.

(** Every IV of an own entry of an envelope decodes to 12 bytes. *)
Lemma encrypt_entries_iv_bytes plaintext rs st text hmacInput st' text' hmacInput' :
  encrypt_entries plaintext rs st text hmacInput = Some (st', text', hmacInput') ->
  JSObject.own text !! "__proto__" = None ->
  (forall name e, JSObject.own text !! name = Some e ->
                  length (base64_decode (Entry.iv e)) = 12%nat) ->
  forall name e, JSObject.own text' !! name = Some e ->
                 length (base64_decode (Entry.iv e)) = 12%nat.
Proof.
  revert st text hmacInput.
  induction rs as [| [n key] rs IH]; intros st text hmacInput; cbn [encrypt_entries].
  - intros [= <- <- <-] _ Hall. exact Hall.
  - destruct (generateIV (usedIVs st) (entropy st)) as [[iv tape] |] eqn:Hiv; [| discriminate].
    apply generateIV_draw in Hiv.
    intros Hrest Hnone Hall.
    apply (IH _ _ _ Hrest); [apply set_no_own_proto; exact Hnone |].
    intros name e. rewrite set_unfold by exact Hnone.
    destruct (String.eqb n "__proto__"); cbn [JSObject.own]; intros He.
    + apply (Hall name e He).
    + apply lookup_insert_Some in He as [(<- & <-) | (Hne & He)].
      * exact Hiv.
      * apply (Hall name e He).
Qed.

Lemma encrypt_iv_bytes plaintext recipients st env st' :
  encrypt plaintext recipients st = Some (env, st') ->
  forall name e, Envelope.text env !! name = Some e ->
                 length (base64_decode (Entry.iv e)) = 12%nat.
Proof.
  intros Hrun. apply encrypt_inv in Hrun
    as (padding & tape & st1 & text1 & hmacInput & text & tag
        & _ & _ & Hloop1 & Hloop2 & -> & _).
  cbn [Envelope.text]. intros name e He.
  assert (Hempty : JSObject.own JSObject.empty !! "__proto__" = None) by apply lookup_empty.
  destruct (encrypt_entries_dom _ _ _ _ _ _ _ _ Hloop1 Hempty) as (Hnone1 & _ & _).
  destruct (encrypt_hmacs_lookup _ _ _ _ _ _ Hloop2 Hnone1) as [Hlookup _].
  destruct (Hlookup name e He) as (e1 & He1 & _ & -> & _).
  apply (encrypt_entries_iv_bytes _ _ _ _ _ _ _ _ Hloop1 Hempty) with (name := name);
    [| exact He1].
  intros n e0 He0. cbn in He0. rewrite lookup_empty in He0. discriminate.
Qed.

Lemma encryptAES_bytes pt r iv :
  length (base64_decode iv) = 12%nat ->
  encryptAES pt (Secret.message (snd r)) iv = base64_encode (ciphertextFor (bytes pt) r iv).
Proof.
  intros Hiv. unfold encryptAES, AES_encrypt, Base64_stringify, ciphertextFor, counterBlock.
  rewrite bytes_toWordArray, bytes_correctIvLength.
  replace (wordPadding (length (base64_decode iv))) with (@nil byte); [reflexivity |].
  symmetry. apply ConversionFacts.wordPadding_nil. rewrite Hiv. reflexivity.
Qed.

Lemma zip_with_ext_Forall {A B C} (f g : A -> B -> C) (Q : B -> Prop) l k :
  (forall a b, Q b -> f a b = g a b) -> Forall Q k -> zip_with f l k = zip_with g l k.
Proof.
  intros Hfg Hall. revert l. induction Hall as [| b k Hb _ IH]; intros [| a l]; try reflexivity.
  cbn [zip_with]. rewrite IH, Hfg by exact Hb. reflexivity.
Qed.

Lemma draft_macInput pt rs ivs :
  Forall (fun iv => length (base64_decode iv) = 12%nat) ivs ->
  flat_map entryBytes (zip_with (draftEntry pt) rs ivs) = macInputFor (bytes pt) rs ivs.
Proof.
  intros Hall. unfold macInputFor. revert rs.
  induction Hall as [| iv ivs Hiv _ IH]; intros [| r rs]; try reflexivity.
  cbn [zip_with zip flat_map]. rewrite IH. f_equal.
  unfold entryBytes, draftEntry. cbn [fst snd Entry.message Entry.iv].
  rewrite (encryptAES_bytes pt r iv Hiv), base64_decode_encode. reflexivity.
Qed.

Lemma sealed_macs pt hmacInput body rs0 ivs0 rs ivs :
  bytes hmacInput = macInputFor body rs0 ivs0 ->
  length ivs = length rs ->
  flat_map macBytes (zip_with (sealedEntry pt hmacInput) rs ivs)
  = flat_map (macFor body rs0 ivs0) rs.
Proof.
  intros Hhi. revert ivs. induction rs as [| r rs IH]; intros [| iv ivs] Hlen;
    try discriminate; [reflexivity |].
  cbn [zip_with flat_map]. rewrite IH by (cbn in Hlen; lia). f_equal.
  unfold macBytes, sealedEntry, macFor. cbn [snd Entry.hmac].
  rewrite HMAC_bytes, base64_decode_encode, Hhi. reflexivity.
Qed.

End WireFormatFacts.

(** X16: where decoding undoes the transport encoding and the recipients have
    different nicknames, none of those with a shared secret being named
    [__proto__], the envelope [encrypt] returns is the closed form
    [envelopeFor] of the text bytes followed by the 64 bytes of padding, the
    sorted recipients with a secret and the IVs it registered, one per
    recipient, each decoding to 12 bytes: every ciphertext is the padded
    plaintext under the recipient's message key and the zero-extended IV,
    every MAC covers all the ciphertexts and IVs in order, and the tag covers
    the padded plaintext and all the MACs in order. *)
Theorem encrypt_wire_format `{P : Primitives}
    (plaintext : string) (recipients : list Buddy) (st : State)
    (env : Envelope.t) (st' : State) :
  (forall bs, base64_decode (base64_encode bs) = bs) ->
  NoDup (map nickname recipients) ->
  (forall a, In a recipients -> is_Some (mpSecretKey a) -> nickname a <> "__proto__") ->
  encrypt plaintext recipients st = Some (env, st') ->
  exists padding ivs tape,
    entropy st = padding :: tape /\
    length padding = 64%nat /\
    length ivs = length (encrypt_sortedRecipients recipients) /\
    Forall (fun iv => length (base64_decode iv) = 12%nat) ivs /\
    usedIVs st' = usedIVs st ++ ivs /\
    env = envelopeFor (utf8_encode plaintext ++ padding)
                      (encrypt_sortedRecipients recipients) ivs.
Proof.
  intros Hb64 Hnames Hnot_proto Hrun. apply encrypt_inv in Hrun
    as (padding & tape & st1 & text1 & hmacInput & text & tag
        & Htape & Hpad & Hloop1 & Hloop2 & -> & ->).
  set (pt := CryptoJS.concat (CryptoJS.Utf8_parse plaintext) (WA.toWordArray padding)) in *.
  set (rs := encrypt_sortedRecipients recipients) in *.
  assert (Hpt : WA.bytes pt = utf8_encode plaintext ++ padding).
  { unfold pt, CryptoJS.Utf8_parse. rewrite bytes_concat, !WAFacts.bytes_toWordArray.
    reflexivity. }
  assert (Hnodup : NoDup (rs.*1)).
  { unfold rs, encrypt_sortedRecipients. rewrite (SortFacts.Array_sort_perm _ _).
    apply NoDup_withSecret. exact Hnames. }
  destruct (encrypt_entries_iv_lengths Hb64 _ _ _ _ _ _ _ _ Hloop1) as (ivs' & Hused' & Hall).
  apply encrypt_entries_spec in Hloop1
    as (ivs & Hlen & Htext1 & Hbytes1 & Hused & _ & _).
  cbn [usedIVs] in Hused, Hused'.
  assert (ivs' = ivs) as -> by (rewrite Hused in Hused'; apply app_inv_head in Hused'; auto).
  rewrite bytes_empty in Hbytes1. cbn [app] in Hbytes1.
  rewrite (draft_macInput Hb64 pt rs ivs Hall), Hpt in Hbytes1.
  assert (Hproto : "__proto__" ∉ rs.*1) by (apply sortedRecipients_not_proto; assumption).
  destruct (encrypt_hmacs_spec pt hmacInput rs ivs ∅ None (CryptoJS.clone pt)
              Hnodup Hproto Hlen)
    as (tag' & Hloop2' & Hbytes2).
  rewrite fold_setEntry_ne in Htext1 by (rewrite fst_zip_with_draft; assumption).
  cbn [JSObject.empty JSObject.own JSObject.proto] in Htext1.
  rewrite Htext1, Hloop2' in Hloop2. injection Hloop2 as <- <-.
  exists padding, ivs, tape.
  split; [exact Htape |]. split; [exact Hpad |]. split; [exact Hlen |].
  split; [exact Hall |]. split; [exact Hused |].
  unfold envelopeFor, Envelope.mk. cbn [JSObject.own JSObject.proto]. f_equal.
  - rewrite fold_putEntry_list_to_map by (rewrite fst_zip_with_sealed; assumption).
    f_equal. apply (zip_with_ext_Forall _ _ (fun iv => length (base64_decode iv) = 12%nat));
      [| exact Hall].
    intros r iv Hiv. unfold sealedEntry, entryFor. f_equal. f_equal.
    + rewrite (encryptAES_bytes pt r iv Hiv), Hpt. reflexivity.
    + rewrite HMAC_bytes, Hbytes1. reflexivity.
  - rewrite createMessageTag_bytes, Hbytes2.
    rewrite (sealed_macs Hb64 pt hmacInput _ rs ivs rs ivs Hbytes1 Hlen).
    unfold CryptoJS.clone. rewrite Hpt. reflexivity.
Qed.


(** ** The gates of [decrypt] *)

(** X17: [decrypt] fails with [NotAddressedToMe] exactly when
    [message.text[myName]] is falsy, whether the sender's key is known or not,
    and with [MissingSenderKey] exactly when it is truthy and the sender has
    no shared secret; in both cases the registry is left as it was.  When it
    is truthy without being an entry, an inherited member, and the sender has
    a shared secret, [decrypt] ends in a [TypeError].  On a message whose
    [text] has the prototype of an object literal, [message.text[myName]] is
    falsy exactly when [myName] is neither the name of an own entry nor a
    property name of [Object.prototype]. *)
Theorem decrypt_presence_and_key_gates `{P : Primitives}
    (myName : string) (buddies : list string) (message : Envelope.t)
    (sender : Buddy) (usedIVs : list string) :
  let mine := JSObject.get (Envelope.encrypted message) myName in
  (fst (decrypt myName buddies message sender usedIVs) = Throw NotAddressedToMe
   <-> JSObject.ToBoolean mine = false) /\
  (fst (decrypt myName buddies message sender usedIVs) = Throw MissingSenderKey
   <-> JSObject.ToBoolean mine = true /\ mpSecretKey sender = None) /\
  (JSObject.ToBoolean mine = false \/ mpSecretKey sender = None ->
   snd (decrypt myName buddies message sender usedIVs) = usedIVs) /\
  (JSObject.ToBoolean mine = true -> (forall e, mine <> JSObject.AnEntry e) ->
   is_Some (mpSecretKey sender) ->
   decrypt myName buddies message sender usedIVs = (Throw TypeError, usedIVs)) /\
  (Envelope.proto message = None ->
   (JSObject.ToBoolean mine = false <->
    Envelope.text message !! myName = None /\ ~ In myName JSObject.Object_prototype)).
Proof.
  intros mine. unfold decrypt. fold mine.
  split; [| split; [| split; [| split]]].
  - destruct (JSObject.ToBoolean mine); cbn [negb fst]; [| tauto].
    split; [| discriminate].
    destruct (mpSecretKey sender); [| discriminate].
    destruct mine as [e | s | |]; [| discriminate ..].
    destruct (Entry.hmac e); [| discriminate].
    repeat match goal with
           | |- context [if ?b then _ else _] => destruct b
           | |- context [match ?x with _ => _ end] => destruct x
           end; discriminate.
  - destruct (JSObject.ToBoolean mine); cbn [negb fst].
    + destruct (mpSecretKey sender); [| tauto].
      split; [| intros [_ [=]]].
      destruct mine as [e | s | |]; [| discriminate ..].
      destruct (Entry.hmac e); [| discriminate].
      repeat match goal with
             | |- context [if ?b then _ else _] => destruct b
             | |- context [match ?x with _ => _ end] => destruct x
             end; discriminate.
    + split; [discriminate | intros [[=] _]].
  - intros [Hfalse | Hnone].
    + rewrite Hfalse. reflexivity.
    + rewrite Hnone. destruct (negb _); reflexivity.
  - intros Htrue Hnot [key Hkey]. rewrite Htrue, Hkey. cbn [negb].
    destruct mine as [e | s | |]; [| reflexivity ..].
    destruct (Hnot e). reflexivity.
  - intros Hplain. unfold mine, JSObject.get, Envelope.encrypted.
    cbn [JSObject.own JSObject.proto]. rewrite Hplain. cbn [from_option].
    destruct (Envelope.text message !! myName) as [e |];
      [cbn [JSObject.ToBoolean]; split; [discriminate | intros [[=] _]] |].
    destruct (existsb (String.eqb myName) JSObject.Object_prototype) eqn:Hin.
    + assert (In myName JSObject.Object_prototype).
      { apply existsb_exists in Hin as (x & Hx & Heq). apply String.eqb_eq in Heq.
        subst x. exact Hx. }
      destruct (String.eqb myName "__proto__"); cbn [JSObject.ToBoolean];
        (split; [discriminate | tauto]).
    + assert (Hnotin : ~ In myName JSObject.Object_prototype).
      { intros Hx. assert (existsb (String.eqb myName) JSObject.Object_prototype = true)
          as Hcontra; [| congruence].
        apply existsb_exists. exists myName. split; [exact Hx | apply String.eqb_refl]. }
      destruct (String.eqb_spec myName "__proto__") as [-> | _].
      * destruct Hnotin. cbn. auto 20.
      * cbn [JSObject.ToBoolean]. tauto.
Qed.

(** X18: whenever [decrypt] returns, [message.text[myName]] is an entry and
    the sender has a shared secret, the MAC of the entry is the one recomputed
    over all own entries, its IV was not in the registry, the decrypted entry
    has at least 64 bytes, and the tag is the one recomputed over it and all
    the MACs; the value returned is the decoded text without its last 64 bytes
    with the buddies that line 113 finds missing, or the empty string when
    decoding fails. *)
Theorem decrypt_returns_only_verified `{P : Primitives}
    (myName : string) (buddies : list string) (message : Envelope.t)
    (sender : Buddy) (usedIVs : list string) (v : DecryptReturn) (usedIVs' : list string) :
  decrypt myName buddies message sender usedIVs = (Return v, usedIVs') ->
  exists mine key,
    let sortedRecipients := decrypt_sortedRecipients (Envelope.text message) in
    let plaintext := decryptAES (Entry.message mine) (Secret.message key) (Entry.iv mine) in
    JSObject.get (Envelope.encrypted message) myName = JSObject.AnEntry mine /\
    mpSecretKey sender = Some key /\
    Entry.hmac mine = Some (HMAC (decrypt_hmacInput sortedRecipients) (Secret.hmac key)) /\
    ~ In (Entry.iv mine) usedIVs /\
    (64 <= WA.sigBytes plaintext)%nat /\
    (exists messageTag,
        decrypt_messageTag sortedRecipients plaintext = Some messageTag /\
        createMessageTag messageTag = Envelope.tag message) /\
    v = match utf8_decode (WA.bytes (WA.create (WA.words plaintext)
                                       (Some (WA.sigBytes plaintext - 64)%nat))) with
        | Some text =>
            RetObject text
              (List.filter (fun r => negb (String.eqb r (nickname sender))
                                     && negb (JSObject.has (Envelope.encrypted message) r))
                 buddies)
        | None => RetString ""
        end.
Proof.
  destruct (JSObject.get (Envelope.encrypted message) myName) as [mine | s | |] eqn:Hmine.
  2-4: destruct (decrypt_no_entry myName buddies message sender usedIVs) as (e & -> & _);
    [intros mine; rewrite Hmine; discriminate | discriminate].
  rewrite (decrypt_entry _ _ _ _ _ mine Hmine). cbn zeta.
  destruct (mpSecretKey sender) as [key |]; [| discriminate].
  destruct (Entry.hmac mine) as [h |] eqn:Hh; [| discriminate].
  destruct (HLP_compare h _) eqn:Hmac; [| discriminate]. cbn [negb].
  destruct (includes usedIVs (Entry.iv mine)) eqn:Hincl; [discriminate |].
  destruct (Nat.ltb_spec (WA.sigBytes (decryptAES (Entry.message mine) (Secret.message key)
                                          (Entry.iv mine))) 64) as [| Hsize];
    [discriminate |].
  destruct (decrypt_messageTag _ _) as [messageTag |] eqn:Htag; [| discriminate].
  destruct (String.eqb_spec (createMessageTag messageTag) (Envelope.tag message)) as [Heq |];
    [| discriminate].
  cbn [negb]. intros Hret. exists mine, key. cbn zeta.
  apply String.eqb_eq in Hmac.
  split; [reflexivity |]. split; [reflexivity |]. split; [rewrite <- Hmac; exact Hh |].
  split. { intros Hin. apply includes_In in Hin. congruence. }
  split; [exact Hsize |]. split; [eauto |].
  unfold CryptoJS.Utf8_stringify in Hret.
  destruct (utf8_decode _); injection Hret as <- _; reflexivity.
Qed.

Lemma decrypt_RetObject_missing `{P : Primitives}
    myName buddies message sender usedIVs text missingRecipients usedIVs' :
  decrypt myName buddies message sender usedIVs
  = (Return (RetObject text missingRecipients), usedIVs') ->
  missingRecipients
  = decrypt_missingRecipients buddies sender (Envelope.encrypted message).
Proof.
  destruct (JSObject.get (Envelope.encrypted message) myName) as [mine | s | |] eqn:Hmine.
  2-4: destruct (decrypt_no_entry myName buddies message sender usedIVs) as (e & -> & _);
    [intros mine; rewrite Hmine; discriminate | discriminate].
  rewrite (decrypt_entry _ _ _ _ _ mine Hmine). cbn zeta.
  repeat match goal with
         | |- context [match ?x with _ => _ end] => destruct x
         end; intros [=]; congruence.
Qed.

(** ** The names [decrypt] finds in an envelope of [encrypt] *)

Section EnvelopeNames.
Context `{P : Primitives}.

Lemma existsb_eqb_In (name : string) (names : list string) :
  existsb (String.eqb name) names = true <-> In name names.
Proof.
  rewrite existsb_exists. split.
  - intros (x & Hx & Heq). apply String.eqb_eq in Heq. subst x. exact Hx.
  - intros Hin. exists name. split; [exact Hin | apply String.eqb_refl].
Qed.

Lemma field_is_Some (e : Entry.t) (name : string) :
  is_Some (Entry.hmac e) ->
  is_Some (JSObject.field e name) <-> In name ["message"; "iv"; "hmac"].
Proof.
  intros Hmac. unfold JSObject.field. cbn [In].
  destruct (String.eqb_spec name "message") as [-> | Hm]; [split; eauto |].
  destruct (String.eqb_spec name "iv") as [-> | Hi]; [split; eauto |].
  destruct (String.eqb_spec name "hmac") as [-> | Hh]; [split; eauto |].
  split; [intros [? [=]] | intros [? | [? | [? | []]]]; congruence].
Qed.

(** [name in encrypted], for the envelope [encrypt] returns. *)
Lemma encrypt_has plaintext recipients st env st' name :
  encrypt plaintext recipients st = Some (env, st') ->
  let keyed n := exists r, In r recipients /\ nickname r = n /\ is_Some (mpSecretKey r) in
  JSObject.has (Envelope.encrypted env) name = true <->
  keyed name \/ In name JSObject.Object_prototype \/
  keyed "__proto__" /\ In name ["message"; "iv"; "hmac"].
Proof.
  intros Hrun keyed.
  destruct (encrypt_keys _ _ _ _ _ Hrun) as (Hown & Hproto & _ & Hmac).
  unfold JSObject.has, Envelope.encrypted. cbn [JSObject.own JSObject.proto].
  rewrite !orb_true_iff, !bool_decide_eq_true, existsb_eqb_In, (Hown name).
  fold (keyed name). fold (keyed "__proto__") in Hproto.
  assert (Hfield : is_Some (from_option (fun e => JSObject.field e name) None
                              (Envelope.proto env))
                   <-> keyed "__proto__" /\ In name ["message"; "iv"; "hmac"]).
  { rewrite <- Hproto. destruct (Envelope.proto env) as [e |] eqn:He; cbn [from_option].
    - rewrite (field_is_Some e name (Hmac e eq_refl)). split; [eauto | tauto].
    - split; [intros [? [=]] | intros [[? [=]] _]]. }
  rewrite Hfield.
  destruct (String.eqb_spec name "__proto__") as [-> | Hne].
  - assert (In "__proto__" JSObject.Object_prototype) by (cbn; auto 20). tauto.
  - tauto.
Qed.

End EnvelopeNames.

(** X19: when [decrypt] returns the text of an envelope made by [encrypt], the
    missing recipients it reports are exactly the buddies of the caller,
    other than the sender, that line 113 does not find in the envelope: those
    that are not among the recipients with a shared secret the envelope was
    made for and do not bear the name of a property of [Object.prototype]
    nor, when such a recipient is named [__proto__], of a field of an entry. *)
Theorem decrypt_reports_left_out_buddies `{P : Primitives}
    (plaintext : string) (recipients : list Buddy) (st : State)
    (env : Envelope.t) (st' : State)
    (myName : string) (buddies : list string) (sender : Buddy) (registry : list string)
    (text : string) (missingRecipients : list string) (registry' : list string) :
  encrypt plaintext recipients st = Some (env, st') ->
  decrypt myName buddies env sender registry
  = (Return (RetObject text missingRecipients), registry') ->
  let keyed n := exists r, In r recipients /\ nickname r = n /\ is_Some (mpSecretKey r) in
  forall b, In b missingRecipients <->
    In b buddies /\ b <> nickname sender /\
    ~ keyed b /\
    ~ In b JSObject.Object_prototype /\
    ~ (keyed "__proto__" /\ In b ["message"; "iv"; "hmac"]).
Proof.
  intros Henc Hdec keyed b. apply decrypt_RetObject_missing in Hdec as ->.
  unfold decrypt_missingRecipients. rewrite filter_In, andb_true_iff, !negb_true_iff.
  rewrite String.eqb_neq, <- not_true_iff_false.
  rewrite (encrypt_has _ _ _ _ _ b Henc). fold (keyed b) (keyed "__proto__"). tauto.
Qed.

(** X20: an envelope made by [encrypt], read under a nickname that no
    recipient with a shared secret has.  When the nickname is no property
    name of [Object.prototype] (nor, if a recipient with a shared secret is
    named [__proto__], the name of a field of an entry), [decrypt] fails with
    [NotAddressedToMe].  When it is one, such as [constructor] or [toString],
    and the sender has a shared secret, [decrypt] passes line 105 and ends in
    a [TypeError].  Both leave the registry as it was. *)
Theorem decrypt_not_a_recipient `{P : Primitives}
    (plaintext : string) (recipients : list Buddy) (st : State)
    (env : Envelope.t) (st' : State)
    (myName : string) (buddies : list string) (sender : Buddy) (registry : list string) :
  encrypt plaintext recipients st = Some (env, st') ->
  (forall r, In r recipients -> nickname r = myName -> mpSecretKey r = None) ->
  (~ In myName JSObject.Object_prototype ->
   ((exists r, In r recipients /\ nickname r = "__proto__" /\ is_Some (mpSecretKey r)) ->
    ~ In myName ["message"; "iv"; "hmac"]) ->
   decrypt myName buddies env sender registry = (Throw NotAddressedToMe, registry)) /\
  (In myName JSObject.Object_prototype ->
   is_Some (mpSecretKey sender) ->
   decrypt myName buddies env sender registry = (Throw TypeError, registry)).
Proof.
  intros Henc Hnot.
  destruct (encrypt_keys _ _ _ _ _ Henc) as (Hown & Hproto & _ & Hmac).
  assert (Hnone : Envelope.text env !! myName = None).
  { destruct (Envelope.text env !! myName) as [mine |] eqn:Hmine; [| reflexivity].
    assert (Hsome : is_Some (Envelope.text env !! myName)) by eauto.
    apply Hown in Hsome as (_ & r & Hr & Hname & [key Hkey]).
    rewrite (Hnot r Hr Hname) in Hkey. discriminate. }
  unfold decrypt, JSObject.get, Envelope.encrypted. cbn [JSObject.own JSObject.proto].
  rewrite Hnone. split.
  - intros Hnotin Hfields.
    assert (Hfield : from_option (fun e => JSObject.field e myName) None (Envelope.proto env)
                     = None).
    { destruct (Envelope.proto env) as [e |] eqn:He; [| reflexivity]. cbn [from_option].
      destruct (JSObject.field e myName) as [s |] eqn:Hs; [| reflexivity].
      destruct Hfields.
      - apply Hproto. eauto.
      - apply (field_is_Some e myName (Hmac e eq_refl)). eauto. }
    rewrite Hfield.
    destruct (String.eqb_spec myName "__proto__") as [-> | _].
    + destruct Hnotin. cbn. auto 20.
    + destruct (existsb (String.eqb myName) JSObject.Object_prototype) eqn:Hin;
        [| reflexivity].
      apply existsb_eqb_In in Hin. contradiction.
  - intros Hin [key Hkey].
    assert (Hfield : from_option (fun e => JSObject.field e myName) None (Envelope.proto env)
                     = None).
    { destruct (Envelope.proto env) as [e |] eqn:He; [| reflexivity]. cbn [from_option].
      destruct (JSObject.field e myName) as [s |] eqn:Hs; [| reflexivity].
      assert (Hf : In myName ["message"; "iv"; "hmac"])
        by (apply (field_is_Some e myName (Hmac e eq_refl)); eauto).
      cbn in Hin, Hf. intuition congruence. }
    rewrite Hfield, Hkey.
    destruct (String.eqb_spec myName "__proto__") as [-> | _].
    + destruct (Envelope.proto env) as [e |] eqn:He; [| reflexivity].
      assert (Hsome : is_Some (Some e)) by eauto.
      apply Hproto in Hsome as (r & Hr & Hname & [k Hk]).
      rewrite (Hnot r Hr Hname) in Hk. discriminate.
    + apply existsb_eqb_In in Hin. rewrite Hin. reflexivity.
Qed.

(** ** Entries added to an envelope *)

Section AddedEntry.
Context `{P : Primitives}.
Import WA WAFacts CryptoJS SortFacts.

Lemma flat_map_sort_insert_nil {A B} (f : A -> list B) cmp x l :
  f x = [] -> flat_map f (sort_insert cmp x l) = flat_map f l.
Proof.
  intros Hx. induction l as [| y l IH]; cbn [sort_insert flat_map].
  - rewrite Hx. reflexivity.
  - destruct (cmp x y <? 0); cbn [flat_map]; [rewrite Hx | rewrite IH]; reflexivity.
Qed.

(** The keys of a map with one more key, in order: those of the map with the
    new one put in its place. *)
Lemma decrypt_sortedRecipients_insert (encrypted : gmap string Entry.t) X e :
  encrypted !! X = None ->
  decrypt_sortedRecipients (<[X := e]> encrypted)
  = sort_insert (fun a b => codeUnitCompare (fst a) (fst b)) (X, e)
                (decrypt_sortedRecipients encrypted).
Proof.
  intros Hnone. unfold decrypt_sortedRecipients.
  apply (Array_sort_canonical fst).
  - rewrite (sort_insert_perm _ (X, e)), (Array_sort_perm _ (map_to_list encrypted)).
    cbn [map fst]. apply NoDup_cons. split; [| apply NoDup_fst_map_to_list].
    intros Hin. apply list_elem_of_fmap in Hin as ([k v] & -> & Hin).
    apply elem_of_map_to_list in Hin. cbn in Hnone. congruence.
  - apply (sort_insert_sorted fst), (Array_sort_sorted fst).
  - rewrite (sort_insert_perm _ (X, e)), (Array_sort_perm _ (map_to_list encrypted)).
    apply map_to_list_insert. exact Hnone.
Qed.

Lemma decrypt_messageTag_has_hmac es messageTag t :
  decrypt_messageTag es messageTag = Some t ->
  Forall (fun e => is_Some (Entry.hmac (snd e))) es.
Proof.
  revert messageTag. induction es as [| e es IH]; intros messageTag; cbn [decrypt_messageTag].
  - constructor.
  - destruct (Entry.hmac (snd e)) as [h |] eqn:Hh; [| discriminate].
    intros Hrest. constructor; [rewrite Hh; eauto | apply (IH _ Hrest)].
Qed.

(** [in] after a property was added. *)
Lemma has_insert (text : gmap string Entry.t) proto X e name :
  JSObject.has (JSObject.mk (<[X := e]> text) proto) name
  = String.eqb name X || JSObject.has (JSObject.mk text proto) name.
Proof.
  unfold JSObject.has. cbn [JSObject.own JSObject.proto].
  destruct (String.eqb_spec name X) as [-> | Hne].
  - rewrite lookup_insert_eq.
    rewrite (bool_decide_eq_true_2 (is_Some (Some e))) by eauto. reflexivity.
  - rewrite lookup_insert_ne by congruence. reflexivity.
Qed.

Lemma missingRecipients_insert buddies sender (text : gmap string Entry.t) proto X e :
  decrypt_missingRecipients buddies sender (JSObject.mk (<[X := e]> text) proto)
  = List.filter (fun b => negb (String.eqb b X))
                (decrypt_missingRecipients buddies sender (JSObject.mk text proto)).
Proof.
  unfold decrypt_missingRecipients.
  induction buddies as [| b buddies IH]; [reflexivity |].
  cbn [List.filter]. rewrite IH, has_insert.
  destruct (String.eqb b X) eqn:HbX; cbn [orb negb].
  - rewrite andb_false_r.
    destruct (negb (b =? nickname sender)%string
              && negb (JSObject.has (JSObject.mk text proto) b));
      cbn [List.filter]; [rewrite HbX |]; reflexivity.
  - destruct (negb (b =? nickname sender)%string
              && negb (JSObject.has (JSObject.mk text proto) b));
      cbn [List.filter]; [rewrite HbX |]; reflexivity.
Qed.

(** [object[name]] after a property was added under another name. *)
Lemma get_insert_ne (text : gmap string Entry.t) proto X e name :
  X <> name ->
  JSObject.get (JSObject.mk (<[X := e]> text) proto) name
  = JSObject.get (JSObject.mk text proto) name.
Proof.
  intros Hne. unfold JSObject.get. cbn [JSObject.own JSObject.proto].
  rewrite lookup_insert_ne by exact Hne. reflexivity.
Qed.

End AddedEntry.

(** X21: an envelope [decrypt] returns the text of is still accepted, with the
    same text and the same registry, after an entry whose ciphertext, IV and
    MAC decode to no byte is added under a nickname it had no entry for; that
    nickname is then no longer reported among the missing recipients.  (On a
    message whose [text] has the prototype of an object literal the new
    nickname is never the caller's; on another one it is required not to be.) *)
Theorem decrypt_accepts_added_empty_entry `{P : Primitives}
    (myName : string) (buddies : list string) (message : Envelope.t)
    (sender : Buddy) (usedIVs : list string) (X : string) (added : Entry.t) (h : string)
    (text : string) (missingRecipients : list string) (usedIVs' : list string) :
  base64_decode (Entry.message added) = [] ->
  base64_decode (Entry.iv added) = [] ->
  Entry.hmac added = Some h ->
  base64_decode h = [] ->
  Envelope.text message !! X = None ->
  Envelope.proto message = None \/ X <> myName ->
  decrypt myName buddies message sender usedIVs
  = (Return (RetObject text missingRecipients), usedIVs') ->
  decrypt myName buddies
    (Envelope.make (Envelope.type message) (<[X := added]> (Envelope.text message))
       (Envelope.proto message) (Envelope.tag message))
    sender usedIVs
  = (Return (RetObject text
               (List.filter (fun b => negb (String.eqb b X)) missingRecipients)),
     usedIVs').
Proof.
  intros Hmsg Hiv Hh Hmac HX Hother.
  destruct (JSObject.get (Envelope.encrypted message) myName) as [mine | s | |] eqn:Hmine.
  2-4: destruct (decrypt_no_entry myName buddies message sender usedIVs) as (e & -> & _);
    [intros mine; rewrite Hmine; discriminate | discriminate].
  assert (Hne : X <> myName).
  { destruct Hother as [Hplain | Hne]; [| exact Hne].
    intros ->. unfold Envelope.encrypted in Hmine. rewrite Hplain in Hmine.
    apply get_plain in Hmine. congruence. }
  rewrite (decrypt_entry _ _ _ _ _ mine Hmine).
  rewrite (decrypt_entry _ _ _ _ _ mine).
  2: { unfold Envelope.encrypted. cbn [Envelope.text Envelope.proto].
       rewrite get_insert_ne by exact Hne. exact Hmine. }
  cbn [Envelope.text Envelope.tag]. cbn zeta.
  destruct (mpSecretKey sender) as [key |]; [| discriminate].
  destruct (Entry.hmac mine) as [mac |]; [| discriminate].
  rewrite (decrypt_sortedRecipients_insert _ X _ HX).
  set (byKey := fun a b : string * Entry.t => codeUnitCompare (fst a) (fst b)).
  set (es := decrypt_sortedRecipients (Envelope.text message)).
  rewrite (HMAC_ext (decrypt_hmacInput (sort_insert byKey (X, added) es))
                    (decrypt_hmacInput es)).
  2: { rewrite !bytes_decrypt_hmacInput. apply flat_map_sort_insert_nil.
       unfold entryBytes. cbn [snd]. rewrite Hmsg, Hiv. reflexivity. }
  destruct (negb (HLP_compare mac _)); [discriminate |].
  destruct (includes usedIVs (Entry.iv mine)); [discriminate |].
  destruct (_ <? _)%nat; [discriminate |].
  destruct (decrypt_messageTag es _) as [t |] eqn:Ht; [| discriminate].
  assert (Hall : Forall (fun e => is_Some (Entry.hmac (snd e)))
                        (sort_insert byKey (X, added) es)).
  { rewrite (SortFacts.sort_insert_perm byKey (X, added) es). constructor.
    - cbn [snd]. rewrite Hh. eauto.
    - exact (decrypt_messageTag_has_hmac _ _ _ Ht). }
  destruct (decrypt_messageTag_sealed _
              (CryptoJS.clone (decryptAES (Entry.message mine) (Secret.message key)
                                 (Entry.iv mine))) Hall) as (t' & Ht').
  rewrite Ht'.
  rewrite (createMessageTag_ext t' t).
  2: { apply decrypt_messageTag_bytes in Ht, Ht'. rewrite Ht, Ht'. f_equal.
       apply flat_map_sort_insert_nil.
       unfold macBytes. cbn [snd]. rewrite Hh. exact Hmac. }
  destruct (negb (String.eqb (createMessageTag t) (Envelope.tag message))); [discriminate |].
  destruct (CryptoJS.Utf8_stringify _); [| discriminate].
  intros [= -> <- <-]. unfold Envelope.encrypted. cbn [Envelope.text Envelope.proto].
  rewrite missingRecipients_insert. reflexivity.
Qed.

(** ** Entries taken out of an envelope, and entries with bytes added to it *)

Section ChangedEntries.
Context `{P : Primitives}.
Import WA WAFacts CryptoJS SortFacts.

Hypothesis base64_decode_encode : forall bs, base64_decode (base64_encode bs) = bs.

Lemma delete_list_to_map_middle (es1 es2 : list (string * Entry.t)) X e :
  NoDup ((es1 ++ (X, e) :: es2).*1) ->
  delete X (list_to_map (es1 ++ (X, e) :: es2) : gmap string Entry.t)
  = list_to_map (es1 ++ es2).
Proof.
  intros Hnodup. rewrite fmap_app in Hnodup. cbn [fmap list_fmap fst] in Hnodup.
  apply NoDup_app in Hnodup as (_ & Hdisj & Hnodup2).
  apply NoDup_cons in Hnodup2 as [Hnotin2 _].
  assert (Hnotin1 : X ∉ es1.*1) by (intros Hin; apply (Hdisj X Hin); left).
  rewrite !list_to_map_app, list_to_map_cons, delete_union, delete_insert_eq.
  rewrite !delete_id by (apply not_elem_of_list_to_map_1; assumption).
  reflexivity.
Qed.

Lemma StronglySorted_middle {A} (R : relation A) l1 x l2 :
  StronglySorted R (l1 ++ x :: l2) -> StronglySorted R (l1 ++ l2).
Proof.
  induction l1 as [| y l1 IH]; cbn [app]; intros Hsorted.
  - apply StronglySorted_inv in Hsorted as [Hsorted _]. exact Hsorted.
  - apply StronglySorted_inv in Hsorted as [Hsorted Hall].
    constructor; [apply IH, Hsorted |].
    apply Forall_app in Hall as [Hall1 Hall2]. apply Forall_cons in Hall2 as [_ Hall2].
    apply Forall_app. auto.
Qed.

(** What [decrypt] does with a sealed envelope from which the entry of
    another recipient was taken out, when that entry is not empty. *)
Lemma decrypt_removed body rs ivs env i name key iv sender buddies registry X e :
  sealed body rs ivs env ->
  NoDup (rs.*1) -> StronglySorted cuLe (rs.*1) ->
  rs !! i = Some (name, key) -> ivs !! i = Some iv ->
  mpSecretKey sender = Some key ->
  Envelope.text env !! X = Some e -> X <> name -> entryBytes (X, e) <> [] ->
  collisionFree (fun m => hmac_sha512 m (bytes (Secret.hmac key)))
    (decrypt_entryBytes (Envelope.text env))
    (decrypt_entryBytes (delete X (Envelope.text env))) ->
  decrypt name buddies
    (Envelope.mk (Envelope.type env) (delete X (Envelope.text env)) (Envelope.tag env))
    sender registry
  = (Throw AuthenticationFailure, registry).
Proof.
  intros (pt & hmacInput & tagInput & Hbody & Hlen & Htext & Hplain & Hhi & Htag & Htagbytes)
         Hnodup Hsorted Hr Hiv Hkey HX Hne Hnonempty Hfree.
  set (es := zip_with (sealedEntry pt hmacInput) rs ivs) in *.
  assert (Hkeys : es.*1 = rs.*1) by (apply fst_zip_with_sealed; exact Hlen).
  assert (Hnodup_es : NoDup (es.*1)) by (rewrite Hkeys; exact Hnodup).
  set (mine := Entry.mk (encryptAES pt (Secret.message key) iv) iv
                        (Some (HMAC hmacInput (Secret.hmac key)))).
  assert (Hin : (name, mine) ∈ es).
  { apply list_elem_of_lookup. exists i. unfold es.
    rewrite lookup_zip_with, Hr. cbn. rewrite Hiv. reflexivity. }
  assert (Hmine : Envelope.text env !! name = Some mine).
  { rewrite Htext. apply elem_of_list_to_map_1; assumption. }
  assert (HinX : (X, e) ∈ es).
  { apply elem_of_list_to_map_2. rewrite <- Htext. exact HX. }
  destruct (list_elem_of_split _ _ HinX) as (es1 & es2 & Hsplit).
  assert (Htext' : delete X (Envelope.text env) = list_to_map (es1 ++ es2)).
  { rewrite Htext, Hsplit. apply delete_list_to_map_middle. rewrite <- Hsplit. exact Hnodup_es. }
  assert (Hkeys' : NoDup ((es1 ++ es2).*1) /\ StronglySorted cuLe ((es1 ++ es2).*1)).
  { rewrite <- Hkeys, Hsplit in Hsorted. rewrite Hsplit in Hnodup_es.
    rewrite fmap_app in Hsorted, Hnodup_es |- *. cbn [fmap list_fmap] in Hsorted, Hnodup_es.
    split; [| apply (StronglySorted_middle _ _ _ _ Hsorted)].
    apply NoDup_app in Hnodup_es as (Hn1 & Hdisj & Hn2).
    apply NoDup_cons in Hn2 as [_ Hn2].
    apply NoDup_app. split; [exact Hn1 |]. split; [| exact Hn2].
    intros x Hx Hx'. apply (Hdisj x Hx). right. exact Hx'. }
  destruct Hkeys' as [Hnodup' Hsorted'].
  unfold decrypt_entryBytes in Hfree.
  rewrite Htext' in Hfree.
  rewrite Htext in Hfree at 1.
  rewrite !decrypt_sortedRecipients_canonical in Hfree
    by first [assumption | rewrite Hkeys; assumption].
  rewrite (decrypt_entry _ _ _ _ _ mine).
  2: { apply get_own. unfold Envelope.encrypted, Envelope.mk. cbn [Envelope.text JSObject.own].
       rewrite lookup_delete_ne by exact Hne. exact Hmine. }
  rewrite Hkey. unfold Envelope.mk. cbn [Envelope.text]. cbn zeta.
  rewrite Htext', decrypt_sortedRecipients_canonical by assumption.
  change (Entry.hmac mine) with (Some (HMAC hmacInput (Secret.hmac key))).
  unfold HLP_compare.
  assert (Hneq : HMAC hmacInput (Secret.hmac key)
                 <> HMAC (decrypt_hmacInput (es1 ++ es2)) (Secret.hmac key)).
  { apply not_eq_sym, (HMAC_neq base64_decode_encode).
    - rewrite Hhi, bytes_decrypt_hmacInput. exact Hfree.
    - rewrite Hhi, Hsplit, bytes_decrypt_hmacInput, flat_map_middle, flat_map_app.
      intros Heq. apply app_inv_head in Heq.
      apply (f_equal length) in Heq. rewrite length_app in Heq.
      apply Hnonempty, nil_length_inv. lia. }
  apply String.eqb_neq in Hneq. rewrite Hneq. reflexivity.
Qed.

Lemma length_flat_map_sort_insert {A B} (f : A -> list B) cmp x l :
  length (flat_map f (sort_insert cmp x l)) = (length (f x) + length (flat_map f l))%nat.
Proof.
  induction l as [| y l IH]; cbn [sort_insert flat_map].
  - rewrite length_app. reflexivity.
  - destruct (cmp x y <? 0); cbn [flat_map]; rewrite !length_app; [reflexivity |].
    rewrite IH. lia.
Qed.

(** What [decrypt] does with a sealed envelope to which an entry that is not
    empty was added under a new nickname. *)
Lemma decrypt_added body rs ivs env i name key iv sender buddies registry X e :
  sealed body rs ivs env ->
  NoDup (rs.*1) -> StronglySorted cuLe (rs.*1) ->
  rs !! i = Some (name, key) -> ivs !! i = Some iv ->
  mpSecretKey sender = Some key ->
  Envelope.text env !! X = None -> entryBytes (X, e) <> [] ->
  collisionFree (fun m => hmac_sha512 m (bytes (Secret.hmac key)))
    (decrypt_entryBytes (Envelope.text env))
    (decrypt_entryBytes (<[X := e]> (Envelope.text env))) ->
  decrypt name buddies
    (Envelope.mk (Envelope.type env) (<[X := e]> (Envelope.text env)) (Envelope.tag env))
    sender registry
  = (Throw AuthenticationFailure, registry).
Proof.
  intros (pt & hmacInput & tagInput & Hbody & Hlen & Htext & Hplain & Hhi & Htag & Htagbytes)
         Hnodup Hsorted Hr Hiv Hkey HX Hnonempty Hfree.
  set (es := zip_with (sealedEntry pt hmacInput) rs ivs) in *.
  assert (Hkeys : es.*1 = rs.*1) by (apply fst_zip_with_sealed; exact Hlen).
  assert (Hnodup_es : NoDup (es.*1)) by (rewrite Hkeys; exact Hnodup).
  set (mine := Entry.mk (encryptAES pt (Secret.message key) iv) iv
                        (Some (HMAC hmacInput (Secret.hmac key)))).
  assert (Hin : (name, mine) ∈ es).
  { apply list_elem_of_lookup. exists i. unfold es.
    rewrite lookup_zip_with, Hr. cbn. rewrite Hiv. reflexivity. }
  assert (Hmine : Envelope.text env !! name = Some mine).
  { rewrite Htext. apply elem_of_list_to_map_1; assumption. }
  assert (Hsorted_es : decrypt_sortedRecipients (Envelope.text env) = es).
  { rewrite Htext. apply decrypt_sortedRecipients_canonical; rewrite Hkeys; assumption. }
  unfold decrypt_entryBytes in Hfree.
  rewrite (decrypt_sortedRecipients_insert _ X e HX), Hsorted_es in Hfree.
  rewrite (decrypt_entry _ _ _ _ _ mine).
  2: { apply get_own. unfold Envelope.encrypted, Envelope.mk. cbn [Envelope.text JSObject.own].
       rewrite lookup_insert_ne by congruence. exact Hmine. }
  rewrite Hkey. unfold Envelope.mk. cbn [Envelope.text]. cbn zeta.
  rewrite (decrypt_sortedRecipients_insert _ X e HX), Hsorted_es.
  change (Entry.hmac mine) with (Some (HMAC hmacInput (Secret.hmac key))).
  unfold HLP_compare.
  match goal with
  | |- context [HMAC (decrypt_hmacInput ?l) _] =>
      assert (Hneq : HMAC hmacInput (Secret.hmac key)
                     <> HMAC (decrypt_hmacInput l) (Secret.hmac key))
  end.
  { apply not_eq_sym, (HMAC_neq base64_decode_encode).
    - rewrite Hhi, bytes_decrypt_hmacInput. exact Hfree.
    - rewrite Hhi, bytes_decrypt_hmacInput. intros Heq.
      apply (f_equal length) in Heq. rewrite length_flat_map_sort_insert in Heq.
      apply Hnonempty, nil_length_inv. lia. }
  apply String.eqb_neq in Hneq. rewrite Hneq. reflexivity.
Qed.

End ChangedEntries.

(** X22: where decoding undoes the transport encoding, taking the entry of
    another recipient out of an envelope made by [encrypt] (different
    nicknames, none of them [__proto__], ranked by [localeCompare] as by their
    code units) makes [decrypt] fail with [AuthenticationFailure] for every
    remaining recipient, and leaves the registry as it was, unless the MAC
    inputs with and without the entry collide under the recipient's key. *)
Theorem decrypt_detects_removed_entry `{P : Primitives}
    (plaintext : string) (recipients : list Buddy) (st : State)
    (env : Envelope.t) (st' : State) (X : string)
    (r : Buddy) (key : Secret.t) (sender : Buddy)
    (buddies : list string) (registry : list string) :
  (forall bs, base64_decode (base64_encode bs) = bs) ->
  encrypt plaintext recipients st = Some (env, st') ->
  NoDup (map nickname recipients) ->
  (forall a b, In a recipients -> In b recipients ->
     (localeCompare (nickname a) (nickname b) <? 0)
     = (codeUnitCompare (nickname a) (nickname b) <? 0)) ->
  (forall a, In a recipients -> is_Some (mpSecretKey a) -> nickname a <> "__proto__") ->
  In r recipients -> mpSecretKey r = Some key -> mpSecretKey sender = Some key ->
  is_Some (Envelope.text env !! X) -> X <> nickname r ->
  collisionFree (fun m => hmac_sha512 m (WA.bytes (Secret.hmac key)))
    (decrypt_entryBytes (Envelope.text env))
    (decrypt_entryBytes (delete X (Envelope.text env))) ->
  decrypt (nickname r) buddies
    (Envelope.mk (Envelope.type env) (delete X (Envelope.text env)) (Envelope.tag env))
    sender registry
  = (Throw AuthenticationFailure, registry).
Proof.
  intros Hb64 Hrun Hnodup Hagree Hproto Hr Hkey Hsender [e HX] Hne Hfree.
  destruct (encrypt_sortedRecipients_sorted recipients Hnodup Hagree)
    as (Hnodup_rs & Hsorted & Hmember).
  pose proof (encrypt_iv_bytes Hb64 _ _ _ _ _ Hrun) as Hivs.
  destruct (encrypt_sealed plaintext recipients st env st' Hrun Hnodup_rs
              (sortedRecipients_not_proto recipients Hproto))
    as (padding & ivs & Hpad & Hsealed & _).
  specialize (Hmember r key Hr Hkey).
  apply list_elem_of_lookup in Hmember as (i & Hi).
  assert (Hlen : length ivs = length (encrypt_sortedRecipients recipients)).
  { destruct Hsealed as (? & ? & ? & _ & Hlen & _). exact Hlen. }
  destruct (lookup_lt_is_Some_2 ivs i) as (iv & Hiv).
  { rewrite Hlen. apply lookup_lt_Some in Hi. exact Hi. }
  apply (decrypt_removed Hb64 _ _ _ env i (nickname r) key iv sender buddies registry X e
           Hsealed Hnodup_rs Hsorted); try assumption.
  intros Hnil. specialize (Hivs X e HX).
  unfold entryBytes in Hnil. cbn [snd] in Hnil.
  apply app_eq_nil in Hnil as [_ Hnil]. rewrite Hnil in Hivs. discriminate.
Qed.

(** X23: where decoding undoes the transport encoding, adding under a new
    nickname an entry whose ciphertext or IV decodes to at least one byte to
    an envelope made by [encrypt] (different nicknames, none of them
    [__proto__], ranked by [localeCompare] as by their code units) makes
    [decrypt] fail with [AuthenticationFailure] for every recipient, and
    leaves the registry as it was, unless the MAC inputs without and with the
    entry collide under the recipient's key. *)
Theorem decrypt_detects_added_entry `{P : Primitives}
    (plaintext : string) (recipients : list Buddy) (st : State)
    (env : Envelope.t) (st' : State) (X : string) (added : Entry.t)
    (r : Buddy) (key : Secret.t) (sender : Buddy)
    (buddies : list string) (registry : list string) :
  (forall bs, base64_decode (base64_encode bs) = bs) ->
  encrypt plaintext recipients st = Some (env, st') ->
  NoDup (map nickname recipients) ->
  (forall a b, In a recipients -> In b recipients ->
     (localeCompare (nickname a) (nickname b) <? 0)
     = (codeUnitCompare (nickname a) (nickname b) <? 0)) ->
  (forall a, In a recipients -> is_Some (mpSecretKey a) -> nickname a <> "__proto__") ->
  In r recipients -> mpSecretKey r = Some key -> mpSecretKey sender = Some key ->
  Envelope.text env !! X = None ->
  base64_decode (Entry.message added) ++ base64_decode (Entry.iv added) <> [] ->
  collisionFree (fun m => hmac_sha512 m (WA.bytes (Secret.hmac key)))
    (decrypt_entryBytes (Envelope.text env))
    (decrypt_entryBytes (<[X := added]> (Envelope.text env))) ->
  decrypt (nickname r) buddies
    (Envelope.mk (Envelope.type env) (<[X := added]> (Envelope.text env)) (Envelope.tag env))
    sender registry
  = (Throw AuthenticationFailure, registry).
Proof.
  intros Hb64 Hrun Hnodup Hagree Hproto Hr Hkey Hsender HX Hnonempty Hfree.
  destruct (encrypt_sortedRecipients_sorted recipients Hnodup Hagree)
    as (Hnodup_rs & Hsorted & Hmember).
  destruct (encrypt_sealed plaintext recipients st env st' Hrun Hnodup_rs
              (sortedRecipients_not_proto recipients Hproto))
    as (padding & ivs & Hpad & Hsealed & _).
  specialize (Hmember r key Hr Hkey).
  apply list_elem_of_lookup in Hmember as (i & Hi).
  assert (Hlen : length ivs = length (encrypt_sortedRecipients recipients)).
  { destruct Hsealed as (? & ? & ? & _ & Hlen & _). exact Hlen. }
  destruct (lookup_lt_is_Some_2 ivs i) as (iv & Hiv).
  { rewrite Hlen. apply lookup_lt_Some in Hi. exact Hi. }
  apply (decrypt_added Hb64 _ _ _ env i (nickname r) key iv sender buddies registry
           X added Hsealed Hnodup_rs Hsorted); assumption.
Qed.

(** ** A modified MAC and the genuine envelope *)

(** X24: where the cipher and the transport encoding invert, a recipient that
    is handed an envelope made by [encrypt] (different nicknames, none of
    them [__proto__], ranked by [localeCompare] as by their code units) in
    which the MAC of another entry was replaced by one that decodes to other
    bytes, before it has seen the IV of its own entry, fails with
    [TagFailure] and has registered that IV, unless the old and the new tag
    input collide in the eight rounds of the hash: the genuine envelope then
    fails with [ReplayDetected]. *)
Theorem tampered_mac_blocks_genuine_envelope `{P : Primitives}
    (plaintext : string) (recipients : list Buddy) (st : State)
    (env : Envelope.t) (st' : State) (X : string) (e e' : Entry.t)
    (r : Buddy) (key : Secret.t) (mine : Entry.t) (sender : Buddy)
    (buddies : list string) (registry : list string) :
  (forall bs, base64_decode (base64_encode bs) = bs) ->
  (forall m k c, aes_ctr_decrypt (aes_ctr_encrypt m k c) k c = m) ->
  encrypt plaintext recipients st = Some (env, st') ->
  NoDup (map nickname recipients) ->
  (forall a b, In a recipients -> In b recipients ->
     (localeCompare (nickname a) (nickname b) <? 0)
     = (codeUnitCompare (nickname a) (nickname b) <? 0)) ->
  (forall a, In a recipients -> is_Some (mpSecretKey a) -> nickname a <> "__proto__") ->
  Envelope.text env !! X = Some e -> modified MAC e e' ->
  macBytes (X, e') <> macBytes (X, e) -> X <> nickname r ->
  In r recipients -> mpSecretKey r = Some key -> mpSecretKey sender = Some key ->
  Envelope.text env !! nickname r = Some mine ->
  includes registry (Entry.iv mine) = false ->
  let text' := <[X := e']> (Envelope.text env) in
  let body :=
    WA.bytes (decryptAES (Entry.message mine) (Secret.message key) (Entry.iv mine)) in
  collisionFree (Nat.iter 8 sha512)
    (body ++ decrypt_macBytes (Envelope.text env)) (body ++ decrypt_macBytes text') ->
  let registry' := registry ++ [Entry.iv mine] in
  decrypt (nickname r) buddies
    (Envelope.mk (Envelope.type env) text' (Envelope.tag env)) sender registry
  = (Throw TagFailure, registry') /\
  decrypt (nickname r) buddies env sender registry' = (Throw ReplayDetected, registry').
Proof.
  intros Hb64 Haes Hrun Hnodup Hagree Hproto HX Hmodified Hbytes Hne Hr Hkey Hsender
         Hmine Hfresh text' body Hfree registry'.
  split.
  - destruct (encrypt_sortedRecipients_sorted recipients Hnodup Hagree)
      as (Hnodup_rs & Hsorted & Hmember).
    destruct (encrypt_sealed plaintext recipients st env st' Hrun Hnodup_rs
                (sortedRecipients_not_proto recipients Hproto))
      as (padding & ivs & Hpad & Hsealed & _).
    specialize (Hmember r key Hr Hkey).
    apply list_elem_of_lookup in Hmember as (i & Hi).
    assert (Hlen : length ivs = length (encrypt_sortedRecipients recipients)).
    { destruct Hsealed as (? & ? & ? & _ & Hlen & _). exact Hlen. }
    destruct (lookup_lt_is_Some_2 ivs i) as (iv & Hiv).
    { rewrite Hlen. apply lookup_lt_Some in Hi. exact Hi. }
    destruct (decrypt_sealed Hb64 Haes _ _ _ _ i (nickname r) key iv sender buddies []
                Hsealed Hnodup_rs Hsorted Hi Hiv Hsender) as (mine0 & Hmine0 & Hmine_iv & _).
    assert (mine0 = mine) as -> by congruence. subst iv.
    assert (Hbody : body = utf8_encode plaintext ++ padding).
    { apply (sealed_body Hb64 Haes _ _ _ env (nickname r) key mine Hsealed Hnodup_rs);
        [exact Hmine | apply list_elem_of_lookup_2 in Hi; exact Hi]. }
    rewrite Hbody in Hfree.
    pose proof (decrypt_modified Hb64 Haes _ _ _ env i (nickname r) key (Entry.iv mine)
                  sender buddies registry X e e' MAC Hsealed Hnodup_rs Hsorted) as Hmain.
    apply String.eqb_neq in Hne.
    cbv zeta in Hmain. rewrite Hne, Hfresh in Hmain.
    apply Hmain; try assumption. rewrite length_app, Hpad. lia.
  - unfold registry'.
    assert (Hget : JSObject.get (Envelope.encrypted env) (nickname r) = JSObject.AnEntry mine)
      by (apply get_own; exact Hmine).
    destruct (encrypt_sortedRecipients_sorted recipients Hnodup Hagree)
      as (Hnodup_rs & Hsorted & Hmember).
    destruct (encrypt_sealed plaintext recipients st env st' Hrun Hnodup_rs
                (sortedRecipients_not_proto recipients Hproto))
      as (padding & ivs & Hpad & Hsealed & _).
    specialize (Hmember r key Hr Hkey).
    apply list_elem_of_lookup in Hmember as (i & Hi).
    assert (Hlen : length ivs = length (encrypt_sortedRecipients recipients)).
    { destruct Hsealed as (? & ? & ? & _ & Hlen & _). exact Hlen. }
    destruct (lookup_lt_is_Some_2 ivs i) as (iv & Hiv).
    { rewrite Hlen. apply lookup_lt_Some in Hi. exact Hi. }
    destruct (decrypt_sealed Hb64 Haes _ _ _ _ i (nickname r) key iv sender buddies
                (registry ++ [Entry.iv mine]) Hsealed Hnodup_rs Hsorted Hi Hiv Hsender)
      as (mine0 & Hmine0 & Hmine_iv & Hgenuine).
    assert (mine0 = mine) as -> by congruence. subst iv.
    rewrite includes_push in Hgenuine. exact Hgenuine.
Qed.

(** ** The further statements at concrete inputs *)

Lemma newPrivateKey_public_key_witness :
  newPrivateKey [Ref.alicePriv; Ref.bobPriv] = Some (Ref.alicePriv, [Ref.bobPriv]) /\
  length Ref.alicePriv = 32%nat /\
  [Ref.alicePriv; Ref.bobPriv] = Ref.alicePriv :: [Ref.bobPriv] /\
  let publicKey := publicKeyFromPrivate (P := Ref.prims) Ref.alicePriv in
  length (PublicKey.raw publicKey) = 32%nat /\
  parsePublicKey (P := Ref.prims) (PublicKey.encoded publicKey) = PublicKey.raw publicKey /\
  fingerprint (P := Ref.prims) (parsePublicKey (P := Ref.prims) (PublicKey.encoded publicKey))
  = fingerprint (P := Ref.prims) (PublicKey.raw publicKey).
Proof.
  split; [reflexivity |].
  apply (newPrivateKey_public_key (P := Ref.prims) [Ref.alicePriv; Ref.bobPriv] [Ref.bobPriv]
           Ref.alicePriv RefFacts.length_pointwise_base RefFacts.transport_decode_encode).
  reflexivity.
Defined.

Lemma fingerprint_format_witness :
  String.length (fingerprint (P := Ref.prims)
                   (PublicKey.raw (publicKeyFromPrivate (P := Ref.prims) Ref.alicePriv)))
  = 40%nat /\
  Forall (fun c => In c upperHexDigits)
         (list_ascii_of_string
            (fingerprint (P := Ref.prims)
               (PublicKey.raw (publicKeyFromPrivate (P := Ref.prims) Ref.alicePriv)))).
Proof.
  exact (fingerprint_format (P := Ref.prims)
           (PublicKey.raw (publicKeyFromPrivate (P := Ref.prims) Ref.alicePriv))
           RefFacts.length_digest64).
Defined.

Lemma fromWordArray_beyond_sigBytes_witness :
  length (WA.fromWordArray (WA.mk [1633837924; 1694498816] 5)) = 8%nat /\
  take 5 (WA.fromWordArray (WA.mk [1633837924; 1694498816] 5))
  = WA.bytes (WA.mk [1633837924; 1694498816] 5).
Proof.
  apply (fromWordArray_beyond_sigBytes (WA.mk [1633837924; 1694498816] 5)).
  cbn. lia.
Defined.

Lemma generateIV_skips_used_ivs_witness :
  generateIV (P := Ref.prims) ["QUFBQUFBQUFBQUFB"]
    ([repeat x41 12] ++ repeat x42 12 :: [repeat x43 12])
  = Some ("QkJCQkJCQkJCQkJC"%string, [repeat x43 12]).
Proof.
  apply (generateIV_skips_used_ivs (P := Ref.prims) ["QUFBQUFBQUFBQUFB"]
           [repeat x41 12] (repeat x42 12) [repeat x43 12]).
  - constructor; [| constructor]. split; [reflexivity | left; reflexivity].
  - reflexivity.
  - intros [Heq | []]. vm_compute in Heq. discriminate.
Defined.

Lemma encrypt_addresses_keyed_recipients_witness :
  let recipients :=
    [Ref.bob; {| nickname := "carol"; mpSecretKey := None |}; Ref.protoBuddy] in
  let env := Ref.envelopeOf (encrypt (P := Ref.prims) "hi" recipients Ref.st0) in
  Envelope.type env = "message"%string /\
  (forall name, is_Some (Envelope.text env !! name) <->
     name <> "__proto__"%string /\
     exists r, In r recipients /\ nickname r = name /\ is_Some (mpSecretKey r)) /\
  (is_Some (Envelope.proto env) <->
     exists r, In r recipients /\ nickname r = "__proto__"%string /\ is_Some (mpSecretKey r)) /\
  (forall name e, Envelope.text env !! name = Some e -> is_Some (Entry.hmac e)) /\
  (forall e, Envelope.proto env = Some e -> is_Some (Entry.hmac e)).
Proof.
  apply (encrypt_addresses_keyed_recipients (P := Ref.prims) "hi"
           [Ref.bob; {| nickname := "carol"; mpSecretKey := None |}; Ref.protoBuddy] Ref.st0
           (Ref.envelopeOf
              (encrypt (P := Ref.prims) "hi"
                 [Ref.bob; {| nickname := "carol"; mpSecretKey := None |}; Ref.protoBuddy]
                 Ref.st0))
           (Ref.stateOf
              (encrypt (P := Ref.prims) "hi"
                 [Ref.bob; {| nickname := "carol"; mpSecretKey := None |}; Ref.protoBuddy]
                 Ref.st0))).
  vm_compute. reflexivity.
Defined.

Lemma encrypt_without_keyed_recipient_witness :
  encrypt (P := Ref.prims) "hi" [{| nickname := "carol"; mpSecretKey := None |}]
    {| usedIVs := ["QUFBQUFBQUFBQUFB"]; entropy := repeat x07 64 :: [repeat x41 12] |}
  = Some (Envelope.mk "message" ∅
            (base64_encode (Primitives := Ref.prims)
               (Nat.iter 8 (sha512 (Primitives := Ref.prims))
                  (utf8_encode (Primitives := Ref.prims) "hi" ++ repeat x07 64))),
          {| usedIVs := ["QUFBQUFBQUFBQUFB"]; entropy := [repeat x41 12] |}).
Proof.
  apply (encrypt_without_keyed_recipient (P := Ref.prims) "hi"
           [{| nickname := "carol"; mpSecretKey := None |}]
           ["QUFBQUFBQUFBQUFB"] (repeat x07 64) [repeat x41 12]).
  - intros r [<- | []]. reflexivity.
  - reflexivity.
Defined.

Lemma encrypt_entries_have_fresh_ivs_witness :
  (forall name e, Envelope.text Ref.envelope !! name = Some e ->
     In (Entry.iv e) (usedIVs Ref.sentState) /\ ~ In (Entry.iv e) (usedIVs Ref.st0)) /\
  (forall n1 n2 e1 e2, n1 <> n2 ->
     Envelope.text Ref.envelope !! n1 = Some e1 -> Envelope.text Ref.envelope !! n2 = Some e2 ->
     Entry.iv e1 <> Entry.iv e2).
Proof.
  apply (encrypt_entries_have_fresh_ivs (P := Ref.prims) "hi" [Ref.bob; Ref.alice] Ref.st0
           Ref.envelope Ref.sentState).
  vm_compute. reflexivity.
Defined.

Lemma encrypt_ignores_recipient_order_witness :
  encrypt (P := Ref.prims) "hi" [Ref.bob; Ref.alice] Ref.st0
  = encrypt (P := Ref.prims) "hi" [Ref.alice; Ref.bob] Ref.st0.
Proof.
  apply (encrypt_ignores_recipient_order (P := Ref.prims) "hi"
           [Ref.bob; Ref.alice] [Ref.alice; Ref.bob] Ref.st0).
  - exact RefRuns.recipients_distinct.
  - intros a b [<- | [<- | []]] [<- | [<- | []]] Hne;
      first [reflexivity | exfalso; apply Hne; reflexivity].
  - intros a b c [<- | [<- | []]] [<- | [<- | []]] [<- | [<- | []]] Hab Hbc;
      first [reflexivity | vm_compute in Hab; discriminate Hab
             | vm_compute in Hbc; discriminate Hbc].
  - apply perm_swap.
Defined.

Lemma encrypt_wire_format_witness :
  exists padding ivs tape,
    entropy Ref.st0 = padding :: tape /\
    length padding = 64%nat /\
    length ivs = length (encrypt_sortedRecipients (P := Ref.prims) [Ref.bob; Ref.alice]) /\
    Forall (fun iv => length (base64_decode (Primitives := Ref.prims) iv) = 12%nat) ivs /\
    usedIVs Ref.sentState = usedIVs Ref.st0 ++ ivs /\
    Ref.envelope
    = envelopeFor (P := Ref.prims) (utf8_encode (Primitives := Ref.prims) "hi" ++ padding)
        (encrypt_sortedRecipients (P := Ref.prims) [Ref.bob; Ref.alice]) ivs.
Proof.
  apply (encrypt_wire_format (P := Ref.prims) "hi" [Ref.bob; Ref.alice] Ref.st0
           Ref.envelope Ref.sentState RefFacts.transport_decode_encode
           RefRuns.recipients_distinct RefRuns.recipients_not_proto).
  vm_compute. reflexivity.
Defined.

Lemma decrypt_presence_and_key_gates_witness :
  fst (decrypt (P := Ref.prims) "carol" [] Ref.envelope (Ref.meFor Ref.bobPriv) [])
  = Throw NotAddressedToMe /\
  decrypt (P := Ref.prims) "toString" [] Ref.envelope (Ref.meFor Ref.bobPriv) []
  = (Throw TypeError, []).
Proof.
  split.
  - apply (proj1 (decrypt_presence_and_key_gates (P := Ref.prims) "carol" [] Ref.envelope
                    (Ref.meFor Ref.bobPriv) [])).
    vm_compute. reflexivity.
  - apply (proj1 (proj2 (proj2 (proj2
             (decrypt_presence_and_key_gates (P := Ref.prims) "toString" [] Ref.envelope
                (Ref.meFor Ref.bobPriv) []))))).
    + vm_compute. reflexivity.
    + intros e. vm_compute. discriminate.
    + eexists. reflexivity.
Defined.

Lemma decrypt_returns_only_verified_witness :
  exists mine key,
    let sortedRecipients := decrypt_sortedRecipients (Envelope.text Ref.envelope) in
    let plaintext := decryptAES (P := Ref.prims) (Entry.message mine) (Secret.message key)
                                (Entry.iv mine) in
    JSObject.get (Envelope.encrypted Ref.envelope) "bob" = JSObject.AnEntry mine /\
    mpSecretKey (Ref.meFor Ref.bobPriv) = Some key /\
    Entry.hmac mine
    = Some (HMAC (P := Ref.prims) (decrypt_hmacInput (P := Ref.prims) sortedRecipients)
                 (Secret.hmac key)) /\
    ~ In (Entry.iv mine) [] /\
    (64 <= WA.sigBytes plaintext)%nat /\
    (exists messageTag,
        decrypt_messageTag (P := Ref.prims) sortedRecipients plaintext = Some messageTag /\
        createMessageTag (P := Ref.prims) messageTag = Envelope.tag Ref.envelope) /\
    RetObject "hi" ["carol"]
    = match utf8_decode (Primitives := Ref.prims)
              (WA.bytes (WA.create (WA.words plaintext)
                           (Some (WA.sigBytes plaintext - 64)%nat))) with
      | Some text =>
          RetObject text
            (List.filter
               (fun r => negb (String.eqb r (nickname (Ref.meFor Ref.bobPriv)))
                         && negb (JSObject.has (Envelope.encrypted Ref.envelope) r))
               ["alice"; "me"; "carol"; "toString"])
      | None => RetString ""
      end.
Proof.
  apply (decrypt_returns_only_verified (P := Ref.prims) "bob"
           ["alice"; "me"; "carol"; "toString"]
           Ref.envelope (Ref.meFor Ref.bobPriv) [] (RetObject "hi" ["carol"])
           ["QkJCQkJCQkJCQkJC"]).
  vm_compute. reflexivity.
Defined.

Lemma decrypt_reports_left_out_buddies_witness :
  decrypt (P := Ref.prims) "bob" ["alice"; "me"; "carol"; "toString"; "dave"] Ref.envelope
    (Ref.meFor Ref.bobPriv) []
  = (Return (RetObject "hi" ["carol"; "dave"]), ["QkJCQkJCQkJCQkJC"]) /\
  let keyed n :=
    exists r, In r [Ref.bob; Ref.alice] /\ nickname r = n /\ is_Some (mpSecretKey r) in
  forall b, In b ["carol"; "dave"] <->
    In b ["alice"; "me"; "carol"; "toString"; "dave"] /\
    b <> nickname (Ref.meFor Ref.bobPriv) /\
    ~ keyed b /\
    ~ In b JSObject.Object_prototype /\
    ~ (keyed "__proto__"%string /\ In b ["message"; "iv"; "hmac"]).
Proof.
  assert (Hrun : decrypt (P := Ref.prims) "bob" ["alice"; "me"; "carol"; "toString"; "dave"]
                   Ref.envelope (Ref.meFor Ref.bobPriv) []
                 = (Return (RetObject "hi" ["carol"; "dave"]), ["QkJCQkJCQkJCQkJC"]))
    by (vm_compute; reflexivity).
  split; [exact Hrun |].
  apply (decrypt_reports_left_out_buddies (P := Ref.prims) "hi" [Ref.bob; Ref.alice] Ref.st0
           Ref.envelope Ref.sentState "bob" ["alice"; "me"; "carol"; "toString"; "dave"]
           (Ref.meFor Ref.bobPriv) [] "hi" ["carol"; "dave"] ["QkJCQkJCQkJCQkJC"]).
  - vm_compute. reflexivity.
  - exact Hrun.
Defined.

Lemma decrypt_not_a_recipient_witness :
  decrypt (P := Ref.prims) "carol" ["alice"; "bob"; "me"] Ref.envelope
    (Ref.meFor Ref.bobPriv) ["QUFBQUFBQUFBQUFB"]
  = (Throw NotAddressedToMe, ["QUFBQUFBQUFBQUFB"]) /\
  decrypt (P := Ref.prims) "constructor" ["alice"; "bob"; "me"] Ref.envelope
    (Ref.meFor Ref.bobPriv) ["QUFBQUFBQUFBQUFB"]
  = (Throw TypeError, ["QUFBQUFBQUFBQUFB"]).
Proof.
  split.
  - apply (proj1 (decrypt_not_a_recipient (P := Ref.prims) "hi" [Ref.bob; Ref.alice] Ref.st0
                    Ref.envelope Ref.sentState "carol" ["alice"; "bob"; "me"]
                    (Ref.meFor Ref.bobPriv) ["QUFBQUFBQUFBQUFB"]
                    ltac:(vm_compute; reflexivity)
                    ltac:(intros r [<- | [<- | []]] Hname; discriminate Hname))).
    + cbn. intuition discriminate.
    + intros _. cbn. intuition discriminate.
  - apply (proj2 (decrypt_not_a_recipient (P := Ref.prims) "hi" [Ref.bob; Ref.alice] Ref.st0
                    Ref.envelope Ref.sentState "constructor" ["alice"; "bob"; "me"]
                    (Ref.meFor Ref.bobPriv) ["QUFBQUFBQUFBQUFB"]
                    ltac:(vm_compute; reflexivity)
                    ltac:(intros r [<- | [<- | []]] Hname; discriminate Hname))).
    + left. reflexivity.
    + eexists. reflexivity.
Defined.

Lemma decrypt_accepts_added_empty_entry_witness :
  decrypt (P := Ref.prims) "bob" ["alice"; "me"; "carol"; "dave"] Ref.envelope
    (Ref.meFor Ref.bobPriv) []
  = (Return (RetObject "hi" ["carol"; "dave"]), ["QkJCQkJCQkJCQkJC"]) /\
  decrypt (P := Ref.prims) "bob" ["alice"; "me"; "carol"; "dave"]
    (Envelope.make (Envelope.type Ref.envelope)
       (<["carol"%string := Entry.mk "" "" (Some ""%string)]> (Envelope.text Ref.envelope))
       (Envelope.proto Ref.envelope) (Envelope.tag Ref.envelope))
    (Ref.meFor Ref.bobPriv) []
  = (Return (RetObject "hi"
               (List.filter (fun b => negb (String.eqb b "carol")) ["carol"; "dave"])),
     ["QkJCQkJCQkJCQkJC"]).
Proof.
  assert (Hrun : decrypt (P := Ref.prims) "bob" ["alice"; "me"; "carol"; "dave"] Ref.envelope
                   (Ref.meFor Ref.bobPriv) []
                 = (Return (RetObject "hi" ["carol"; "dave"]), ["QkJCQkJCQkJCQkJC"]))
    by (vm_compute; reflexivity).
  split; [exact Hrun |].
  apply (decrypt_accepts_added_empty_entry (P := Ref.prims) "bob"
           ["alice"; "me"; "carol"; "dave"] Ref.envelope (Ref.meFor Ref.bobPriv) []
           "carol" (Entry.mk "" "" (Some ""%string)) ""
           "hi" ["carol"; "dave"] ["QkJCQkJCQkJCQkJC"]);
    first [exact Hrun | reflexivity | vm_compute; reflexivity
           | left; vm_compute; reflexivity].
Defined.

Lemma decrypt_detects_removed_entry_witness :
  decrypt (P := Ref.prims) "bob" []
    (Envelope.mk (Envelope.type Ref.envelope)
       (delete "alice"%string (Envelope.text Ref.envelope))
       (Envelope.tag Ref.envelope))
    (Ref.meFor Ref.bobPriv) []
  = (Throw AuthenticationFailure, []).
Proof.
  apply (decrypt_detects_removed_entry (P := Ref.prims) "hi" [Ref.bob; Ref.alice] Ref.st0
           Ref.envelope Ref.sentState "alice"
           Ref.bob Ref.bobSecret (Ref.meFor Ref.bobPriv) [] []
           RefFacts.transport_decode_encode).
  - vm_compute. reflexivity.
  - exact RefRuns.recipients_distinct.
  - exact RefRuns.collate_agrees.
  - exact RefRuns.recipients_not_proto.
  - left. reflexivity.
  - reflexivity.
  - vm_compute. reflexivity.
  - eexists. vm_compute. reflexivity.
  - discriminate.
  - intros _. vm_compute. discriminate.
Defined.

Lemma decrypt_detects_added_entry_witness :
  decrypt (P := Ref.prims) "bob" []
    (Envelope.mk (Envelope.type Ref.envelope)
       (<["carol"%string := Entry.mk "aGk=" "" (Some ""%string)]>
          (Envelope.text Ref.envelope))
       (Envelope.tag Ref.envelope))
    (Ref.meFor Ref.bobPriv) []
  = (Throw AuthenticationFailure, []).
Proof.
  apply (decrypt_detects_added_entry (P := Ref.prims) "hi" [Ref.bob; Ref.alice] Ref.st0
           Ref.envelope Ref.sentState "carol"
           (Entry.mk "aGk=" "" (Some ""%string))
           Ref.bob Ref.bobSecret (Ref.meFor Ref.bobPriv) [] []
           RefFacts.transport_decode_encode).
  - vm_compute. reflexivity.
  - exact RefRuns.recipients_distinct.
  - exact RefRuns.collate_agrees.
  - exact RefRuns.recipients_not_proto.
  - left. reflexivity.
  - reflexivity.
  - vm_compute. reflexivity.
  - vm_compute. reflexivity.
  - vm_compute. discriminate.
  - intros _. vm_compute. discriminate.
Defined.

Lemma tampered_mac_blocks_genuine_envelope_witness :
  decrypt (P := Ref.prims) "bob" [] Ref.macTampered (Ref.meFor Ref.bobPriv) []
  = (Throw TagFailure, [] ++ ["QkJCQkJCQkJCQkJC"]) /\
  decrypt (P := Ref.prims) "bob" [] Ref.envelope (Ref.meFor Ref.bobPriv)
    ([] ++ ["QkJCQkJCQkJCQkJC"])
  = (Throw ReplayDetected, [] ++ ["QkJCQkJCQkJCQkJC"]).
Proof.
  apply (tampered_mac_blocks_genuine_envelope (P := Ref.prims) "hi" [Ref.bob; Ref.alice]
           Ref.st0 Ref.envelope Ref.sentState
           "alice" (Ref.entryOf "alice" Ref.envelope)
           (Ref.flipMac (Ref.entryOf "alice" Ref.envelope))
           Ref.bob Ref.bobSecret (Ref.entryOf "bob" Ref.envelope) (Ref.meFor Ref.bobPriv) [] []
           RefFacts.transport_decode_encode RefFacts.stream_decrypt_encrypt).
  - vm_compute. reflexivity.
  - exact RefRuns.recipients_distinct.
  - exact RefRuns.collate_agrees.
  - exact RefRuns.recipients_not_proto.
  - vm_compute. reflexivity.
  - eapply RefRuns.modified_mac; [vm_compute; reflexivity | vm_compute; discriminate].
  - vm_compute. discriminate.
  - discriminate.
  - left. reflexivity.
  - reflexivity.
  - vm_compute. reflexivity.
  - vm_compute. reflexivity.
  - reflexivity.
  - intros _. vm_compute. discriminate.
Defined.

(** A recipient named [__proto__]: its entry is no own property of the
    envelope but the prototype of [text]; the receivers rebuild the MAC input
    without it, and nobody can read the message. *)
Example proto_recipient_breaks_envelope :
  let env := Ref.envelopeOf (encrypt (P := Ref.prims) "hi" [Ref.bob; Ref.protoBuddy] Ref.st0) in
  (decrypt_sortedRecipients (Envelope.text env)).*1 = ["bob"%string] /\
  is_Some (Envelope.proto env) /\
  decrypt (P := Ref.prims) "bob" [] env (Ref.meFor Ref.bobPriv) []
  = (Throw AuthenticationFailure, []) /\
  decrypt (P := Ref.prims) "__proto__" [] env (Ref.meFor Ref.alicePriv) []
  = (Throw AuthenticationFailure, []).
Proof.
  cbv zeta. split; [vm_compute; reflexivity |].
  split; [vm_compute; eauto |]. split; vm_compute; reflexivity.
Qed.

(** ** Keys, fingerprints and IVs on concrete inputs *)

Example fingerprint_alice :
  fingerprint (P := Ref.prims) (PublicKey.raw (publicKeyFromPrivate (P := Ref.prims) Ref.alicePriv))
  = "5B5B5B5B5B5B5B5B5B5B5B5B5B5B5B5B5B5B5B5B"%string.
Proof. vm_compute. reflexivity. Qed.

Example parsePublicKey_two_bytes :
  parsePublicKey (P := Ref.prims) "aGk=" = [x68; x69; x00; x00].
Proof. vm_compute. reflexivity. Qed.

Example correctIvLength_two_bytes :
  WA.bytes (correctIvLength (P := Ref.prims) "aGk=")
  = [x68; x69; x00; x00; x00; x00; x00; x00].
Proof. vm_compute. reflexivity. Qed.
